(** * submissionUpdater: curriculum scraper and reconciliation tools

    A shallow embedding of [src/scrape.js], [tools/compare_courses.js] and
    [tools/compare_courses_AI.js], and the properties of the extraction and
    reconciliation core established on it.

    Text is carried as Rocq strings, i.e. as the UTF-8 bytes of the
    JavaScript string.  Case conversion, [trim] and the regular
    expression classes [\w], [\d], [\s], [\b] are modelled on the ASCII
    range, where they coincide with JavaScript; a multi-byte character is
    inert for them (it is neither a letter, a digit nor a space), and the
    multi-byte characters the sources name explicitly (the en dash and
    the em dash) are matched through their three-byte encodings.  A
    statement that rests on the case conversion is made of texts in that
    range ([Names.plainName], [Names.asciiText]).

    Numbers appear in two places.  [Number(digits)] of a semester number
    is the natural number the digits denote (exact below 2^53), and the
    test [jaccard >= 0.15] is decided on the exact fraction.  A number
    made of a credits literal by [Number] is kept as that literal. *)

From Stdlib Require Import Bool Arith NArith Lia List String Ascii.
From Stdlib Require Import DecimalString.
From Stdlib Require Import Permutation Sorted.
Import ListNotations.
Open Scope string_scope.
Open Scope list_scope.
Open Scope nat_scope.

(* ================================================================== *)
(** * JavaScript strings *)

Module JSString.

Definition char_code (c : ascii) : nat := nat_of_ascii c.

Definition in_range (lo hi : nat) (c : ascii) : bool :=
  (lo <=? char_code c) && (char_code c <=? hi).

Definition is_upper : ascii -> bool := in_range 65 90.
Definition is_lower : ascii -> bool := in_range 97 122.
Definition is_digit : ascii -> bool := in_range 48 57.

(** [\s] and the characters removed by [trim], on the ASCII range:
    TAB, LF, VT, FF, CR and the space. *)
Definition is_space (c : ascii) : bool :=
  in_range 9 13 c || (char_code c =? 32).

(** [\w] is [[A-Za-z0-9_]]. *)
Definition is_word (c : ascii) : bool :=
  is_upper c || is_lower c || is_digit c || (char_code c =? 95).

Definition lower_char (c : ascii) : ascii :=
  if is_upper c then ascii_of_nat (char_code c + 32) else c.

Definition upper_char (c : ascii) : ascii :=
  if is_lower c then ascii_of_nat (char_code c - 32) else c.

Fixpoint map_string (f : ascii -> ascii) (s : string) : string :=
  match s with
  | EmptyString => EmptyString
  | String c s' => String (f c) (map_string f s')
  end.

Definition toLowerCase : string -> string := map_string lower_char.
Definition toUpperCase : string -> string := map_string upper_char.

Fixpoint dropWhile (p : ascii -> bool) (l : list ascii) : list ascii :=
  match l with
  | [] => []
  | c :: l' => if p c then dropWhile p l' else l
  end.

Definition chars : string -> list ascii := list_ascii_of_string.
Definition of_chars : list ascii -> string := string_of_list_ascii.

(** [String.prototype.trim]. *)
Definition trim (s : string) : string :=
  of_chars (rev (dropWhile is_space (rev (dropWhile is_space (chars s))))).

(** [hay.includes(needle)] on strings. *)
Fixpoint includes (hay needle : string) : bool :=
  String.prefix needle hay ||
  match hay with
  | EmptyString => false
  | String _ hay' => includes hay' needle
  end.

(** [arr.join(sep)]. *)
Fixpoint join (sep : string) (l : list string) : string :=
  match l with
  | [] => ""
  | [x] => x
  | x :: l' => x ++ sep ++ join sep l'
  end.

(** A string is truthy when it is not empty. *)
Definition truthy (s : string) : bool :=
  match s with EmptyString => false | _ => true end.

(** [x || ''] for a field that may be [null]/[undefined]. *)
Definition orEmpty (x : option string) : string :=
  match x with Some s => s | None => "" end.

(** [x || null] for a string: the empty string becomes [null]. *)
Definition orNull (s : string) : option string :=
  if truthy s then Some s else None.

(** Truthiness of a field that may be absent. *)
Definition truthy_opt (x : option string) : bool := truthy (orEmpty x).

(** [Array.prototype.sort] with the default comparator, on strings:
    ascending code-unit order.  The sort is stable; equal strings are
    indistinguishable, so an insertion sort gives the same array. *)
Fixpoint insert_sorted (x : string) (l : list string) : list string :=
  match l with
  | [] => [x]
  | y :: l' => if String.leb x y then x :: l else y :: insert_sorted x l'
  end.

Fixpoint sort (l : list string) : list string :=
  match l with
  | [] => []
  | x :: l' => insert_sorted x (sort l')
  end.

(** [new Set(arr)] as the list of its elements in insertion order. *)
Fixpoint dedup (l : list string) : list string :=
  match l with
  | [] => []
  | x :: l' => x :: filter (fun y => negb (String.eqb x y)) (dedup l')
  end.

Definition mem (x : string) (l : list string) : bool :=
  existsb (String.eqb x) l.

End JSString.

(* ================================================================== *)
(** * Regular expressions

    A backtracking matcher with the priorities of JavaScript's: greedy
    quantifiers, ordered alternation, leftmost match.  The regular
    expressions of the sources have at most one capturing group, so one
    capture slot is enough.  Every quantified sub-expression of the
    sources consumes at least one character per iteration, which is what
    the iteration of [Rep] asks for; the iterations are counted down
    from one more than the length of the remaining subject, a bound
    they cannot reach since each of them consumes a character. *)

Module Regex.
Import JSString.

Inductive re : Type :=
| Eps
| Chr (p : ascii -> bool)
| Seq (r1 r2 : re)
| Alt (r1 r2 : re)
| Rep (lo : nat) (hi : option nat) (r : re)
| Grp (r : re)
| Bol
| Eol
| WordB.

(** A position in the subject: the character before it (none at the
    start), the characters from it on, and the capture so far. *)
Record pos : Type := mkPos {
  prev : option ascii;
  rest : list ascii;
  cap : option (list ascii)
}.

Definition consumed (from to : list ascii) : list ascii :=
  firstn (List.length from - List.length to) from.

Definition word_at (c : option ascii) : bool :=
  match c with Some x => is_word x | None => false end.

Fixpoint run (r : re) (st : pos) (k : pos -> option pos) {struct r}
  : option pos :=
  match r with
  | Eps => k st
  | Chr p =>
      match rest st with
      | c :: l => if p c then k (mkPos (Some c) l (cap st)) else None
      | [] => None
      end
  | Seq r1 r2 => run r1 st (fun st1 => run r2 st1 k)
  | Alt r1 r2 =>
      match run r1 st k with
      | Some x => Some x
      | None => run r2 st k
      end
  | Rep lo hi r' =>
      (fix loop (fuel lo : nat) (hi : option nat) (st : pos) {struct fuel}
         : option pos :=
         let stop := if lo =? 0 then k st else None in
         match fuel with
         | 0 => stop
         | S fuel' =>
             let more :=
               match hi with
               | Some 0 => None
               | _ =>
                   run r' st (fun st1 =>
                     if List.length (rest st1) <? List.length (rest st)
                     then loop fuel' (pred lo) (option_map pred hi) st1
                     else None)
               end in
             match more with
             | Some x => Some x
             | None => stop
             end
         end) (S (List.length (rest st))) lo hi st
  | Grp r' =>
      run r' st (fun st1 =>
        k (mkPos (prev st1) (rest st1)
                 (Some (consumed (rest st) (rest st1)))))
  | Bol => match prev st with None => k st | Some _ => None end
  | Eol => match rest st with [] => k st | _ :: _ => None end
  | WordB =>
      if xorb (word_at (prev st)) (word_at (hd_error (rest st)))
      then k st else None
  end.

(** One match: the text skipped before it, the match, its capture, the
    text after it and the character that precedes that text. *)
Record found : Type := mkFound {
  pre : list ascii;
  matched : list ascii;
  group1 : option (list ascii);
  post_prev : option ascii;
  post : list ascii
}.

(** Leftmost match at or after the current position. *)
Fixpoint search (r : re) (p : option ascii) (l skipped : list ascii)
  : option found :=
  match run r (mkPos p l None) Some with
  | Some st =>
      Some (mkFound (rev skipped) (consumed l (rest st)) (cap st)
                    (prev st) (rest st))
  | None =>
      match l with
      | [] => None
      | c :: l' => search r (Some c) l' (c :: skipped)
      end
  end.

(** [re.exec(s)] / [s.match(re)] without the [g] flag. *)
Definition exec (r : re) (s : string) : option found :=
  search r None (chars s) [].

(** [re.test(s)]. *)
Definition test (r : re) (s : string) : bool :=
  match exec r s with Some _ => true | None => false end.

(** The successive matches of a [g] regular expression.  After an
    empty match the scan moves one character on, as [lastIndex] does. *)
Fixpoint scan (fuel : nat) (r : re) (p : option ascii) (l : list ascii)
  : list found * list ascii :=
  match fuel with
  | 0 => ([], l)
  | S fuel' =>
      match search r p l [] with
      | None => ([], l)
      | Some f =>
          match matched f, post f with
          | [], [] => ([f], [])
          | [], c :: l' =>
              let '(fs, tl) := scan fuel' r (Some c) l' in
              (f :: match fs with
                    | [] => []
                    | g :: fs' =>
                        mkFound (c :: pre g) (matched g) (group1 g)
                                (post_prev g) (post g) :: fs'
                    end,
               match fs with [] => c :: tl | _ => tl end)
          | _ :: _, _ =>
              let '(fs, tl) := scan fuel' r (post_prev f) (post f) in
              (f :: fs, tl)
          end
      end
  end.

Definition matches (r : re) (s : string) : list found * list ascii :=
  scan (S (String.length s)) r None (chars s).

(** [s.match(re) || []] with the [g] flag: the matched texts. *)
Definition matchAll (r : re) (s : string) : list string :=
  map (fun f => of_chars (matched f)) (fst (matches r s)).

(** [s.replace(re, fn)] with the [g] flag; [fn] receives the match and
    the capture. *)
Definition replaceAll (r : re) (fn : string -> string -> string)
           (s : string) : string :=
  let '(fs, tl) := matches r s in
  (String.concat ""
     (map (fun f =>
             (of_chars (pre f) ++
              fn (of_chars (matched f))
                 (of_chars (match group1 f with Some g => g | None => [] end))
             )%string)
          fs)
   ++ of_chars tl)%string.

(** [s.replace(re, fn)] without the [g] flag: the first match only. *)
Definition replaceFirst (r : re) (fn : string -> string -> string)
           (s : string) : string :=
  match exec r s with
  | None => s
  | Some f =>
      (of_chars (pre f) ++
       fn (of_chars (matched f))
          (of_chars (match group1 f with Some g => g | None => [] end)) ++
       of_chars (post f))%string
  end.

(** [s.split(re)] for a separator that does not match the empty
    string: the pieces between the successive matches. *)
Definition split (r : re) (s : string) : list string :=
  let '(fs, tl) := matches r s in
  map (fun f => of_chars (pre f)) fs ++ [of_chars tl].

(** ** Building blocks *)

Definition chr (c : ascii) : re := Chr (Ascii.eqb c).
Definition chr_i (c : ascii) : re :=
  Chr (fun x => Ascii.eqb (lower_char x) (lower_char c)).

Fixpoint lit (s : string) : re :=
  match s with
  | EmptyString => Eps
  | String c EmptyString => chr c
  | String c s' => Seq (chr c) (lit s')
  end.

Fixpoint lit_i (s : string) : re :=
  match s with
  | EmptyString => Eps
  | String c EmptyString => chr_i c
  | String c s' => Seq (chr_i c) (lit_i s')
  end.

Definition one_of (s : string) : re :=
  Chr (fun x => existsb (Ascii.eqb x) (chars s)).

Definition star (r : re) : re := Rep 0 None r.
Definition plus (r : re) : re := Rep 1 None r.
Definition opt (r : re) : re := Rep 0 (Some 1) r.
Definition between (lo hi : nat) (r : re) : re := Rep lo (Some hi) r.
Definition at_least (lo : nat) (r : re) : re := Rep lo None r.

Fixpoint seq (rs : list re) : re :=
  match rs with
  | [] => Eps
  | [r] => r
  | r :: rs' => Seq r (seq rs')
  end.

Fixpoint alt (rs : list re) : re :=
  match rs with
  | [] => Chr (fun _ => false)
  | [r] => r
  | r :: rs' => Alt r (alt rs')
  end.

Definition space : re := Chr is_space.
Definition digit : re := Chr is_digit.

End Regex.

(* ================================================================== *)
(** * JavaScript Maps with string keys

    A [Map] iterates in insertion order, and [set] on a present key
    keeps the key's place: an association list without repeated keys. *)

Module JSMap.
Section WithValues.
Context {V : Type}.

Definition t : Type := list (string * V).

Fixpoint get (k : string) (m : t) : option V :=
  match m with
  | [] => None
  | (k', e) :: m' => if String.eqb k k' then Some e else get k m'
  end.

Fixpoint set (k : string) (e : V) (m : t) : t :=
  match m with
  | [] => [(k, e)]
  | (k', e') :: m' =>
      if String.eqb k k' then (k, e) :: m' else (k', e') :: set k e m'
  end.

Definition has (k : string) (m : t) : bool :=
  match get k m with Some _ => true | None => false end.

Definition keys (m : t) : list string := map fst m.
End WithValues.
Arguments t : clear implicits.
End JSMap.

(* ================================================================== *)
(** * The catalog data read by the comparison tools

    [data/courses.json] and the sheet files hold
    [{ semesters: [{ name, courses: [{ serial, code, title, credits,
    prerequisite }] }] }].  A field of a course is a string or is absent
    ([null] or missing); [courses || []] makes an absent course list the
    empty list. *)

Module Catalog.

Record course : Type := mkCourse {
  serial : option string;
  code : option string;
  title : option string;
  credits : option string;
  prerequisite : option string
}.

Record semester : Type := mkSemester {
  name : string;
  courses : list course
}.

End Catalog.

(* ================================================================== *)
(** * tools/compare_courses.js and tools/compare_courses_AI.js

    The two scripts are the same program up to the prerequisite: the
    first fingerprints a course by code, credits and prerequisite and has
    a prerequisite branch in the pairing loop, the second fingerprints by
    code and credits only.  [variant] selects the script. *)

Module Compare.
Import JSString Regex Catalog.

Inductive variant : Type :=
| Courses     (* tools/compare_courses.js *)
| CoursesAI.  (* tools/compare_courses_AI.js *)

Definition normalizeCode (code : option string) : string :=
  if truthy_opt code then toUpperCase (trim (orEmpty code)) else "".

Definition normalizeCredits (c : option string) : string :=
  if truthy_opt c then trim (orEmpty c) else "".

(** [Number(digits)] for a run of decimal digits. *)
Definition digit_value (c : ascii) : N := N.of_nat (char_code c - 48).

Definition number_of_digits (ds : list ascii) : N :=
  fold_left (fun n c => (10 * n + digit_value c)%N) ds 0%N.

(** [/semester\s*[-:]?\s*(\d+)/i] *)
Definition semesterNumber_re : re :=
  seq [lit_i "semester"; star space; opt (one_of "-:"); star space;
       Grp (plus digit)].

(** [/semester[- ]?(\d+)/i] *)
Definition semesterNumber_re2 : re :=
  seq [lit_i "semester"; opt (one_of "- "); Grp (plus digit)].

Definition capture_number (f : found) : N :=
  number_of_digits (match group1 f with Some g => g | None => [] end).

Definition semesterNumber (name : string) : option N :=
  if negb (truthy name) then None
  else match exec semesterNumber_re name with
       | Some m => Some (capture_number m)
       | None =>
           match exec semesterNumber_re2 name with
           | Some m2 => Some (capture_number m2)
           | None => None
           end
       end.

Definition romanToInt (r : string) : string :=
  if negb (truthy r) then r
  else
    let m := toUpperCase r in
    if String.eqb m "I" then "1"
    else if String.eqb m "II" then "2"
    else if String.eqb m "III" then "3"
    else if String.eqb m "IV" then "4"
    else if String.eqb m "V" then "5"
    else m.

(** The en dash U+2013 and the em dash U+2014, as UTF-8. *)
Definition en_dash : string :=
  String (ascii_of_nat 226) (String (ascii_of_nat 128)
    (String (ascii_of_nat 147) "")).
Definition em_dash : string :=
  String (ascii_of_nat 226) (String (ascii_of_nat 128)
    (String (ascii_of_nat 148) "")).

(** [(i{1,3}|iv|v)] under the [i] flag. *)
Definition roman_group : re :=
  Grp (alt [between 1 3 (chr_i "i"); lit_i "iv"; chr_i "v"]).

Definition to_space (_ _ : string) : string := " ".

Definition normalizeSemKey (name : string) : string :=
  if negb (truthy name) then ""
  else
    let s := toLowerCase name in
    (* /[-–—]/g *)
    let s := replaceAll (alt [chr "-"; lit en_dash; lit em_dash])
                        to_space s in
    (* /[(),.:]/g *)
    let s := replaceAll (one_of "(),.:") to_space s in
    (* /\s+/g, then trim *)
    let s := trim (replaceAll (plus space) to_space s) in
    (* /\b(?:semester)\s+(i{1,3}|iv|v)\b/gi *)
    let s := replaceAll
               (seq [WordB; lit_i "semester"; plus space; roman_group;
                     WordB])
               (fun _ r => ("semester " ++ romanToInt r)%string) s in
    (* /\b(i{1,3}|iv|v)\b/gi *)
    let s := replaceAll (seq [WordB; roman_group; WordB])
                        (fun _ r => romanToInt r) s in
    (* /pre\s*-?\s*medical/g *)
    let s := replaceAll
               (seq [lit "pre"; star space; opt (chr "-"); star space;
                     lit "medical"])
               (fun _ _ => "pre medical") s in
    s.

(** ** compareSemesters *)

(** [/[A-Z]{2,}[-\s]?\d{2,4}/g] *)
Definition codePattern : re :=
  seq [at_least 2 (Chr is_upper);
       opt (Chr (fun c => Ascii.eqb c "-" || is_space c));
       between 2 4 digit].

Definition normalizePrereq (p : option string) : string :=
  if negb (truthy_opt p) then ""
  else
    let s := toUpperCase (trim (orEmpty p)) in
    let codes := matchAll codePattern s in
    join "|"
      (sort (map (replaceAll (plus space) (fun _ _ => "-")) codes)).

Definition fingerprint (v : variant) (c : course) : string :=
  match v with
  | Courses =>
      (normalizeCode (code c) ++ "|" ++ normalizeCredits (credits c)
       ++ "|" ++ normalizePrereq (prerequisite c))%string
  | CoursesAI =>
      (normalizeCode (code c) ++ "|" ++ normalizeCredits (credits c)
      )%string
  end.

Definition isTotalCourse (c : course) : bool :=
  let code := normalizeCode (code c) in
  let title := toLowerCase (orEmpty (title c)) in
  if negb (truthy code) && negb (truthy title) then false
  else if String.eqb code "TOTAL" || String.eqb code "GRAND TOTAL"
  then true
  else if includes title "total" then true
  else false.

(** An entry of a count map: [{ count, sample }]. *)
Record entry : Type := mkEntry { count : nat; sample : course }.

Definition countMap : Type := JSMap.t entry.

(** The body of the loop of [makeCountMap], for one course. *)
Definition countCourse (v : variant) (m : countMap) (c : course)
  : countMap :=
  if isTotalCourse c then m
  else
    let key := fingerprint v c in
    let entry := match JSMap.get key m with
                 | Some e => e
                 | None => mkEntry 0 c
                 end in
    JSMap.set key (mkEntry (count entry + 1) (sample entry)) m.

Definition makeCountMap (v : variant) (arr : list course) : countMap :=
  fold_left (countCourse v) arr [].

(** [{ key, entry }] *)
Definition candidate : Type := (string * entry)%type.

(** [{ course, fetchedCount, validCount }] *)
Record mismatch : Type := mkMismatch {
  course_of : course;
  fetchedCount : nat;
  validCount : nat
}.

Inductive DiffEntry : Type :=
| PrerequisiteMismatch (fetched valid : course)
| CodeMismatch (fetched valid : course)
| MissingInFetched (count : nat) (c : course)
| ExtraInFetched (count : nat) (c : course)
| CountMismatch (cm : mismatch).

(** The [type] field of a diff object. *)
Definition type (d : DiffEntry) : string :=
  match d with
  | PrerequisiteMismatch _ _ => "prerequisite-mismatch"
  | CodeMismatch _ _ => "code-mismatch"
  | MissingInFetched _ _ => "missing-in-fetched"
  | ExtraInFetched _ _ => "extra-in-fetched"
  | CountMismatch _ => "count-mismatch"
  end.

(** The first loop: the keys of the reference map that the live map
    lacks, and those whose counts differ. *)
Definition scanValid (fMap vMap : countMap)
  : list candidate * list mismatch :=
  fold_left
    (fun acc kv =>
       let '(missingList, countMismatches) := acc in
       let '(k, vEntry) := kv in
       match JSMap.get k fMap with
       | None => (missingList ++ [(k, vEntry)], countMismatches)
       | Some fEntry =>
           if negb (count fEntry =? count vEntry)
           then (missingList,
                 countMismatches ++
                   [mkMismatch (sample vEntry) (count fEntry)
                               (count vEntry)])
           else (missingList, countMismatches)
       end)
    vMap ([], []).

(** The second loop: the keys of the live map that the reference map
    lacks. *)
Definition scanFetched (fMap vMap : countMap) : list candidate :=
  fold_left
    (fun extraList kf =>
       let '(k, fEntry) := kf in
       if negb (JSMap.has k vMap) then extraList ++ [(k, fEntry)]
       else extraList)
    fMap [].

(** [/[\W_]+/g] *)
Definition nonword_re : re :=
  plus (Chr (fun c => negb (is_word c) || Ascii.eqb c "_")).

Definition words (s : option string) : list string :=
  filter (fun w => 2 <? String.length w)
    (map (replaceFirst (Seq (chr "s") Eol) (fun _ _ => ""))
       (split (plus space)
          (replaceAll nonword_re to_space (toLowerCase (orEmpty s))))).

(** [jaccard(a, b)] as the fraction [inter / uni]; [0] is [0 / 1]. *)
Definition jaccard (a b : option string) : nat * nat :=
  let A := dedup (words a) in
  let B := dedup (words b) in
  if (List.length A =? 0) || (List.length B =? 0) then (0, 1)
  else
    let inter := List.length (filter (fun x => mem x B) A) in
    let uni := List.length (dedup (A ++ B)) in
    (inter, uni).

(** [sim >= 0.15], as [inter / uni >= 3 / 20] on the exact fraction. *)
Definition at_least_015 (sim : nat * nat) : bool :=
  3 * snd sim <=? 20 * fst sim.

Definition first_char (w : string) : string :=
  match w with
  | EmptyString => ""
  | String c _ => String c ""
  end.

Definition acronym (s : option string) : string :=
  toUpperCase (join "" (map first_char (words s))).

(** The title test of the pairing loop. *)
Definition similarTitles (mTitle eTitle : option string) : bool :=
  let sim := jaccard mTitle eTitle in
  let acrM := acronym mTitle in
  let acrE := acronym eTitle in
  let subs :=
    includes (toLowerCase (orEmpty mTitle)) (toLowerCase (orEmpty eTitle))
    || includes (toLowerCase (orEmpty eTitle))
                (toLowerCase (orEmpty mTitle)) in
  let tokenIntersection :=
    existsb (fun t => mem t (words eTitle)) (words mTitle) in
  at_least_015 sim
  || (truthy acrM && truthy acrE
      && (includes acrM acrE || includes acrE acrM))
  || subs || tokenIntersection.

(** The body of the inner loop for one unpaired extra candidate:
    [None] is [continue], [Some d] is "push [d], mark both, break". *)
Definition pairTest (v : variant) (mCourse eCourse : course)
  : option DiffEntry :=
  if negb (String.eqb (normalizeCredits (credits mCourse))
                      (normalizeCredits (credits eCourse)))
  then None
  else
    let prereqBranch :=
      match v with
      | Courses =>
          String.eqb (normalizeCode (code mCourse))
                     (normalizeCode (code eCourse))
          && negb (String.eqb (normalizePrereq (prerequisite mCourse))
                              (normalizePrereq (prerequisite eCourse)))
      | CoursesAI => false
      end in
    if prereqBranch then Some (PrerequisiteMismatch eCourse mCourse)
    else if similarTitles (title mCourse) (title eCourse)
    then Some (CodeMismatch eCourse mCourse)
    else None.

(** [set.has(j)] for a [Set] of indices. *)
Definition setHas (j : nat) (s : list nat) : bool :=
  existsb (Nat.eqb j) s.

(** The inner loop from index [j] on. *)
Fixpoint scanExtra (v : variant) (m : candidate) (es : list candidate)
         (j : nat) (pairedExtra : list nat) : option (nat * DiffEntry) :=
  match es with
  | [] => None
  | e :: es' =>
      if setHas j pairedExtra then scanExtra v m es' (S j) pairedExtra
      else
        match pairTest v (sample (snd m)) (sample (snd e)) with
        | Some d => Some (j, d)
        | None => scanExtra v m es' (S j) pairedExtra
        end
  end.

(** The state of the pairing loops: [diffs], [pairedMissing],
    [pairedExtra]. *)
Record pairing : Type := mkPairing {
  diffs : list DiffEntry;
  pairedMissing : list nat;
  pairedExtra : list nat
}.

(** The outer loop from index [i] on. *)
Fixpoint pairLoop (v : variant) (ms : list candidate) (i : nat)
         (extraList : list candidate) (st : pairing) : pairing :=
  match ms with
  | [] => st
  | m :: ms' =>
      let st' :=
        match scanExtra v m extraList 0 (pairedExtra st) with
        | Some (j, d) =>
            mkPairing (diffs st ++ [d]) (pairedMissing st ++ [i])
                      (pairedExtra st ++ [j])
        | None => st
        end in
      pairLoop v ms' (S i) extraList st'
  end.

(** The loops over the remaining candidates, from index [i] on. *)
Fixpoint pushRemaining (mk : candidate -> DiffEntry)
         (l : list candidate) (i : nat) (paired : list nat)
         (diffs : list DiffEntry) : list DiffEntry :=
  match l with
  | [] => diffs
  | c :: l' =>
      if setHas i paired then pushRemaining mk l' (S i) paired diffs
      else pushRemaining mk l' (S i) paired (diffs ++ [mk c])
  end.

Definition missingDiff (m : candidate) : DiffEntry :=
  MissingInFetched (count (snd m)) (sample (snd m)).

Definition extraDiff (e : candidate) : DiffEntry :=
  ExtraInFetched (count (snd e)) (sample (snd e)).

Definition compareSemesters (v : variant)
           (fetchedSem validSemMerged : semester) : list DiffEntry :=
  let fetchedCourses := courses fetchedSem in
  let validCourses := courses validSemMerged in
  let fMap := makeCountMap v fetchedCourses in
  let vMap := makeCountMap v validCourses in
  let '(missingList, countMismatches) := scanValid fMap vMap in
  let extraList := scanFetched fMap vMap in
  let st := pairLoop v missingList 0 extraList (mkPairing [] [] []) in
  let diffs := pushRemaining missingDiff missingList 0
                             (pairedMissing st) (diffs st) in
  let diffs := pushRemaining extraDiff extraList 0
                             (pairedExtra st) diffs in
  fold_left (fun diffs cm => diffs ++ [CountMismatch cm])
            countMismatches diffs.

(** ** main: matching the terms and building the report *)

Definition buildSheetSemesterMap (semesters : list semester)
  : JSMap.t semester :=
  fold_left
    (fun map sem =>
       let key := if truthy (name sem) then name sem else "(unknown)" in
       let map := if negb (JSMap.has key map)
                  then JSMap.set key (mkSemester key []) map
                  else map in
       match JSMap.get key map with
       | Some group =>
           JSMap.set key
             (mkSemester (name group) (courses group ++ courses sem)) map
       | None => map (* not reached: [key] was set just above *)
       end)
    semesters [].

(** [semesterNumber(k) === num] for a [num] that is not [null]. *)
Definition sameNumber (k : string) (num : N) : bool :=
  match semesterNumber k with
  | Some n => N.eqb n num
  | None => false
  end.

(** The key the matching rules of [main] select for a scraped term:
    exact name, then normalized name, then semester number. *)
Definition matchedKey (sheetMap : JSMap.t semester) (scrapedSem : semester)
  : option string :=
  let num := semesterNumber (name scrapedSem) in
  if JSMap.has (name scrapedSem) sheetMap then Some (name scrapedSem)
  else
    let norm := normalizeSemKey (name scrapedSem) in
    let matchedKey :=
      find (fun k => String.eqb (normalizeSemKey k) norm)
           (JSMap.keys sheetMap) in
    if negb (truthy_opt matchedKey) then
      match num with
      | Some n =>
          match find (fun k => sameNumber k n) (JSMap.keys sheetMap) with
          | Some k => Some k
          | None => matchedKey
          end
      | None => matchedKey
      end
    else matchedKey.

(** An element of [report.semesters]. *)
Module Report.
Record semester : Type := mkSemester {
  name : string;
  validKey : string;
  diffCount : nat;
  diffs : list DiffEntry
}.
End Report.

(** The body of the loop of [main] over the scraped terms; the state is
    [report.semesters] and [matchedSheetKeys]. *)
Definition reportScraped (v : variant) (sheetMap : JSMap.t semester)
           (acc : list Report.semester * list string)
           (scrapedSem : semester)
  : list Report.semester * list string :=
  let '(semesters, matchedSheetKeys) := acc in
  let matchedKey := matchedKey sheetMap scrapedSem in
  let validSem :=
    if truthy_opt matchedKey then
      match JSMap.get (orEmpty matchedKey) sheetMap with
      | Some sem => sem
      | None => (* not reached: a matched key is a key of the map *)
          mkSemester (name scrapedSem) []
      end
    else mkSemester (name scrapedSem) [] in
  let matchedSheetKeys :=
    if truthy_opt matchedKey
    then matchedSheetKeys ++ [orEmpty matchedKey]
    else matchedSheetKeys in
  let diffs := compareSemesters v scrapedSem validSem in
  (semesters ++
     [Report.mkSemester (name scrapedSem) (name validSem)
                        (List.length diffs) diffs],
   matchedSheetKeys).

Definition compareScraped (v : variant) (sheetMap : JSMap.t semester)
           (scrapedSems : list semester)
  : list Report.semester * list string :=
  fold_left (reportScraped v sheetMap) scrapedSems ([], []).

(** The loop of [main] over the sheet groups no scraped term matched. *)
Definition compareUnmatched (v : variant) (sheetMap : JSMap.t semester)
           (matchedSheetKeys : list string)
           (semesters : list Report.semester) : list Report.semester :=
  fold_left
    (fun semesters ks =>
       let '(key, sheetSem) := ks in
       if mem key matchedSheetKeys then semesters
       else
         let diffs := compareSemesters v (mkSemester key []) sheetSem in
         if 0 <? List.length diffs
         then semesters ++
                [Report.mkSemester ("(extra in valid) " ++ key) key
                                   (List.length diffs) diffs]
         else semesters)
    sheetMap semesters.

(** [report.semesters] as [main] builds it from the two files'
    [semesters] arrays. *)
Definition main (v : variant) (scraped sheet : list semester)
  : list Report.semester :=
  let sheetMap := buildSheetSemesterMap sheet in
  let '(semesters, matchedSheetKeys) :=
    compareScraped v sheetMap scraped in
  compareUnmatched v sheetMap matchedSheetKeys semesters.

End Compare.

(* ================================================================== *)
(** * The document tree

    The part of a parsed HTML document that [extractSemesters] queries
    through cheerio: elements with a lower-case tag name, attributes and
    children, and text nodes. *)

Module Dom.
Import JSString.

#[warnings="-register-all"]
Inductive node : Type :=
| Text (s : string)
| Elem (tag : string) (attrs : list (string * string))
       (children : list node).

Definition tagName (n : node) : option string :=
  match n with
  | Text _ => None
  | Elem t _ _ => Some t
  end.

Definition hasTag (tags : list string) (n : node) : bool :=
  match tagName n with
  | Some t => mem t tags
  | None => false
  end.

Definition attr (a : string) (n : node) : option string :=
  match n with
  | Text _ => None
  | Elem _ attrs _ =>
      option_map snd (find (fun kv => String.eqb (fst kv) a) attrs)
  end.

(** [$(n).text()]: the text nodes below [n], concatenated. *)
Fixpoint text (n : node) : string :=
  match n with
  | Text s => s
  | Elem _ _ cs => String.concat "" (map text cs)
  end.

(** The elements below [n] in document order, each with the tags of
    its ancestors below [n], nearest first. *)
Fixpoint below (anc : list string) (n : node)
  : list (list string * node) :=
  match n with
  | Text _ => []
  | Elem _ _ cs =>
      flat_map
        (fun c =>
           match c with
           | Text _ => []
           | Elem t _ _ => (anc, c) :: below (t :: anc) c
           end)
        cs
  end.

(** [anc] has the tags of [outer], innermost first, as ancestors in
    that nesting order. *)
Fixpoint nested (outer anc : list string) : bool :=
  match outer, anc with
  | [], _ => true
  | _ :: _, [] => false
  | t :: outer', a :: anc' =>
      if String.eqb t a then nested outer' anc' else nested outer anc'
  end.

(** [$(n).find('t1,t2,...')] *)
Definition find (tags : list string) (n : node) : list node :=
  map snd (filter (fun an => hasTag tags (snd an)) (below [] n)).

(** [$(n).find('a b c')]: the [c] elements inside a [b] inside an [a];
    [path] is [[a; b; c]]. *)
Definition findPath (path : list string) (n : node) : list node :=
  match rev path with
  | [] => []
  | t :: outer =>
      map snd
        (filter (fun an => hasTag [t] (snd an) && nested outer (fst an))
                (below [] n))
  end.

(** [$(n).find('tag[a="v"]')] *)
Definition findWithAttr (tag a v : string) (n : node) : list node :=
  filter (fun e => match attr a e with
                   | Some x => String.eqb x v
                   | None => false
                   end)
         (find [tag] n).

(** [sel.first().text()]: the empty string for an empty selection. *)
Definition firstText (sel : list node) : string :=
  match sel with
  | [] => ""
  | e :: _ => text e
  end.

Definition elements (l : list node) : list node :=
  filter (fun n => match n with Text _ => false | Elem _ _ _ => true end)
         l.

(** The elements below [n] that satisfy [p], in document order, each
    with the elements that follow it among its siblings: what repeated
    [.next()] visits. *)
Fixpoint withSiblings (p : node -> bool) (n : node)
  : list (node * list node) :=
  match n with
  | Text _ => []
  | Elem _ _ cs =>
      (fix go (l : list node) : list (node * list node) :=
         match l with
         | [] => []
         | c :: l' =>
             (match c with
              | Text _ => []
              | Elem _ _ _ => if p c then [(c, elements l')] else []
              end)
             ++ withSiblings p c ++ go l'
         end) cs
  end.

End Dom.

(* ================================================================== *)
(** * src/scrape.js *)

Module Scrape.
Import JSString Regex.

(** [/[A-Z]{2,}\s*-?\s*\d{2,4}/] *)
Definition codeRegex : re :=
  seq [at_least 2 (Chr is_upper); star space; opt (chr "-"); star space;
       between 2 4 digit].

(** [/(?:\b|\()([0-9]+(?:\.[0-9]+)?)(?:\s*Cr|\s*credit|\)|$)/i] *)
Definition creditsRegex : re :=
  seq [Alt WordB (chr "(");
       Grp (Seq (plus digit) (opt (Seq (chr ".") (plus digit))));
       alt [Seq (star space) (lit_i "cr");
            Seq (star space) (lit_i "credit");
            chr ")";
            Eol]].

(** [/^\d+$/] *)
Definition allDigits : re := seq [Bol; plus digit; Eol].

(** [/semester/i] *)
Definition semesterRe : re := lit_i "semester".

(** The [credits] of a scraped course: the cell's text, or
    [Number(text)] of a decimal literal, kept as that literal. *)
Inductive creditsValue : Type :=
| CreditsText (s : string)
| CreditsNumber (literal : string).

Record course : Type := mkCourse {
  serial : option string;
  code : option string;
  title : option string;
  credits : option creditsValue;
  prerequisite : option string
}.

Record semester : Type := mkSemester {
  name : string;
  courses : list course
}.

(** [cells[i] || ''] *)
Definition cell (cells : list string) (i : nat) : string :=
  nth i cells "".

Definition capture (f : found) : string :=
  of_chars (match group1 f with Some g => g | None => [] end).

(** [(t.match(codeRegex) || [''])[0].replace(/\s+/g, ' ').trim()] *)
Definition codeOf (t : string) : string :=
  trim (replaceAll (plus space) (fun _ _ => " ")
          (match exec codeRegex t with
           | Some m => of_chars (matched m)
           | None => ""
           end)).

(** The state of the token scan: [serial], [code], [credits],
    [remaining]. *)
Record tokens : Type := mkTokens {
  t_serial : option string;
  t_code : option string;
  t_credits : option string;
  remaining : list string
}.

Definition scanToken (st : tokens) (c : string) : tokens :=
  let t := trim c in
  if negb (truthy t) then st
  else if negb (truthy_opt (t_serial st)) && test allDigits t
  then mkTokens (Some t) (t_code st) (t_credits st) (remaining st)
  else if negb (truthy_opt (t_code st)) && test codeRegex t
  then mkTokens (t_serial st) (Some (codeOf t)) (t_credits st)
                (remaining st)
  else if negb (truthy_opt (t_credits st)) && test creditsRegex t
  then mkTokens (t_serial st) (t_code st)
                (option_map capture (exec creditsRegex t)) (remaining st)
  else mkTokens (t_serial st) (t_code st) (t_credits st)
                (remaining st ++ [t]).

Definition parseCourseFromCells (cells : list string) : course :=
  let first := cell cells 0 in
  let hasSerial := test allDigits first in
  let offset := if hasSerial then 1 else 0 in
  if offset + 3 <=? List.length cells then
    let serial := if hasSerial then Some (trim first) else None in
    let code := orNull (trim (cell cells offset)) in
    let title := orNull (trim (cell cells (offset + 1))) in
    let creditCell := trim (cell cells (offset + 2)) in
    let credits := option_map CreditsText (orNull creditCell) in
    let prerequisite :=
      if offset + 5 <=? List.length cells
      then orNull (trim (cell cells (offset + 4)))
      else None in
    mkCourse serial code title credits prerequisite
  else
    let st := fold_left scanToken cells (mkTokens None None None []) in
    let title := trim (join " - " (remaining st)) in
    mkCourse (t_serial st) (t_code st) (orNull title)
             (if truthy_opt (t_credits st)
              then option_map CreditsNumber (t_credits st)
              else None)
             None.

(** [s.replace(needle, '')] for a string [needle]: the first
    occurrence is removed. *)
Fixpoint removeFirst (needle s : string) : string :=
  if String.prefix needle s
  then String.substring (String.length needle)
                        (String.length s - String.length needle) s
  else match s with
       | EmptyString => EmptyString
       | String c s' => String c (removeFirst needle s')
       end.

(** [/^\s*(\d+)\s*[.)-]?\s*/] *)
Definition serialPrefix : re :=
  seq [Bol; star space; Grp (plus digit); star space; opt (one_of ".)-");
       star space].

(** [/[-–—]+/g] *)
Definition dashes : re :=
  plus (alt [chr "-"; lit Compare.en_dash; lit Compare.em_dash]).

Definition parseCourseFromLine (line : string) : course :=
  let s := trim line in
  let serialMatch := exec serialPrefix s in
  let serial := option_map capture serialMatch in
  let rest := match serialMatch with
              | Some m => of_chars (post m)
              | None => s
              end in
  let codeMatch := exec codeRegex rest in
  let code :=
    option_map
      (fun m => trim (replaceAll (plus space) (fun _ _ => " ")
                        (of_chars (matched m))))
      codeMatch in
  let rest := match codeMatch with
              | Some m => removeFirst (of_chars (matched m)) rest
              | None => rest
              end in
  let creditsMatch := exec creditsRegex rest in
  let credits :=
    option_map (fun m => CreditsNumber (capture m)) creditsMatch in
  let rest := match creditsMatch with
              | Some m => removeFirst (of_chars (matched m)) rest
              | None => rest
              end in
  let title :=
    trim (replaceAll (at_least 2 space) (fun _ _ => " ")
            (replaceAll dashes (fun _ _ => " ") rest)) in
  mkCourse serial code (orNull title) credits None.

(** [parsed.code || parsed.title] *)
Definition kept (parsed : course) : bool :=
  truthy_opt (code parsed) || truthy_opt (title parsed).

(** The [seen]/[deduped] loop: the first course of each
    [code||title] key. *)
Definition dedupKey (c : course) : string :=
  (orEmpty (code c) ++ "||" ++ orEmpty (title c))%string.

Definition dedupe (courses : list course) : list course :=
  snd (fold_left
         (fun acc c =>
            let '(seen, deduped) := acc in
            let key := dedupKey c in
            if negb (mem key seen) then (seen ++ [key], deduped ++ [c])
            else acc)
         courses ([], [])).

Definition push (courses : list course) (parsed : course) : list course :=
  if kept parsed then courses ++ [parsed] else courses.

Definition cellTexts (tr : Dom.node) : list string :=
  map (fun td => trim (Dom.text td)) (Dom.find ["th"; "td"] tr).

(** ** Method 1: explicit semester headings *)

Definition headingTags : list string := ["h1"; "h2"; "h3"; "h4"; "h5"; "h6"].

Definition isSemesterHeading (n : Dom.node) : bool :=
  Dom.hasTag headingTags n && test semesterRe (Dom.text n).

(** The courses one sibling of a heading contributes. *)
Definition siblingCourses (courses : list course) (sib : Dom.node)
  : list course :=
  let courses :=
    if Dom.hasTag ["table"] sib then
      fold_left
        (fun courses tr =>
           let cols := filter truthy (cellTexts tr) in
           if 2 <=? List.length cols
           then push courses (parseCourseFromCells cols)
           else courses)
        (Dom.find ["tr"] sib) courses
    else courses in
  let courses :=
    if Dom.hasTag ["ul"; "ol"] sib then
      fold_left
        (fun courses li =>
           push courses (parseCourseFromLine (trim (Dom.text li))))
        (Dom.find ["li"] sib) courses
    else courses in
  if Dom.hasTag ["p"; "div"] sib then
    let lines :=
      filter truthy
        (map trim (split (Alt (chr "010") (chr "013")) (Dom.text sib))) in
    fold_left
      (fun courses line =>
         if negb (test (plus digit) line) && negb (test codeRegex line)
         then courses
         else push courses (parseCourseFromLine line))
      lines courses
  else courses.

(** The walk over the siblings after a heading, up to the next
    semester heading. *)
Fixpoint walkSiblings (sibs : list Dom.node) (courses : list course)
  : list course :=
  match sibs with
  | [] => courses
  | sib :: sibs' =>
      if isSemesterHeading sib then courses
      else walkSiblings sibs' (siblingCourses courses sib)
  end.

Definition fromHeadings (doc : Dom.node) : list semester :=
  map (fun hs =>
         let '(h, sibs) := hs in
         mkSemester (trim (Dom.text h)) (dedupe (walkSiblings sibs [])))
      (Dom.withSiblings isSemesterHeading doc).

(** ** Method 2: tables with thead semester names *)

Definition bodyRowCourses (table : Dom.node) : list course :=
  fold_left
    (fun courses tr =>
       let serial :=
         trim (Dom.firstText (Dom.findWithAttr "th" "scope" "row" tr)) in
       let tds := map (fun td => trim (Dom.text td)) (Dom.find ["td"] tr) in
       let cells := (if truthy serial then [serial] else []) ++ tds in
       if 0 <? List.length cells
       then push courses (parseCourseFromCells cells)
       else courses)
    (Dom.findPath ["tbody"; "tr"] table) [].

Definition headText (table : Dom.node) : string :=
  trim (Dom.firstText (Dom.findPath ["thead"; "tr"; "th"] table)).

Definition fromHeaderTable (semesters : list semester) (table : Dom.node)
  : list semester :=
  if negb (test semesterRe (headText table)) then semesters
  else if existsb (fun s => String.eqb (name s) (headText table)) semesters
  then semesters
  else semesters ++
         [mkSemester (headText table) (dedupe (bodyRowCourses table))].

(** ** Method 3: every table that has a Total row *)

(** The state of the scan of one table: [courses], [hasTotal]. *)
Definition scanRow (acc : list course * bool) (tr : Dom.node)
  : list course * bool :=
  let '(courses, hasTotal) := acc in
  let cols := cellTexts tr in
  if List.length (filter truthy cols) =? 0 then acc
  else
    let rowText := toLowerCase (join " " cols) in
    if includes rowText "total" || includes rowText "grand total"
    then (courses, true)
    else
      let parsed := parseCourseFromCells cols in
      if kept parsed && negb (includes rowText "total")
      then (courses ++ [parsed], hasTotal)
      else acc.

Definition decimal (n : nat) : string :=
  NilEmpty.string_of_uint (Nat.to_uint n).

(** The state of the scan of the tables: [semesters],
    [semesterIndex]. *)
Definition fromAnyTable (acc : list semester * nat) (table : Dom.node)
  : list semester * nat :=
  let '(semesters, semesterIndex) := acc in
  let '(courses, hasTotal) :=
    fold_left scanRow (Dom.find ["tr"] table) ([], false) in
  if (0 <? List.length courses) && hasTotal
  then (semesters ++
          [mkSemester ("Semester-" ++ decimal semesterIndex)
                      (dedupe courses)],
        semesterIndex + 1)
  else acc.

Definition extractSemesters (doc : Dom.node) : list semester :=
  let semesters := fromHeadings doc in
  let semesters :=
    fold_left fromHeaderTable (Dom.find ["table"] doc) semesters in
  if List.length semesters =? 0
  then fst (fold_left fromAnyTable (Dom.find ["table"] doc)
                      (semesters, 1))
  else semesters.

End Scrape.

(* ================================================================== *)
(** * Vocabulary of the statements about the extraction *)

Module Extracted.
Import JSString Regex Scrape.

(** The serial offset of a row: 1 when the first cell is all digits. *)
Definition serialOffset (cells : list string) : nat :=
  if test allDigits (cell cells 0) then 1 else 0.

(** The field read from the cell of index [i]: the trimmed text of the
    cell, or [null] when the cell is absent or blank. *)
Definition field (cells : list string) (i : nat) : option string :=
  match nth_error cells i with
  | Some c => orNull (trim c)
  | None => None
  end.

(** The term method 2 makes of a table. *)
Definition headerTerm (table : Dom.node) : semester :=
  mkSemester (headText table) (dedupe (bodyRowCourses table)).

Definition hasSemesterHeader (table : Dom.node) : bool :=
  test semesterRe (headText table).

(** The tables method 2 keeps, given the names already in the catalog:
    those with a semester header whose name is not in the catalog yet,
    each kept table adding its name to the catalog. *)
Fixpoint selectTables (names : list string) (tables : list Dom.node)
  : list Dom.node :=
  match tables with
  | [] => []
  | t :: ts =>
      if hasSemesterHeader t && negb (mem (headText t) names)
      then t :: selectTables (names ++ [headText t]) ts
      else selectTables names ts
  end.

End Extracted.

(* ================================================================== *)
(** * Vocabulary of the statements about the reconciliation *)

Module Reconciliation.
Import JSString Catalog Compare.

(** The courses of a term that take part in the comparison, and their
    fingerprints, in the order of the term. *)
Definition compared (arr : list course) : list course :=
  filter (fun c => negb (isTotalCourse c)) arr.

Definition fingerprints (v : variant) (arr : list course) : list string :=
  map (fingerprint v) (compared arr).

(** The multiplicity of a fingerprint in a term. *)
Definition occurrences (v : variant) (k : string) (arr : list course)
  : nat :=
  count_occ string_dec (fingerprints v arr) k.

(** The first compared course of a term with a given fingerprint. *)
Definition firstWith (v : variant) (k : string) (arr : list course)
  : option course :=
  find (fun c => negb (isTotalCourse c) && String.eqb (fingerprint v c) k)
       arr.

(** The count a map holds for a key, [0] for an absent key. *)
Definition countOf (k : string) (m : countMap) : nat :=
  match JSMap.get k m with Some e => count e | None => 0 end.

(** The candidates and the count mismatches, read off the two maps. *)
Definition missingCandidates (fMap vMap : countMap) : list candidate :=
  filter (fun kv => negb (JSMap.has (fst kv) fMap)) vMap.

Definition extraCandidates (fMap vMap : countMap) : list candidate :=
  filter (fun kf => negb (JSMap.has (fst kf) vMap)) fMap.

Definition mismatchOf (fMap : countMap) (kv : string * entry)
  : list mismatch :=
  match JSMap.get (fst kv) fMap with
  | Some fEntry =>
      if count fEntry =? count (snd kv) then []
      else [mkMismatch (sample (snd kv)) (count fEntry) (count (snd kv))]
  | None => []
  end.

Definition countMismatchesOf (fMap vMap : countMap) : list mismatch :=
  flat_map (mismatchOf fMap) vMap.

(** The candidates of [l], numbered from [i], whose index is not in
    [paired], in the order of [l]. *)
Fixpoint unpaired (l : list candidate) (i : nat) (paired : list nat)
  : list candidate :=
  match l with
  | [] => []
  | c :: l' =>
      if setHas i paired then unpaired l' (S i) paired
      else c :: unpaired l' (S i) paired
  end.

(** A paired diff pairs the reference course [m] with the live course
    [e]. *)
Definition pairs (d : DiffEntry) (m e : course) : Prop :=
  d = CodeMismatch e m \/ d = PrerequisiteMismatch e m.

(** The paired diffs of a pairing state are in pairing order: the k-th
    one pairs the missing candidate of index [pairedMissing[k]] with the
    extra candidate of index [pairedExtra[k]], the indices of the missing
    candidates increase, and no extra candidate is used twice. *)
Inductive pairedInOrder (missingList extraList : list candidate)
  : list DiffEntry -> list nat -> list nat -> Prop :=
| pio_nil : pairedInOrder missingList extraList [] [] []
| pio_snoc ds pm pe d i j m e :
    pairedInOrder missingList extraList ds pm pe ->
    nth_error missingList i = Some m ->
    nth_error extraList j = Some e ->
    pairs d (sample (snd m)) (sample (snd e)) ->
    Forall (fun i' => i' < i) pm ->
    ~ In j pe ->
    pairedInOrder missingList extraList (ds ++ [d]) (pm ++ [i]) (pe ++ [j]).

(** The courses a diff carries. *)
Definition coursesOf (d : DiffEntry) : list course :=
  match d with
  | PrerequisiteMismatch f v => [f; v]
  | CodeMismatch f v => [f; v]
  | MissingInFetched _ c => [c]
  | ExtraInFetched _ c => [c]
  | CountMismatch cm => [course_of cm]
  end.

(** A diff is about a fingerprint when one of its courses has it. *)
Definition about (v : variant) (k : string) (d : DiffEntry) : bool :=
  existsb (fun c => String.eqb (fingerprint v c) k) (coursesOf d).

(** A candidate whose sample does not have the fingerprint [k]. *)
Definition notAbout (v : variant) (k : string) (c : candidate) : Prop :=
  fingerprint v (sample (snd c)) <> k.

(** A field is blank when it is absent or holds only whitespace. *)
Definition blank (x : option string) : Prop := trim (orEmpty x) = "".

(** The course codes found in a prerequisite text, in the order of the
    text, each with its inner whitespace replaced by a hyphen. *)
Definition extractedCodes (s : string) : list string :=
  map (Regex.replaceAll (Regex.plus Regex.space) (fun _ _ => "-"))
      (Regex.matchAll codePattern (toUpperCase (trim s))).

(** [normalizePrereq] as a set of codes would give it: every code once. *)
Definition normalizePrereqAsSet (p : option string) : string :=
  if negb (truthy_opt p) then ""
  else join "|" (sort (dedup (extractedCodes (orEmpty p)))).

(** The values of the [type] field the scripts write. *)
Definition writtenTypes : list string :=
  ["missing-in-fetched"; "extra-in-fetched"; "count-mismatch";
   "code-mismatch"; "prerequisite-mismatch"].

(** The values of the [type] field in the Report JSON of the
    specification. *)
Definition specifiedTypes : list string :=
  ["missing"; "extra"; "count-mismatch"; "code-mismatch";
   "prerequisite-mismatch"].

(** The order of [sort]: ascending code units. *)
Definition le (a b : string) : Prop := String.leb a b = true.

(** An element of the report counts its diffs and types them. *)
Definition wellFormed (r : Report.semester) : Prop :=
  Report.diffCount r = List.length (Report.diffs r) /\
  Forall (fun d => In (type d) writtenTypes) (Report.diffs r).

(** Every diff of every element of a report has its [type] in [types]. *)
Definition typesWithin (types : list string)
           (report : list Report.semester) : Prop :=
  Forall (fun r => Forall (fun d => In (type d) types) (Report.diffs r))
         report.

End Reconciliation.

(* ================================================================== *)
(** * Sample data *)

Module Samples.
Import Catalog.

Definition programming : course :=
  mkCourse (Some "1") (Some "CS101") (Some "Programming Fundamentals")
           (Some "3+1") None.

Definition calculus : course :=
  mkCourse (Some "2") (Some "MT100") (Some "Calculus I") (Some "3") None.

(** The same course as [programming] for the comparison, written
    otherwise. *)
Definition programmingAgain : course :=
  mkCourse (Some "7") (Some " cs101 ") (Some "Programming") (Some "3+1 ")
           None.

Definition total : course :=
  mkCourse None None (Some "Total") (Some "7") None.

(** A reference course and a live course with other codes, the same
    credits, and one title missing. *)
Definition untitled : course :=
  mkCourse (Some "3") (Some "HU100") None (Some "2") None.

Definition quantum : course :=
  mkCourse (Some "4") (Some "PH300") (Some "Quantum Field Theory")
           (Some "2") None.

(** A course with neither code nor title. *)
Definition creditsOnly : course :=
  mkCourse (Some "5") (Some "  ") (Some " ") (Some "3") (Some "CS 101").

(** A row of the curriculum table. *)
Definition row : list string :=
  ["1"; "CS101"; "Programming Fundamentals"; "3+1"; ""; ""].

Definition paddedRow : list string :=
  [" CS101"; "Programming Fundamentals "; " 3+1 "].

Definition td (s : string) : Dom.node := Dom.Elem "td" [] [Dom.Text s].

Definition tr (cells : list string) : Dom.node :=
  Dom.Elem "tr" [] (map td cells).

(** A table whose thead names a term. *)
Definition headedTable (head : string) (rows : list (list string))
  : Dom.node :=
  Dom.Elem "table" []
    [Dom.Elem "thead" []
       [Dom.Elem "tr" [] [Dom.Elem "th" [] [Dom.Text head]]];
     Dom.Elem "tbody" [] (map tr rows)].

Definition firstTable : Dom.node :=
  headedTable "Semester 1" [["CS101"; "Programming Fundamentals"; "3+1"]].

Definition secondTable : Dom.node :=
  headedTable "Semester 1" [["MT100"; "Calculus I"; "3"]].

(** A page with two tables headed "Semester 1" and no heading. *)
Definition twoTables : Dom.node :=
  Dom.Elem "html" [] [Dom.Elem "body" [] [firstTable; secondTable]].

End Samples.

(* ================================================================== *)
(** * The rest of main: the total and the exit status *)

Module Exit.
Import JSString Catalog Compare.

(** [totalDiffs]: [main] adds [diffs.length] to it at each element it
    pushes to the report. *)
Definition totalDiffs (report : list Report.semester) : nat :=
  fold_left (fun total r => total + Report.diffCount r) report 0.

(** [process.exit(totalDiffs === 0 ? 0 : 1)] *)
Definition exitStatus (v : variant) (scraped sheet : list semester) : nat :=
  if totalDiffs (main v scraped sheet) =? 0 then 0 else 1.

End Exit.

(* ================================================================== *)
(** * The sheet converter: makeCredits

    A cell of the sheet is absent ([undefined] or [null]) or has a value,
    carried as the text [String(value)]; the text of a number is never
    empty, so [value === ''] is the test for the empty text. *)

Module Sheet.
Import JSString.

Definition makeCredits (teaching labs : option string) : option string :=
  if negb (truthy_opt teaching) && negb (truthy_opt labs) then None
  else
    let t := match teaching with Some x => trim x | None => "" end in
    let l := match labs with Some x => trim x | None => "" end in
    if truthy t && truthy l then Some (t ++ "+" ++ l)%string
    else if truthy t then Some t
    else if truthy l then Some l
    else None.

End Sheet.

(* ================================================================== *)
(** * Vocabulary of the further statements *)

Module Coverage.
Import JSString Regex Catalog Compare Reconciliation.

(** The kinds of diff. *)
Definition isPaired (d : DiffEntry) : bool :=
  match d with
  | PrerequisiteMismatch _ _ | CodeMismatch _ _ => true
  | _ => false
  end.

Definition isMissing (d : DiffEntry) : bool :=
  match d with MissingInFetched _ _ => true | _ => false end.

Definition isExtra (d : DiffEntry) : bool :=
  match d with ExtraInFetched _ _ => true | _ => false end.

Definition isCountMismatch (d : DiffEntry) : bool :=
  match d with CountMismatch _ => true | _ => false end.

(** The key [buildSheetSemesterMap] files a group under. *)
Definition keyOf (sem : semester) : string :=
  if truthy (name sem) then name sem else "(unknown)".

(** The courses of the groups filed under [k], in the order of the
    sheet. *)
Definition groupCourses (k : string) (semesters : list semester)
  : list course :=
  flat_map courses (filter (fun sem => String.eqb (keyOf sem) k) semesters).

(** A course with every field absent. *)
Definition noCourse : Scrape.course :=
  Scrape.mkCourse None None None None None.

(** Every cell of a row is blank. *)
Definition blankRow (cells : list string) : Prop :=
  forall c, In c cells -> trim c = "".

(** A string has no whitespace at either end. *)
Definition trimmed (s : string) : Prop := trim s = s.

(** The names method 3 gives to [n] tables. *)
Definition numberedNames (n : nat) : list string :=
  map (fun i => ("Semester-" ++ Scrape.decimal i)%string) (List.seq 1 n).

(** The tables method 3 keeps: those with a course row and a Total
    row. *)
Definition qualifies (table : Dom.node) : bool :=
  let '(courses, hasTotal) :=
    fold_left Scrape.scanRow (Dom.find ["tr"] table) ([], false) in
  (0 <? List.length courses) && hasTotal.

Definition tableCourses (table : Dom.node) : list Scrape.course :=
  fst (fold_left Scrape.scanRow (Dom.find ["tr"] table) ([], false)).

End Coverage.

(* ================================================================== *)
(** * Further sample data *)

Module MoreSamples.
Import Catalog Samples.

(** A table with two course rows and a Total row, and no thead. *)
Definition plainTable : Dom.node :=
  Dom.Elem "table" []
    [Dom.Elem "tbody" []
       [tr ["1"; "CS101"; "Programming Fundamentals"; "3+1"];
        tr ["2"; "MT100"; "Calculus I"; "3"];
        tr ["Total"; "7"]]].

(** A table with a course row and no Total row. *)
Definition openTable : Dom.node :=
  Dom.Elem "table" []
    [Dom.Elem "tbody" [] [tr ["1"; "HU100"; "English"; "2"]]].

(** A page without semester headings and semester-headed tables. *)
Definition plainPage : Dom.node :=
  Dom.Elem "html" []
    [Dom.Elem "body" []
       [Dom.Elem "h1" [] [Dom.Text "Curriculum"];
        plainTable; openTable; plainTable]].

(** A catalog of two terms. *)
Definition catalog : list semester :=
  [mkSemester "Semester 1" [programming; calculus; total];
   mkSemester "Semester 2" [untitled]].

(** The siblings of a heading: a table, the next semester heading, and
    a table of the next term. *)
Definition nextHeading : Dom.node :=
  Dom.Elem "h3" [] [Dom.Text "Semester 2"].

(** A second live course with the credits of [untitled] and a title of
    its own. *)
Definition chemistry : course :=
  mkCourse (Some "5") (Some "CH200") (Some "Organic Chemistry")
           (Some "2") None.

End MoreSamples.

(* ================================================================== *)
(** * Term names, as the specification describes their keys

    The key of a term name is described by functions on the characters
    of the name, without regular expressions, to be compared with
    [normalizeSemKey]. *)

Module Names.
Import JSString Regex Compare.

(** The three bytes of an en dash or an em dash. *)
Definition is_dash (a b c : ascii) : bool :=
  Ascii.eqb (ascii_of_nat 226) a && Ascii.eqb (ascii_of_nat 128) b &&
  (Ascii.eqb (ascii_of_nat 147) c || Ascii.eqb (ascii_of_nat 148) c).

(** A space for each hyphen, en dash and em dash. *)
Fixpoint undash (l : list ascii) : list ascii :=
  match l with
  | [] => []
  | a :: l' =>
      if Ascii.eqb "-" a then " "%char :: undash l'
      else
        match l' with
        | b :: c :: l'' =>
            if is_dash a b c then " "%char :: undash l''
            else a :: undash l'
        | _ => a :: undash l'
        end
  end.

Definition is_punct (c : ascii) : bool :=
  existsb (Ascii.eqb c) (chars "(),.:").

(** A space for each of ( ) , . : *)
Definition unpunct (l : list ascii) : list ascii :=
  map (fun c => if is_punct c then " "%char else c) l.

(** One space for each run of whitespace; [after] tells that the
    character before is whitespace. *)
Fixpoint squeeze (after : bool) (l : list ascii) : list ascii :=
  match l with
  | [] => []
  | c :: l' =>
      if is_space c
      then if after then squeeze true l' else " "%char :: squeeze true l'
      else c :: squeeze false l'
  end.

(** The digit of a Roman numeral from I to V, written in either case. *)
Definition numeral (w : list ascii) : option ascii :=
  let s := toLowerCase (of_chars w) in
  if String.eqb s "i" then Some "1"%char
  else if String.eqb s "ii" then Some "2"%char
  else if String.eqb s "iii" then Some "3"%char
  else if String.eqb s "iv" then Some "4"%char
  else if String.eqb s "v" then Some "5"%char
  else None.

Definition digits (w : list ascii) : list ascii :=
  match numeral w with
  | Some d => [d]
  | None => w
  end.

(** A digit for each word that is a Roman numeral from I to V; a word
    is a longest run of letters, digits and underscores, and [word]
    holds the part of it read so far. *)
Fixpoint romanWords (word l : list ascii) : list ascii :=
  match l with
  | [] => digits word
  | c :: l' =>
      if is_word c then romanWords (word ++ [c]) l'
      else digits word ++ c :: romanWords [] l'
  end.

(** What is left of a text behind the prefix [pat]. *)
Fixpoint strip (pat l : list ascii) : option (list ascii) :=
  match pat with
  | [] => Some l
  | a :: pat' =>
      match l with
      | c :: l' => if Ascii.eqb a c then strip pat' l' else None
      | [] => None
      end
  end.

Definition starts (pat : string) (l : list ascii) : bool :=
  match strip (chars pat) l with
  | Some _ => true
  | None => false
  end.

(** A space between pre and medical where they are written as one
    word. *)
Fixpoint unify (l : list ascii) : list ascii :=
  match l with
  | [] => []
  | p :: l' =>
      match l' with
      | r :: e :: l'' =>
          if starts "pre" l && starts "medical" l''
          then p :: r :: e :: " "%char :: unify l''
          else p :: unify l'
      | _ => p :: unify l'
      end
  end.

(** The key of a term name, as the specification describes it: the
    name in lower case, a space for each of the marks - en dash, em dash
    ( ) , . : , one space for each run of whitespace and none at the
    ends, a digit for each Roman numeral from I to V that stands as a
    word, and pre medical in two words. *)
Definition specKey (name : string) : string :=
  let s := toLowerCase name in
  let s := of_chars (unpunct (undash (chars s))) in
  let s := trim (of_chars (squeeze false (chars s))) in
  let s := of_chars (romanWords [] (chars s)) in
  of_chars (unify (chars s)).

(** Names made of ASCII characters and of en and em dashes.  On these
    the case conversion, the whitespace and the word characters of
    JavaScript are those of the ASCII range, which the embedding
    has. *)
Definition is_ascii (c : ascii) : bool := char_code c <? 128.

Fixpoint plain (l : list ascii) : bool :=
  match l with
  | [] => true
  | a :: l' =>
      if is_ascii a then plain l'
      else
        match l' with
        | b :: c :: l'' => is_dash a b c && plain l''
        | _ => false
        end
  end.

Definition plainName (name : string) : Prop := plain (chars name) = true.

(** Texts made of ASCII characters. *)
Definition asciiText (s : string) : Prop :=
  forallb is_ascii (chars s) = true.

(** The marks [normalizeSemKey] replaces, and the separators of the
    words of a name: a mark or a whitespace character. *)
Definition marks : list string :=
  ["-"; en_dash; em_dash; "("; ")"; ","; "."; ":"].

Definition separator (s : string) : Prop :=
  In s marks \/ exists c, is_space c = true /\ s = String c "".

(** The text of a run of separators. *)
Definition gap (seps : list string) : string :=
  fold_right String.append "" seps.

End Names.

(* ================================================================== *)
(** * Reading a replacement on the characters

    What the proofs about [replaceAll] are stated with: the iteration
    of [Rep] and the text made of the matches of a scan, the regular
    expressions of [normalizeSemKey] by name, and the shape of the text
    between the steps of [normalizeSemKey]. *)

Module Scan.
Import JSString Regex Compare Names.

(** The iteration of [Rep], by itself. *)
Section Iterate.
Variables (r : re) (k : pos -> option pos).

Fixpoint iterate (fuel lo : nat) (hi : option nat) (st : pos) {struct fuel}
  : option pos :=
  let stop := if lo =? 0 then k st else None in
  match fuel with
  | 0 => stop
  | S fuel' =>
      let more :=
        match hi with
        | Some 0 => None
        | _ =>
            run r st (fun st1 =>
              if List.length (rest st1) <? List.length (rest st)
              then iterate fuel' (pred lo) (option_map pred hi) st1
              else None)
        end in
      match more with
      | Some x => Some x
      | None => stop
      end
  end.
End Iterate.

(** The text [replaceAll] makes of the matches of a scan. *)
Definition render (fn : string -> string -> string)
           (res : list found * list ascii) : string :=
  (String.concat ""
     (map (fun f =>
             (of_chars (pre f) ++
              fn (of_chars (matched f))
                 (of_chars (match group1 f with Some g => g | None => [] end))
             )%string)
          (fst res))
   ++ of_chars (snd res))%string.

(** The length of the run of [q] characters a text begins with, and the
    character before what follows the run. *)
Fixpoint eaten (q : ascii -> bool) (l : list ascii) : nat :=
  match l with
  | c :: l' => if q c then S (eaten q l') else 0
  | [] => 0
  end.

Fixpoint eatPrev (q : ascii -> bool) (p : option ascii) (l : list ascii)
  : option ascii :=
  match l with
  | c :: l' => if q c then eatPrev q (Some c) l' else p
  | [] => p
  end.

(** The longest run of [q] characters a text begins with. *)
Fixpoint takeWhile (q : ascii -> bool) (l : list ascii) : list ascii :=
  match l with
  | c :: l' => if q c then c :: takeWhile q l' else []
  | [] => []
  end.

(** [romanWords] behind the end of a word. *)
Definition romanTail (l : list ascii) : list ascii :=
  match l with
  | [] => []
  | c :: l' => c :: romanWords [] l'
  end.

(** The regular expressions of [normalizeSemKey] and their
    replacements, by name. *)
Definition dashes_re : re := alt [chr "-"; lit en_dash; lit em_dash].

Definition semester_re : re :=
  seq [WordB; lit_i "semester"; plus space; roman_group; WordB].

Definition to_semester (_ r : string) : string :=
  ("semester " ++ romanToInt r)%string.

Definition roman_re : re := seq [WordB; roman_group; WordB].

Definition to_roman (_ r : string) : string := romanToInt r.

Definition premedical_re : re :=
  seq [lit "pre"; star space; opt (chr "-"); star space; lit "medical"].

Definition to_premedical (_ _ : string) : string := "pre medical".

(** The letters i and v, in either case. *)
Definition isI (x : ascii) : bool :=
  Ascii.eqb (lower_char x) (lower_char "i").
Definition isV (x : ascii) : bool :=
  Ascii.eqb (lower_char x) (lower_char "v").

(** Characters behind the lower-casing, and behind the replacement of
    the hyphens. *)
Definition lowered (c : ascii) : bool := negb (is_upper c).
Definition unmarked (c : ascii) : bool :=
  negb (is_upper c) && negb (Ascii.eqb "-" c).

(** A text in lower case, without hyphens, with single spaces for
    whitespace: what the first steps of [normalizeSemKey] make. *)
Definition neat (c : ascii) : bool :=
  negb (is_upper c) && negb (Ascii.eqb "-" c) &&
  (negb (is_space c) || Ascii.eqb " " c).

Definition space_at (l : list ascii) : bool :=
  match l with
  | c :: _ => is_space c
  | [] => false
  end.

Fixpoint spaced (l : list ascii) : bool :=
  match l with
  | c :: l' => negb (is_space c && space_at l') && spaced l'
  | [] => true
  end.

Definition tidy (l : list ascii) : bool := forallb neat l && spaced l.

(** A character the first three steps keep as it is. *)
Definition solid (c : ascii) : bool :=
  negb (is_upper c) && negb (Ascii.eqb "-" c) &&
  negb (Ascii.eqb (ascii_of_nat 226) c) &&
  negb (is_punct c) && negb (is_space c).

(** The space a run of separators collapses to. *)
Definition gapSpace (seps : list string) : list ascii :=
  match seps with
  | [] => []
  | _ :: _ => [" "%char]
  end.

End Scan.

(* ================================================================== *)
(** * Facts about Maps *)

Module JSMapFacts.
Import JSMap.

Section WithValues.
Context {V : Type}.
Implicit Types (m : JSMap.t V) (k : string) (e : V).

Lemma get_set_same m k e : get k (set k e m) = Some e.
Proof.
  induction m as [|[k' e'] m IH]; simpl.
  - now rewrite String.eqb_refl.
  - destruct (String.eqb k k') eqn:E; simpl.
    + now rewrite String.eqb_refl.
    + now rewrite E.
Qed.

Lemma get_set_other m k k' e : k <> k' -> get k (set k' e m) = get k m.
Proof.
  intros Hne. induction m as [|[k0 e0] m IH]; simpl.
  - apply String.eqb_neq in Hne. now rewrite Hne.
  - destruct (String.eqb k' k0) eqn:E; simpl.
    + apply String.eqb_eq in E. subst k0.
      apply String.eqb_neq in Hne. now rewrite Hne.
    + now rewrite IH.
Qed.

Lemma get_In m k e : get k m = Some e -> In (k, e) m.
Proof.
  induction m as [|[k' e'] m IH]; simpl; [discriminate|].
  destruct (String.eqb k k') eqn:E.
  - apply String.eqb_eq in E. intros [= ->]. subst. now left.
  - intros H. right. now apply IH.
Qed.

Lemma get_None m k : get k m = None <-> ~ In k (keys m).
Proof.
  induction m as [|[k' e'] m IH]; simpl.
  - tauto.
  - destruct (String.eqb k k') eqn:E.
    + apply String.eqb_eq in E. subst. split; [discriminate|tauto].
    + apply String.eqb_neq in E. rewrite IH. split.
      * intros H [H'|H']; [congruence|tauto].
      * tauto.
Qed.

Lemma In_get m k e : NoDup (keys m) -> In (k, e) m -> get k m = Some e.
Proof.
  induction m as [|[k' e'] m IH]; simpl; [tauto|].
  intros Hnd [H|H].
  - injection H as -> ->. now rewrite String.eqb_refl.
  - inversion Hnd as [|? ? Hnotin Hnd']; subst.
    destruct (String.eqb k k') eqn:E.
    + apply String.eqb_eq in E. subst k'.
      exfalso. apply Hnotin. change k with (fst (k, e)).
      now apply in_map.
    + now apply IH.
Qed.

Lemma keys_set m k e :
  keys (set k e m) = if has k m then keys m else keys m ++ [k].
Proof.
  unfold has. induction m as [|[k' e'] m IH]; simpl; [reflexivity|].
  destruct (String.eqb k k') eqn:E; simpl.
  - apply String.eqb_eq in E. now subst.
  - rewrite IH. now destruct (get k m).
Qed.

Lemma NoDup_keys_set m k e : NoDup (keys m) -> NoDup (keys (set k e m)).
Proof.
  intros Hnd. rewrite keys_set. unfold has.
  destruct (get k m) eqn:E; [assumption|].
  apply get_None in E.
  apply NoDup_rev in Hnd. rewrite <- (rev_involutive (keys m ++ [k])).
  apply NoDup_rev. rewrite rev_app_distr. simpl.
  constructor; [|assumption]. now rewrite <- in_rev.
Qed.

Lemma has_true m k : has k m = true <-> In k (keys m).
Proof.
  unfold has. destruct (get k m) eqn:E.
  - split; [|reflexivity]. intros _.
    apply get_In in E. change k with (fst (k, v)). now apply in_map.
  - apply get_None in E. split; [discriminate|tauto].
Qed.

End WithValues.
End JSMapFacts.

(* ================================================================== *)
(** * Facts about the count maps *)

Module CountMapFacts.
Import JSString Catalog Compare Reconciliation JSMapFacts.

Section WithVariant.
Variable v : variant.

Lemma occurrences_cons_total k c arr :
  isTotalCourse c = true ->
  occurrences v k (c :: arr) = occurrences v k arr.
Proof.
  intros H. unfold occurrences, fingerprints, compared. simpl.
  now rewrite H.
Qed.

Lemma occurrences_cons_same c arr :
  isTotalCourse c = false ->
  occurrences v (fingerprint v c) (c :: arr)
  = S (occurrences v (fingerprint v c) arr).
Proof.
  intros H. unfold occurrences, fingerprints, compared. simpl.
  rewrite H. simpl.
  now destruct (string_dec (fingerprint v c) (fingerprint v c)).
Qed.

Lemma occurrences_cons_other k c arr :
  fingerprint v c <> k ->
  occurrences v k (c :: arr) = occurrences v k arr.
Proof.
  intros H. unfold occurrences, fingerprints, compared. simpl.
  destruct (isTotalCourse c); simpl; [reflexivity|].
  now destruct (string_dec (fingerprint v c) k).
Qed.

(** What the loop leaves under a key: the entry the map had, counted
    up, or a fresh entry sampled from the first course with that
    fingerprint. *)
Lemma get_fold arr : forall m0 k,
  JSMap.get k (fold_left (countCourse v) arr m0) =
  match JSMap.get k m0 with
  | Some e => Some (mkEntry (count e + occurrences v k arr) (sample e))
  | None =>
      option_map (fun c => mkEntry (occurrences v k arr) c)
                 (firstWith v k arr)
  end.
Proof.
  induction arr as [|c arr IH]; intros m0 k.
  - simpl. unfold occurrences. simpl. destruct (JSMap.get k m0) as [[n s]|].
    + simpl. now rewrite Nat.add_0_r.
    + reflexivity.
  - simpl fold_left. rewrite IH. unfold countCourse.
    destruct (isTotalCourse c) eqn:Htot.
    + rewrite (occurrences_cons_total k c arr Htot).
      unfold firstWith. simpl. now rewrite Htot.
    + cbv zeta. destruct (string_dec (fingerprint v c) k) as [Heq|Hne].
      * subst k. rewrite get_set_same. simpl.
        rewrite (occurrences_cons_same c arr Htot).
        destruct (JSMap.get (fingerprint v c) m0) as [e|]; simpl.
        -- f_equal. f_equal. lia.
        -- unfold firstWith. simpl. rewrite Htot, String.eqb_refl. simpl.
           reflexivity.
      * rewrite get_set_other by congruence.
        rewrite (occurrences_cons_other k c arr Hne).
        unfold firstWith. simpl.
        apply String.eqb_neq in Hne. rewrite Hne, andb_false_r.
        reflexivity.
Qed.

Lemma get_makeCountMap arr k :
  JSMap.get k (makeCountMap v arr) =
  option_map (fun c => mkEntry (occurrences v k arr) c) (firstWith v k arr).
Proof. unfold makeCountMap. rewrite get_fold. reflexivity. Qed.

Lemma NoDup_keys_fold arr : forall m0,
  NoDup (JSMap.keys m0) -> NoDup (JSMap.keys (fold_left (countCourse v) arr m0)).
Proof.
  induction arr as [|c arr IH]; intros m0 H; simpl; [assumption|].
  apply IH. unfold countCourse. destruct (isTotalCourse c); [assumption|].
  now apply NoDup_keys_set.
Qed.

Lemma NoDup_keys_makeCountMap arr : NoDup (JSMap.keys (makeCountMap v arr)).
Proof. apply NoDup_keys_fold. constructor. Qed.

Lemma firstWith_Some k arr c :
  firstWith v k arr = Some c ->
  In c arr /\ isTotalCourse c = false /\ fingerprint v c = k.
Proof.
  intros H. apply find_some in H. destruct H as [Hin H].
  apply andb_prop in H. destruct H as [H1 H2].
  apply negb_true_iff in H1. apply String.eqb_eq in H2. auto.
Qed.

Lemma firstWith_None k arr :
  firstWith v k arr = None <-> occurrences v k arr = 0.
Proof.
  unfold firstWith, occurrences, fingerprints, compared.
  induction arr as [|c arr IH]; simpl; [tauto|].
  destruct (isTotalCourse c); simpl; [exact IH|].
  destruct (string_dec (fingerprint v c) k) as [Heq|Hne].
  - subst. rewrite String.eqb_refl. split; discriminate.
  - apply String.eqb_neq in Hne. rewrite Hne. exact IH.
Qed.

Lemma occurrences_pos k arr c :
  firstWith v k arr = Some c -> 1 <= occurrences v k arr.
Proof.
  intros H. destruct (occurrences v k arr) eqn:E; [|lia].
  apply firstWith_None in E. congruence.
Qed.

(** The entries of a count map. *)
Lemma In_makeCountMap arr k e :
  In (k, e) (makeCountMap v arr) ->
  JSMap.get k (makeCountMap v arr) = Some e /\
  count e = occurrences v k arr /\ 1 <= count e /\
  firstWith v k arr = Some (sample e) /\
  fingerprint v (sample e) = k /\ isTotalCourse (sample e) = false.
Proof.
  intros Hin.
  assert (Hget : JSMap.get k (makeCountMap v arr) = Some e)
    by (apply In_get; [apply NoDup_keys_makeCountMap|assumption]).
  split; [assumption|].
  rewrite get_makeCountMap in Hget.
  destruct (firstWith v k arr) as [c|] eqn:Hf; [|discriminate].
  simpl in Hget. injection Hget as <-. simpl.
  pose proof (occurrences_pos _ _ _ Hf).
  apply firstWith_Some in Hf. tauto.
Qed.

Lemma has_makeCountMap arr k :
  JSMap.has k (makeCountMap v arr) = negb (occurrences v k arr =? 0).
Proof.
  unfold JSMap.has. rewrite get_makeCountMap.
  destruct (firstWith v k arr) eqn:Hf; simpl.
  - apply occurrences_pos in Hf.
    destruct (occurrences v k arr); [lia|reflexivity].
  - apply firstWith_None in Hf. now rewrite Hf.
Qed.

Lemma countOf_makeCountMap arr k :
  countOf k (makeCountMap v arr) = occurrences v k arr.
Proof.
  unfold countOf. rewrite get_makeCountMap.
  destruct (firstWith v k arr) eqn:Hf; simpl; [reflexivity|].
  apply firstWith_None in Hf. now rewrite Hf.
Qed.

End WithVariant.
End CountMapFacts.

(* ================================================================== *)
(** * Facts about the loops of compareSemesters *)

Module LoopFacts.
Import JSString Catalog Compare Reconciliation JSMapFacts.

Lemma scanValid_from fMap vMap : forall missingList countMismatches,
  fold_left
    (fun acc kv =>
       let '(missingList, countMismatches) := acc in
       let '(k, vEntry) := kv in
       match JSMap.get k fMap with
       | None => (missingList ++ [(k, vEntry)], countMismatches)
       | Some fEntry =>
           if negb (count fEntry =? count vEntry)
           then (missingList,
                 countMismatches ++
                   [mkMismatch (sample vEntry) (count fEntry)
                               (count vEntry)])
           else (missingList, countMismatches)
       end)
    vMap (missingList, countMismatches)
  = (missingList ++ missingCandidates fMap vMap,
     countMismatches ++ countMismatchesOf fMap vMap).
Proof.
  induction vMap as [|[k vEntry] vMap IH]; intros ml cms; simpl.
  - now rewrite !app_nil_r.
  - unfold mismatchOf, JSMap.has. simpl.
    destruct (JSMap.get k fMap) as [fEntry|]; simpl.
    + destruct (count fEntry =? count vEntry); simpl; rewrite IH.
      * reflexivity.
      * now rewrite <- app_assoc.
    + rewrite IH. now rewrite <- app_assoc.
Qed.

Lemma scanValid_eq fMap vMap :
  scanValid fMap vMap
  = (missingCandidates fMap vMap, countMismatchesOf fMap vMap).
Proof. unfold scanValid. now rewrite scanValid_from. Qed.

Lemma scanFetched_from fMap vMap : forall extraList,
  fold_left
    (fun extraList kf =>
       let '(k, fEntry) := kf in
       if negb (JSMap.has k vMap) then extraList ++ [(k, fEntry)]
       else extraList)
    fMap extraList
  = extraList ++ extraCandidates fMap vMap.
Proof.
  unfold extraCandidates.
  induction fMap as [|[k fEntry] fMap IH]; intros el; simpl.
  - now rewrite app_nil_r.
  - destruct (JSMap.has k vMap); simpl; rewrite IH.
    + reflexivity.
    + now rewrite <- app_assoc.
Qed.

Lemma scanFetched_eq fMap vMap :
  scanFetched fMap vMap = extraCandidates fMap vMap.
Proof. unfold scanFetched. now rewrite scanFetched_from. Qed.

Lemma pushRemaining_eq mk l : forall i paired ds,
  pushRemaining mk l i paired ds = ds ++ map mk (unpaired l i paired).
Proof.
  induction l as [|c l IH]; intros i paired ds; simpl.
  - now rewrite app_nil_r.
  - destruct (setHas i paired); rewrite IH; simpl.
    + reflexivity.
    + now rewrite <- app_assoc.
Qed.

Lemma pushCountMismatches_eq cms : forall ds,
  fold_left (fun diffs cm => diffs ++ [CountMismatch cm]) cms ds
  = ds ++ map CountMismatch cms.
Proof.
  induction cms as [|cm cms IH]; intros ds; simpl.
  - now rewrite app_nil_r.
  - rewrite IH. now rewrite <- app_assoc.
Qed.

Lemma paired_true j s : setHas j s = true <-> In j s.
Proof.
  unfold setHas. rewrite existsb_exists. split.
  - intros [x [Hin Heq]]. apply Nat.eqb_eq in Heq. now subst.
  - intros H. exists j. split; [assumption|apply Nat.eqb_refl].
Qed.

Lemma paired_false j s : setHas j s = false <-> ~ In j s.
Proof.
  rewrite <- paired_true. destruct (setHas j s); split; congruence.
Qed.

Lemma pairTest_pairs v m e d : pairTest v m e = Some d -> pairs d m e.
Proof.
  unfold pairTest, pairs.
  destruct (negb _); [discriminate|].
  destruct v; cbv zeta.
  - destruct (_ && _).
    + intros [= <-]. now right.
    + destruct (similarTitles _ _); [|discriminate].
      intros [= <-]. now left.
  - destruct (similarTitles _ _); [|discriminate].
    intros [= <-]. now left.
Qed.

(** What the inner loop breaks on: the first extra candidate that is
    not paired yet and passes the pair test. *)
Lemma scanExtra_Some v m pe es : forall j0 j d,
  scanExtra v m es j0 pe = Some (j, d) ->
  exists e, j0 <= j /\ nth_error es (j - j0) = Some e /\ ~ In j pe /\
            pairTest v (sample (snd m)) (sample (snd e)) = Some d.
Proof.
  induction es as [|e es IH]; intros j0 j d; simpl; [discriminate|].
  destruct (setHas j0 pe) eqn:Hhas.
  - intros H. apply IH in H. destruct H as [e' [Hle [Hnth H]]].
    exists e'. split; [lia|]. split; [|assumption].
    replace (j - j0) with (S (j - S j0)) by lia. assumption.
  - destruct (pairTest v (sample (snd m)) (sample (snd e))) as [d'|] eqn:Hp.
    + intros [= <- <-]. exists e. rewrite Nat.sub_diag. simpl.
      apply paired_false in Hhas. auto.
    + intros H. apply IH in H. destruct H as [e' [Hle [Hnth H]]].
      exists e'. split; [lia|]. split; [|assumption].
      replace (j - j0) with (S (j - S j0)) by lia. assumption.
Qed.

(** When the inner loop runs to its end, every extra candidate is
    paired already or fails the pair test. *)
Lemma scanExtra_None v m pe es : forall j0,
  scanExtra v m es j0 pe = None ->
  forall n e, nth_error es n = Some e ->
    In (j0 + n) pe \/
    pairTest v (sample (snd m)) (sample (snd e)) = None.
Proof.
  induction es as [|e es IH]; intros j0 H n e' Hnth.
  - now destruct n.
  - simpl in H. destruct n as [|n]; simpl in Hnth.
    + injection Hnth as <-. rewrite Nat.add_0_r.
      destruct (setHas j0 pe) eqn:Hhas.
      * left. now apply paired_true.
      * right. now destruct (pairTest v _ _).
    + replace (j0 + S n) with (S j0 + n) by lia.
      apply IH; [|assumption].
      destruct (setHas j0 pe); [assumption|].
      now destruct (pairTest v _ _).
Qed.

Lemma pairedInOrder_lengths ml el ds pm pe :
  pairedInOrder ml el ds pm pe ->
  List.length ds = List.length pm /\ List.length ds = List.length pe.
Proof.
  induction 1; simpl; [auto|].
  rewrite !length_app. simpl. lia.
Qed.

(** The outer loop keeps the paired diffs in pairing order. *)
Lemma pairLoop_inv v missingList extraList ms : forall before st,
  missingList = before ++ ms ->
  pairedInOrder missingList extraList
                (diffs st) (pairedMissing st) (pairedExtra st) ->
  Forall (fun i' => i' < List.length before) (pairedMissing st) ->
  let st' := pairLoop v ms (List.length before) extraList st in
  pairedInOrder missingList extraList
                (diffs st') (pairedMissing st') (pairedExtra st').
Proof.
  induction ms as [|m ms IH]; intros before st Heq Hinv Hlt; simpl.
  - assumption.
  - assert (Heq' : missingList = (before ++ [m]) ++ ms)
      by (now rewrite <- app_assoc).
    assert (Hlen : List.length (before ++ [m]) = S (List.length before))
      by (rewrite length_app; simpl; lia).
    specialize (IH (before ++ [m])). rewrite Hlen in IH.
    destruct (scanExtra v m extraList 0 (pairedExtra st))
      as [[j d]|] eqn:Hscan.
    + apply IH; simpl; try assumption.
      * apply scanExtra_Some in Hscan.
        destruct Hscan as [e [_ [Hnth [Hnotin Hp]]]].
        rewrite Nat.sub_0_r in Hnth.
        apply pio_snoc with (m := m) (e := e); try assumption.
        -- rewrite Heq. rewrite nth_error_app2 by lia.
           now rewrite Nat.sub_diag.
        -- now apply pairTest_pairs with (v := v).
      * apply Forall_app. split.
        -- eapply Forall_impl; [|exact Hlt]. simpl. intros; lia.
        -- constructor; [lia|constructor].
    + apply IH; try assumption.
      eapply Forall_impl; [|exact Hlt]. simpl. intros; lia.
Qed.

Lemma pairLoop_pairedInOrder v missingList extraList :
  let st := pairLoop v missingList 0 extraList (mkPairing [] [] []) in
  pairedInOrder missingList extraList
                (diffs st) (pairedMissing st) (pairedExtra st).
Proof.
  apply (pairLoop_inv v missingList extraList missingList [] (mkPairing [] [] [])).
  - reflexivity.
  - constructor.
  - constructor.
Qed.

(** The shape of the result of [compareSemesters]. *)
Lemma compareSemesters_eq v fetchedSem validSem :
  let fMap := makeCountMap v (courses fetchedSem) in
  let vMap := makeCountMap v (courses validSem) in
  let missingList := missingCandidates fMap vMap in
  let extraList := extraCandidates fMap vMap in
  let st := pairLoop v missingList 0 extraList (mkPairing [] [] []) in
  compareSemesters v fetchedSem validSem
  = diffs st
    ++ map missingDiff (unpaired missingList 0 (pairedMissing st))
    ++ map extraDiff (unpaired extraList 0 (pairedExtra st))
    ++ map CountMismatch (countMismatchesOf fMap vMap).
Proof.
  intros. unfold compareSemesters.
  rewrite scanValid_eq, scanFetched_eq.
  rewrite pushCountMismatches_eq, !pushRemaining_eq.
  now rewrite <- !app_assoc.
Qed.

End LoopFacts.

(* ================================================================== *)
(** * The reconciliation engine *)

Module ReconciliationFacts.
Import JSString Catalog Compare Reconciliation.
Import JSMapFacts CountMapFacts LoopFacts.

Lemma filter_none {A} (f : A -> bool) l :
  (forall x, In x l -> f x = false) -> filter f l = [].
Proof.
  induction l as [|x l IH]; intros H; simpl; [reflexivity|].
  rewrite (H x) by now left. apply IH. intros y Hy. apply H. now right.
Qed.

Lemma flat_map_none {A B} (f : A -> list B) l :
  (forall x, In x l -> f x = []) -> flat_map f l = [].
Proof.
  induction l as [|x l IH]; intros H; simpl; [reflexivity|].
  rewrite (H x) by now left. apply IH. intros y Hy. apply H. now right.
Qed.

(** C1. Multiset symmetry: when the compared courses of the live term
    and of the reference term have the same fingerprints with the same
    multiplicities, in any order, [compareSemesters] returns no diff, in
    both scripts. *)
Theorem multiset_symmetry v fetchedSem validSem :
  Permutation (fingerprints v (courses fetchedSem))
              (fingerprints v (courses validSem)) ->
  compareSemesters v fetchedSem validSem = [].
Proof.
  intros Hperm.
  assert (Hocc : forall k, occurrences v k (courses fetchedSem)
                           = occurrences v k (courses validSem))
    by (intros k; unfold occurrences; now apply Permutation_count_occ).
  rewrite compareSemesters_eq.
  assert (Hm : missingCandidates (makeCountMap v (courses fetchedSem))
                                 (makeCountMap v (courses validSem)) = []).
  { apply filter_none. intros [k e] Hin. simpl.
    apply In_makeCountMap in Hin. destruct Hin as [_ [Hc [Hpos _]]].
    rewrite has_makeCountMap, Hocc, <- Hc.
    destruct (count e); [lia|reflexivity]. }
  assert (He : extraCandidates (makeCountMap v (courses fetchedSem))
                               (makeCountMap v (courses validSem)) = []).
  { apply filter_none. intros [k e] Hin. simpl.
    apply In_makeCountMap in Hin. destruct Hin as [_ [Hc [Hpos _]]].
    rewrite has_makeCountMap, <- Hocc, <- Hc.
    destruct (count e); [lia|reflexivity]. }
  assert (Hc : countMismatchesOf (makeCountMap v (courses fetchedSem))
                                 (makeCountMap v (courses validSem)) = []).
  { apply flat_map_none. intros [k e] Hin. unfold mismatchOf. simpl.
    apply In_makeCountMap in Hin. destruct Hin as [_ [Hc [Hpos _]]].
    rewrite get_makeCountMap.
    destruct (firstWith v k (courses fetchedSem)); simpl; [|reflexivity].
    rewrite Hocc, <- Hc. now rewrite Nat.eqb_refl. }
  rewrite Hm, He, Hc. reflexivity.
Qed.

(** C2. Output ordering: the result of [compareSemesters] is the paired
    diffs (code-mismatch and prerequisite-mismatch entries) in pairing
    order, then the missing entries of the unpaired missing candidates
    in the order of the reference map, then the extra entries of the
    unpaired extra candidates in the order of the live map, then the
    count-mismatch entries. *)
Theorem output_ordering v fetchedSem validSem :
  let fMap := makeCountMap v (courses fetchedSem) in
  let vMap := makeCountMap v (courses validSem) in
  let missingList := missingCandidates fMap vMap in
  let extraList := extraCandidates fMap vMap in
  exists paired pairedMissing pairedExtra,
    compareSemesters v fetchedSem validSem
    = paired
      ++ map missingDiff (unpaired missingList 0 pairedMissing)
      ++ map extraDiff (unpaired extraList 0 pairedExtra)
      ++ map CountMismatch (countMismatchesOf fMap vMap)
    /\ pairedInOrder missingList extraList paired pairedMissing pairedExtra.
Proof.
  intros.
  pose (st := pairLoop v missingList 0 extraList (mkPairing [] [] [])).
  exists (diffs st), (Compare.pairedMissing st), (Compare.pairedExtra st).
  split.
  - apply compareSemesters_eq.
  - apply pairLoop_pairedInOrder.
Qed.

Lemma unpaired_In l : forall i paired c,
  In c (unpaired l i paired) -> In c l.
Proof.
  induction l as [|x l IH]; intros i paired c; simpl; [tauto|].
  destruct (setHas i paired); simpl.
  - intros H. right. now apply IH in H.
  - intros [H|H]; [now left|]. right. now apply IH in H.
Qed.

Section AboutAFingerprint.
Variables (v : variant) (k : string).

Lemma about_pair d m e :
  pairs d (sample (snd m)) (sample (snd e)) ->
  notAbout v k m -> notAbout v k e ->
  about v k d = false.
Proof.
  unfold notAbout. intros [-> | ->] Hm He; unfold about; simpl;
    apply String.eqb_neq in Hm, He; now rewrite Hm, He.
Qed.

Lemma about_paired ml el ds pm pe :
  pairedInOrder ml el ds pm pe ->
  Forall (notAbout v k) ml -> Forall (notAbout v k) el ->
  filter (about v k) ds = [].
Proof.
  intros H Hml Hel. induction H as [|ds pm pe d i j m e _ IH Hm He Hp _ _].
  - reflexivity.
  - rewrite filter_app, IH. simpl.
    rewrite (about_pair d m e Hp).
    + reflexivity.
    + rewrite Forall_forall in Hml. apply Hml.
      now apply nth_error_In with (n := i).
    + rewrite Forall_forall in Hel. apply Hel.
      now apply nth_error_In with (n := j).
Qed.

Lemma about_remaining (mk : candidate -> DiffEntry) l paired :
  (forall c, coursesOf (mk c) = [sample (snd c)]) ->
  Forall (notAbout v k) l ->
  filter (about v k) (map mk (unpaired l 0 paired)) = [].
Proof.
  intros Hmk Hl. apply filter_none. intros d Hd.
  apply in_map_iff in Hd. destruct Hd as [c [<- Hc]].
  apply unpaired_In in Hc. rewrite Forall_forall in Hl.
  apply Hl in Hc. unfold notAbout in Hc. unfold about. rewrite Hmk. simpl.
  apply String.eqb_neq in Hc. now rewrite Hc.
Qed.

(** Among the count mismatches, the ones about [k] come from the entry
    of the reference map under [k]. *)
Lemma about_countMismatches fMap (m : countMap) :
  NoDup (JSMap.keys m) ->
  (forall k' e, In (k', e) m -> fingerprint v (sample e) = k') ->
  filter (about v k) (map CountMismatch (flat_map (mismatchOf fMap) m))
  = match JSMap.get k m with
    | Some e => map CountMismatch (mismatchOf fMap (k, e))
    | None => []
    end.
Proof.
  induction m as [|[k' e'] m IH]; intros Hnd Hfp; simpl; [reflexivity|].
  inversion Hnd as [|? ? Hnotin Hnd']; subst.
  rewrite map_app, filter_app.
  rewrite IH; [|assumption|intros; apply Hfp; now right].
  destruct (String.eqb k k') eqn:E.
  - apply String.eqb_eq in E. subst k'.
    assert (Hk' : fingerprint v (sample e') = k) by (apply Hfp; now left).
    apply get_None in Hnotin. rewrite Hnotin, app_nil_r.
    unfold mismatchOf. simpl.
    destruct (JSMap.get k fMap) as [fE|]; [|reflexivity].
    destruct (count fE =? count e'); [reflexivity|]. simpl.
    unfold about. simpl. now rewrite Hk', String.eqb_refl.
  - assert (Hk' : fingerprint v (sample e') = k') by (apply Hfp; now left).
    replace (filter (about v k) (map CountMismatch (mismatchOf fMap (k', e'))))
      with (@nil DiffEntry); [reflexivity|].
    unfold mismatchOf. simpl.
    destruct (JSMap.get k' fMap) as [fE|]; [|reflexivity].
    destruct (count fE =? count e'); [reflexivity|]. simpl.
    unfold about. simpl. rewrite Hk', String.eqb_sym, E. reflexivity.
Qed.

End AboutAFingerprint.

Lemma missingCandidates_other v k fetched valid :
  1 <= occurrences v k fetched ->
  Forall (fun c => fingerprint v (sample (snd c)) <> k)
         (missingCandidates (makeCountMap v fetched) (makeCountMap v valid)).
Proof.
  intros Hocc. apply Forall_forall. intros [k' e] Hin.
  apply filter_In in Hin. destruct Hin as [Hin Hhas]. simpl in *.
  apply In_makeCountMap in Hin. destruct Hin as [_ [_ [_ [_ [Hfp _]]]]].
  rewrite Hfp. intros ->. rewrite has_makeCountMap in Hhas.
  destruct (occurrences v k fetched); [lia|discriminate].
Qed.

Lemma extraCandidates_other v k fetched valid :
  1 <= occurrences v k valid ->
  Forall (fun c => fingerprint v (sample (snd c)) <> k)
         (extraCandidates (makeCountMap v fetched) (makeCountMap v valid)).
Proof.
  intros Hocc. apply Forall_forall. intros [k' e] Hin.
  apply filter_In in Hin. destruct Hin as [Hin Hhas]. simpl in *.
  apply In_makeCountMap in Hin. destruct Hin as [_ [_ [_ [_ [Hfp _]]]]].
  rewrite Hfp. intros ->. rewrite has_makeCountMap in Hhas.
  destruct (occurrences v k valid); [lia|discriminate].
Qed.

Lemma candidate_key_sample v fetched valid c :
  In c (missingCandidates (makeCountMap v fetched) (makeCountMap v valid))
  \/ In c (extraCandidates (makeCountMap v fetched) (makeCountMap v valid)) ->
  fingerprint v (sample (snd c)) = fst c.
Proof.
  destruct c as [k e].
  intros [H|H]; apply filter_In in H; destruct H as [H _];
    apply In_makeCountMap in H; simpl; tauto.
Qed.

(** C3. Count sensitivity: when a fingerprint occurs twice among the
    compared courses of the reference term and once among those of the
    live term, exactly one diff of [compareSemesters] is about that
    fingerprint: a count-mismatch carrying the first reference course
    with that fingerprint, [fetchedCount = 1] and [validCount = 2]; the
    fingerprint is the key of no missing and of no extra candidate, so
    no missing, extra or paired diff is about it. *)
Theorem count_sensitivity v fetchedSem validSem k :
  occurrences v k (courses fetchedSem) = 1 ->
  occurrences v k (courses validSem) = 2 ->
  let fMap := makeCountMap v (courses fetchedSem) in
  let vMap := makeCountMap v (courses validSem) in
  exists x,
    firstWith v k (courses validSem) = Some x /\
    filter (about v k) (compareSemesters v fetchedSem validSem)
    = [CountMismatch (mkMismatch x 1 2)] /\
    ~ In k (JSMap.keys (missingCandidates fMap vMap)) /\
    ~ In k (JSMap.keys (extraCandidates fMap vMap)).
Proof.
  intros Hf Hv fMap vMap.
  destruct (firstWith v k (courses validSem)) as [x|] eqn:Hx;
    [|apply firstWith_None in Hx; lia].
  destruct (firstWith v k (courses fetchedSem)) as [y|] eqn:Hy;
    [|apply firstWith_None in Hy; lia].
  assert (Hml := missingCandidates_other v k (courses fetchedSem)
                   (courses validSem) ltac:(lia)).
  assert (Hel := extraCandidates_other v k (courses fetchedSem)
                   (courses validSem) ltac:(lia)).
  exists x. split; [reflexivity|]. split; [|split].
  - rewrite compareSemesters_eq. rewrite !filter_app.
    rewrite (about_paired v k _ _ _ _ _
               (pairLoop_pairedInOrder v _ _) Hml Hel).
    rewrite (about_remaining v k missingDiff _ _ (fun _ => eq_refl) Hml).
    rewrite (about_remaining v k extraDiff _ _ (fun _ => eq_refl) Hel).
    simpl. unfold countMismatchesOf. rewrite about_countMismatches.
    + rewrite get_makeCountMap, Hx. simpl.
      unfold mismatchOf. simpl. rewrite get_makeCountMap, Hy. simpl.
      now rewrite Hf, Hv.
    + apply NoDup_keys_makeCountMap.
    + intros k' e Hin. apply In_makeCountMap in Hin. tauto.
  - intros Hin. apply in_map_iff in Hin. destruct Hin as [c [Hk Hc]].
    rewrite Forall_forall in Hml. apply (Hml c Hc).
    rewrite <- Hk. apply candidate_key_sample with (fetched := courses fetchedSem)
      (valid := courses validSem). now left.
  - intros Hin. apply in_map_iff in Hin. destruct Hin as [c [Hk Hc]].
    rewrite Forall_forall in Hel. apply (Hel c Hc).
    rewrite <- Hk. apply candidate_key_sample with (fetched := courses fetchedSem)
      (valid := courses validSem). now right.
Qed.

End ReconciliationFacts.

(* ================================================================== *)
(** * Facts about strings *)

Module StringFacts.
Import JSString.

Lemma dropWhile_nil p l :
  dropWhile p l = [] -> forall c, In c l -> p c = true.
Proof.
  induction l as [|x l IH]; simpl; [tauto|].
  destruct (p x) eqn:E; [|discriminate].
  intros H c [<-|Hc]; auto.
Qed.

Lemma dropWhile_head p l c l' : dropWhile p l = c :: l' -> p c = false.
Proof.
  induction l as [|x l IH]; simpl; [discriminate|].
  destruct (p x) eqn:E; [assumption|].
  now intros [= <- _].
Qed.

Lemma of_chars_nil l : of_chars l = "" -> l = [].
Proof. destruct l; [reflexivity|discriminate]. Qed.

(** A string that trims to the empty string holds only whitespace. *)
Lemma trim_empty s :
  trim s = "" -> forall c, In c (chars s) -> is_space c = true.
Proof.
  unfold trim. intros H. apply of_chars_nil in H.
  assert (H' : dropWhile is_space (rev (dropWhile is_space (chars s))) = []).
  { rewrite <- (rev_involutive (dropWhile _ (rev _))). now rewrite H. }
  destruct (dropWhile is_space (chars s)) as [|x l] eqn:E.
  - now apply dropWhile_nil.
  - pose proof (dropWhile_head _ _ _ _ E) as Hx.
    pose proof (dropWhile_nil _ _ H' x) as Hx'.
    rewrite Hx' in Hx; [discriminate|].
    rewrite <- in_rev. now left.
Qed.

Lemma space_code c : is_space c = true -> char_code c <= 32.
Proof.
  unfold is_space, in_range. intros H.
  apply orb_prop in H. destruct H as [H|H].
  - apply andb_prop in H. destruct H as [_ H].
    apply Nat.leb_le in H. lia.
  - apply Nat.eqb_eq in H. lia.
Qed.

Lemma space_lower c : is_space c = true -> lower_char c = c.
Proof.
  intros H. apply space_code in H. unfold lower_char, is_upper, in_range.
  destruct (65 <=? char_code c) eqn:E; [|reflexivity].
  apply Nat.leb_le in E. lia.
Qed.

Lemma includes_cons c s n :
  includes (String c s) n = String.prefix n (String c s) || includes s n.
Proof. reflexivity. Qed.

Lemma prefix_cons a n c s :
  String.prefix (String a n) (String c s)
  = if ascii_dec a c then String.prefix n s else false.
Proof. reflexivity. Qed.

(** Whitespace does not contain the word "total". *)
Lemma includes_total_spaces s :
  (forall c, In c (chars s) -> is_space c = true) ->
  includes (toLowerCase s) "total" = false.
Proof.
  induction s as [|c s IH]; intros H; [reflexivity|].
  change (toLowerCase (String c s))
    with (String (lower_char c) (toLowerCase s)).
  rewrite includes_cons, IH by (intros x Hx; apply H; now right).
  assert (Hc : is_space c = true) by (apply H; now left).
  rewrite (space_lower c Hc), prefix_cons.
  destruct (ascii_dec "t" c) as [<-|_]; [discriminate|reflexivity].
Qed.

Lemma lower_upper_char c : lower_char (upper_char c) = lower_char c.
Proof.
  destruct c as [b0 b1 b2 b3 b4 b5 b6 b7].
  destruct b0, b1, b2, b3, b4, b5, b6, b7; reflexivity.
Qed.

Lemma toLowerCase_toUpperCase s : toLowerCase (toUpperCase s) = toLowerCase s.
Proof.
  induction s as [|c s IH]; [reflexivity|].
  change (toLowerCase (toUpperCase (String c s)))
    with (String (lower_char (upper_char c)) (toLowerCase (toUpperCase s))).
  now rewrite IH, lower_upper_char.
Qed.

Lemma includes_empty s : includes s "" = true.
Proof. now destruct s. Qed.

Lemma truthy_false s : truthy s = false <-> s = "".
Proof. destruct s; simpl; split; congruence. Qed.

End StringFacts.

(* ================================================================== *)
(** * Courses without a code and a title, and pairs with a blank title *)

Module PairingFacts.
Import JSString Catalog Compare Reconciliation.
Import JSMapFacts CountMapFacts LoopFacts StringFacts.

Lemma isTotalCourse_blank c :
  normalizeCode (code c) = "" -> blank (title c) -> isTotalCourse c = false.
Proof.
  unfold isTotalCourse, blank. intros Hcode Htitle. rewrite Hcode. simpl.
  destruct (truthy (toLowerCase (orEmpty (title c)))); [|reflexivity].
  simpl. rewrite includes_total_spaces; [reflexivity|].
  now apply trim_empty.
Qed.

Lemma occurrences_insert v c before after :
  isTotalCourse c = false ->
  occurrences v (fingerprint v c) (before ++ c :: after)
  = S (occurrences v (fingerprint v c) (before ++ after)).
Proof.
  intros H. unfold occurrences, fingerprints, compared.
  rewrite !filter_app, !map_app, !count_occ_app. simpl. rewrite H. simpl.
  destruct (string_dec (fingerprint v c) (fingerprint v c)); [lia|congruence].
Qed.

(** C10. A course whose normalized code is empty and whose title is
    absent or blank is not a total marker, whatever its credits hold;
    its fingerprint is built from its credits (and, in
    compare_courses.js, its prerequisite) alone, and it counts in the
    count map under that fingerprint. *)
Theorem codeless_course_is_compared v c :
  normalizeCode (code c) = "" -> blank (title c) ->
  isTotalCourse c = false /\
  fingerprint v c
  = match v with
    | Courses => "|" ++ normalizeCredits (credits c)
                 ++ "|" ++ normalizePrereq (prerequisite c)
    | CoursesAI => "|" ++ normalizeCredits (credits c)
    end%string /\
  forall before after,
    countOf (fingerprint v c) (makeCountMap v (before ++ c :: after))
    = S (countOf (fingerprint v c) (makeCountMap v (before ++ after))).
Proof.
  intros Hcode Htitle.
  pose proof (isTotalCourse_blank c Hcode Htitle) as Htot.
  split; [assumption|]. split.
  - unfold fingerprint. rewrite Hcode. now destruct v.
  - intros before after. rewrite !countOf_makeCountMap.
    now apply occurrences_insert.
Qed.

Lemma similarTitles_blank mTitle eTitle :
  orEmpty mTitle = "" \/ orEmpty eTitle = "" ->
  similarTitles mTitle eTitle = true.
Proof.
  intros H. unfold similarTitles.
  assert (Hsubs :
    includes (toLowerCase (orEmpty mTitle)) (toLowerCase (orEmpty eTitle))
    || includes (toLowerCase (orEmpty eTitle))
                (toLowerCase (orEmpty mTitle)) = true).
  { destruct H as [H|H]; rewrite H; simpl; rewrite includes_empty.
    - apply orb_true_r.
    - reflexivity. }
  rewrite Hsubs. now rewrite orb_true_r.
Qed.

Section BlankTitle.
Variables (v : variant) (m e : course).
Hypothesis Hblank : orEmpty (title m) = "" \/ orEmpty (title e) = "".
Hypothesis Hcredits :
  normalizeCredits (credits m) = normalizeCredits (credits e).
Hypothesis Hbranch :
  v = Courses ->
  normalizeCode (code m) = normalizeCode (code e) ->
  normalizePrereq (prerequisite m) = normalizePrereq (prerequisite e).

Lemma pairTest_blank : pairTest v m e = Some (CodeMismatch e m).
Proof.
  unfold pairTest. rewrite Hcredits, String.eqb_refl. simpl.
  rewrite (similarTitles_blank _ _ Hblank).
  destruct v; [|reflexivity].
  destruct (String.eqb (normalizeCode (code m)) (normalizeCode (code e)))
    eqn:E; [|reflexivity].
  apply String.eqb_eq in E. rewrite (Hbranch eq_refl E).
  now rewrite String.eqb_refl.
Qed.

End BlankTitle.

Lemma pairLoop_grows v extraList ms : forall i st,
  let st' := pairLoop v ms i extraList st in
  incl (pairedMissing st) (pairedMissing st') /\
  incl (pairedExtra st) (pairedExtra st').
Proof.
  induction ms as [|m ms IH]; intros i st; simpl.
  - split; apply incl_refl.
  - destruct (scanExtra v m extraList 0 (pairedExtra st)) as [[j d]|].
    + destruct (IH (S i) (mkPairing (diffs st ++ [d]) (pairedMissing st ++ [i])
                                    (pairedExtra st ++ [j]))) as [H1 H2].
      simpl in *. split.
      * eapply incl_tran; [|exact H1]. now apply incl_appl, incl_refl.
      * eapply incl_tran; [|exact H2]. now apply incl_appl, incl_refl.
    + apply IH.
Qed.

(** A missing and an extra candidate that pass the pair test do not
    both stay unpaired. *)
Lemma pairLoop_pairs_one v extraList j ce ms : forall i0 st n cm,
  nth_error ms n = Some cm ->
  nth_error extraList j = Some ce ->
  (exists d, pairTest v (sample (snd cm)) (sample (snd ce)) = Some d) ->
  let st' := pairLoop v ms i0 extraList st in
  In (i0 + n) (pairedMissing st') \/ In j (pairedExtra st').
Proof.
  induction ms as [|m ms IH]; intros i0 st n cm Hn Hj Hp.
  - now destruct n.
  - destruct n as [|n]; simpl in Hn.
    + injection Hn as ->. simpl. rewrite Nat.add_0_r.
      destruct (scanExtra v cm extraList 0 (pairedExtra st))
        as [[j' d]|] eqn:Hscan.
      * left.
        apply (pairLoop_grows v extraList ms (S i0)
                 (mkPairing (diffs st ++ [d]) (pairedMissing st ++ [i0])
                            (pairedExtra st ++ [j']))).
        simpl. apply in_or_app. right. now left.
      * right. apply (pairLoop_grows v extraList ms (S i0) st).
        destruct (scanExtra_None v cm _ _ 0 Hscan j ce Hj) as [H|H].
        -- assumption.
        -- destruct Hp as [d Hd]. congruence.
    + simpl. replace (i0 + S n) with (S i0 + n) by lia.
      now apply IH with (cm := cm).
Qed.

(** The inner loop breaks on an extra candidate when that candidate is
    not paired yet and passes the pair test, and every candidate before
    it is paired already or fails the test. *)
Lemma scanExtra_first v cm pe : forall es j0 j ce d,
  nth_error es j = Some ce -> ~ In (j0 + j) pe ->
  pairTest v (sample (snd cm)) (sample (snd ce)) = Some d ->
  (forall j' e', j' < j -> nth_error es j' = Some e' ->
     In (j0 + j') pe \/
     pairTest v (sample (snd cm)) (sample (snd e')) = None) ->
  scanExtra v cm es j0 pe = Some (j0 + j, d).
Proof.
  induction es as [|e es IH]; intros j0 j ce d Hj Hfree Hd Hbefore.
  - now destruct j.
  - destruct j as [|j]; simpl in Hj; simpl.
    + injection Hj as ->. rewrite Nat.add_0_r in *.
      apply paired_false in Hfree. now rewrite Hfree, Hd.
    + replace (j0 + S j) with (S j0 + j) in * by lia.
      assert (Hnext : scanExtra v cm es (S j0) pe = Some (S j0 + j, d)).
      { apply (IH (S j0) j ce d Hj Hfree Hd). intros j' e' Hlt Hn.
        replace (S j0 + j') with (j0 + S j') by lia.
        apply (Hbefore (S j') e'); [lia|exact Hn]. }
      destruct (Hbefore 0 e) as [H|H]; [lia|reflexivity| |].
      * rewrite Nat.add_0_r in H. apply paired_true in H. now rewrite H.
      * destruct (setHas j0 pe); [assumption|]. now rewrite H.
Qed.

(** C9, as the code has it.  When the title of either course of a
    candidate pair is absent or empty, and the normalized credits are
    equal, and (in compare_courses.js) the pair is not taken by the
    prerequisite branch, the pair test answers code-mismatch whatever
    the other title is.  The pairing is first fit: the pair is emitted
    as a code-mismatch when the extra candidate is the first one, in
    the order of the extra list, that is not paired yet and passes the
    test with the missing candidate; otherwise one of the two is paired
    with another candidate, so that the two never both stay unpaired.
    A reference term and a live term holding just these two courses
    compare to that one code-mismatch. *)
Theorem blank_title_pairs v m e :
  orEmpty (title m) = "" \/ orEmpty (title e) = "" ->
  normalizeCredits (credits m) = normalizeCredits (credits e) ->
  (v = Courses ->
   normalizeCode (code m) = normalizeCode (code e) ->
   normalizePrereq (prerequisite m) = normalizePrereq (prerequisite e)) ->
  pairTest v m e = Some (CodeMismatch e m) /\
  (forall cm extraList pairedExtra j ce,
     sample (snd cm) = m ->
     nth_error extraList j = Some ce -> sample (snd ce) = e ->
     ~ In j pairedExtra ->
     (forall j' e', j' < j -> nth_error extraList j' = Some e' ->
        In j' pairedExtra \/ pairTest v m (sample (snd e')) = None) ->
     scanExtra v cm extraList 0 pairedExtra = Some (j, CodeMismatch e m)) /\
  (forall missingList extraList i j cm ce,
     nth_error missingList i = Some cm -> sample (snd cm) = m ->
     nth_error extraList j = Some ce -> sample (snd ce) = e ->
     let st := pairLoop v missingList 0 extraList (mkPairing [] [] []) in
     In i (pairedMissing st) \/ In j (pairedExtra st)) /\
  (forall fetchedName validName,
     isTotalCourse m = false -> isTotalCourse e = false ->
     fingerprint v m <> fingerprint v e ->
     compareSemesters v (mkSemester fetchedName [e])
                        (mkSemester validName [m])
     = [CodeMismatch e m]).
Proof.
  intros Hblank Hcredits Hbranch.
  pose proof (pairTest_blank v m e Hblank Hcredits Hbranch) as Hp.
  split; [assumption|]. split; [|split].
  - intros cm extraList pairedExtra j ce Hm Hj He Hfree Hbefore.
    apply (scanExtra_first v cm pairedExtra extraList 0 j ce).
    + exact Hj.
    + exact Hfree.
    + now rewrite Hm, He.
    + intros j' e' Hlt Hn. rewrite Hm. now apply Hbefore.
  - intros missingList extraList i j cm ce Hi Hm Hj He.
    apply (pairLoop_pairs_one v extraList j ce missingList 0
             (mkPairing [] [] []) i cm Hi Hj).
    rewrite Hm, He. eauto.
  - intros fetchedName validName Hm He Hne.
    unfold compareSemesters, makeCountMap. simpl.
    unfold countCourse. rewrite Hm, He. simpl.
    unfold scanValid, scanFetched, JSMap.has. simpl.
    destruct (String.eqb (fingerprint v m) (fingerprint v e)) eqn:E1;
      [apply String.eqb_eq in E1; congruence|].
    rewrite String.eqb_sym, E1. simpl.
    rewrite Hp. reflexivity.
Qed.

(** C9, the counterexample.  The reference course [untitled] has no
    title and the credits of the live course [chemistry], and the pair
    passes the pair test; yet in a live term that lists [quantum]
    first, [untitled] is paired with [quantum], and [chemistry] is
    reported as extra, not as a code-mismatch.  Both scripts do so. *)
Lemma blank_title_pair_left_unpaired :
  orEmpty (title Samples.untitled) = "" /\
  normalizeCredits (credits Samples.untitled)
  = normalizeCredits (credits MoreSamples.chemistry) /\
  pairTest Courses Samples.untitled MoreSamples.chemistry
  = Some (CodeMismatch MoreSamples.chemistry Samples.untitled) /\
  compareSemesters Courses
    (mkSemester "Semester 1" [Samples.quantum; MoreSamples.chemistry])
    (mkSemester "Semester 1" [Samples.untitled])
  = [CodeMismatch Samples.quantum Samples.untitled;
     ExtraInFetched 1 MoreSamples.chemistry] /\
  compareSemesters CoursesAI
    (mkSemester "Semester 1" [Samples.quantum; MoreSamples.chemistry])
    (mkSemester "Semester 1" [Samples.untitled])
  = [CodeMismatch Samples.quantum Samples.untitled;
     ExtraInFetched 1 MoreSamples.chemistry].
Proof. repeat split; vm_compute; reflexivity. Qed.

End PairingFacts.

(* ================================================================== *)
(** * Prerequisite normalization *)

Module PrereqFacts.
Import JSString Catalog Compare Reconciliation.

Lemma insert_sorted_perm x l : Permutation (insert_sorted x l) (x :: l).
Proof.
  induction l as [|y l IH]; simpl; [reflexivity|].
  destruct (String.leb x y); [reflexivity|].
  rewrite IH. apply perm_swap.
Qed.

Lemma sort_perm l : Permutation (sort l) l.
Proof.
  induction l as [|x l IH]; simpl; [reflexivity|].
  rewrite insert_sorted_perm. now constructor.
Qed.

Lemma insert_sorted_sorted x l :
  LocallySorted le l -> LocallySorted le (insert_sorted x l).
Proof.
  induction 1 as [|y|y z l Hl IH Hyz]; simpl.
  - constructor.
  - destruct (String.leb x y) eqn:E.
    + constructor; [constructor|exact E].
    + constructor; [constructor|].
      destruct (String.leb_total x y) as [H|H]; [congruence|exact H].
  - destruct (String.leb x y) eqn:E.
    + constructor; [|exact E]. now constructor.
    + simpl in IH. destruct (String.leb x z) eqn:E'.
      * constructor; [assumption|].
        destruct (String.leb_total x y) as [H|H]; [congruence|exact H].
      * constructor; assumption.
Qed.

Lemma sort_sorted l : LocallySorted le (sort l).
Proof.
  induction l as [|x l IH]; simpl; [constructor|].
  now apply insert_sorted_sorted.
Qed.

(** C5, as the code has it.  [normalizePrereq] of an absent text is the
    empty string; of a text, it is the pipe-joined list of the course
    codes found in the trimmed, upper-cased text, each with its inner
    whitespace replaced by a hyphen, in ascending order; every match
    contributes, so a code that occurs twice in the text occurs twice in
    the result, and the result is empty when no code is found. *)
Theorem normalizePrereq_sorted_codes :
  normalizePrereq None = "" /\
  forall s,
    (extractedCodes s = [] -> normalizePrereq (Some s) = "") /\
    exists pieces,
      normalizePrereq (Some s) = join "|" pieces /\
      Permutation pieces (extractedCodes s) /\
      LocallySorted le pieces.
Proof.
  split; [reflexivity|]. intros s.
  destruct s as [|c s].
  - split; [reflexivity|]. exists []. repeat split; constructor.
  - unfold normalizePrereq. simpl truthy_opt. cbv iota. simpl negb.
    cbv iota. change (orEmpty (Some (String c s))) with (String c s).
    fold (extractedCodes (String c s)). split.
    + now intros ->.
    + exists (sort (extractedCodes (String c s))).
      split; [reflexivity|]. split; [apply sort_perm|apply sort_sorted].
Qed.

(** C5, the counterexample: a code that occurs twice in the text
    occurs twice in the result. *)
Lemma normalizePrereq_keeps_duplicates :
  normalizePrereq (Some "CS101 and CS101") = "CS101|CS101" /\
  normalizePrereqAsSet (Some "CS101 and CS101") = "CS101" /\
  normalizePrereq (Some "CS101 and CS101")
  <> normalizePrereqAsSet (Some "CS101 and CS101").
Proof. repeat split. vm_compute. discriminate. Qed.

End PrereqFacts.

(* ================================================================== *)
(** * The report *)

Module ReportFacts.
Import JSString Catalog Compare Reconciliation.

Lemma type_written d : In (type d) writtenTypes.
Proof. destruct d; simpl; tauto. Qed.

Lemma wellFormed_mk n k ds :
  wellFormed (Report.mkSemester n k (List.length ds) ds).
Proof.
  split; [reflexivity|]. apply Forall_forall. intros d _.
  apply type_written.
Qed.

Lemma compareScraped_wellFormed v sheetMap scrapedSems : forall acc,
  Forall wellFormed (fst acc) ->
  Forall wellFormed
         (fst (fold_left (reportScraped v sheetMap) scrapedSems acc)).
Proof.
  induction scrapedSems as [|sem sems IH]; intros [semesters keys] H.
  - exact H.
  - simpl fold_left. apply IH. simpl. apply Forall_app. split.
    + exact H.
    + constructor; [apply wellFormed_mk|constructor].
Qed.

Lemma compareUnmatched_wellFormed v matchedSheetKeys
      (sheetMap : JSMap.t semester) : forall semesters,
  Forall wellFormed semesters ->
  Forall wellFormed (compareUnmatched v sheetMap matchedSheetKeys semesters).
Proof.
  unfold compareUnmatched.
  induction sheetMap as [|[key sheetSem] sheetMap IH]; intros semesters H.
  - exact H.
  - simpl fold_left. apply IH.
    destruct (mem key matchedSheetKeys); [exact H|].
    destruct (0 <? _); [|exact H].
    apply Forall_app. split; [exact H|].
    constructor; [apply wellFormed_mk|constructor].
Qed.

(** C8, as the code has it.  In the report [main] builds, every element
    carries [name], [validKey], [diffCount] and [diffs], [diffCount] is
    the number of [diffs], and the [type] of every diff is one of
    missing-in-fetched, extra-in-fetched, count-mismatch, code-mismatch,
    prerequisite-mismatch. *)
Theorem report_vocabulary v scraped sheet :
  typesWithin writtenTypes (main v scraped sheet) /\
  Forall (fun r => Report.diffCount r = List.length (Report.diffs r))
         (main v scraped sheet).
Proof.
  assert (H : Forall wellFormed (main v scraped sheet)).
  { unfold main.
    pose proof (compareScraped_wellFormed v (buildSheetSemesterMap sheet)
                  scraped ([], []) (Forall_nil _)) as H.
    fold (compareScraped v (buildSheetSemesterMap sheet) scraped) in H.
    destruct (compareScraped v (buildSheetSemesterMap sheet) scraped)
      as [semesters keys].
    simpl in H. now apply compareUnmatched_wellFormed. }
  unfold typesWithin. split; eapply Forall_impl; try exact H;
    intros r [H1 H2]; assumption.
Qed.

(** C8, the counterexample: a reference course the live term lacks is
    reported with the type missing-in-fetched, a live course the
    reference lacks with the type extra-in-fetched; neither is a type of
    the specified vocabulary. *)
Lemma report_types_outside_specified :
  let c := mkCourse (Some "1") (Some "CS101")
                    (Some "Programming Fundamentals") (Some "3+1") None in
  map (fun r => map type (Report.diffs r))
      (main Courses [mkSemester "Semester 1" []] [mkSemester "Semester 1" [c]])
  = [["missing-in-fetched"]] /\
  map (fun r => map type (Report.diffs r))
      (main Courses [mkSemester "Semester 1" [c]] [mkSemester "Semester 1" []])
  = [["extra-in-fetched"]] /\
  ~ typesWithin specifiedTypes
      (main Courses [mkSemester "Semester 1" []]
                    [mkSemester "Semester 1" [c]]).
Proof.
  split; [reflexivity|]. split; [reflexivity|].
  intros H. vm_compute in H.
  inversion H as [|r rs Hr _]; subst.
  inversion Hr as [|d ds Hd _]; subst.
  simpl in Hd. repeat (destruct Hd as [Hd|Hd]; [discriminate|]).
  exact Hd.
Qed.

Section OneTermEach.
Variables (v : variant) (a b : string) (cs cs' : list course).
Hypothesis Hb : truthy b = true.
Hypothesis Hnorm : normalizeSemKey a = normalizeSemKey b.

Lemma sheetMap_single :
  buildSheetSemesterMap [mkSemester b cs'] = [(b, mkSemester b cs')].
Proof.
  unfold buildSheetSemesterMap. cbn [fold_left name courses].
  rewrite Hb. unfold JSMap.has. cbn [JSMap.get negb JSMap.set].
  rewrite String.eqb_refl. cbn [JSMap.set name courses app].
  rewrite ?String.eqb_refl. reflexivity.
Qed.

Lemma matchedKey_single :
  truthy_opt (matchedKey [(b, mkSemester b cs')] (mkSemester a cs)) = true /\
  orEmpty (matchedKey [(b, mkSemester b cs')] (mkSemester a cs)) = b.
Proof.
  unfold matchedKey, JSMap.has, JSMap.keys.
  cbn [JSMap.get name map fst find].
  destruct (String.eqb a b) eqn:E.
  - apply String.eqb_eq in E. subst a. now split.
  - rewrite Hnorm, String.eqb_refl.
    change (truthy_opt (Some b)) with (truthy b). rewrite Hb.
    cbn [negb]. now split.
Qed.

Lemma main_single :
  main v [mkSemester a cs] [mkSemester b cs']
  = let diffs := compareSemesters v (mkSemester a cs) (mkSemester b cs') in
    [Report.mkSemester a b (List.length diffs) diffs].
Proof.
  unfold main. rewrite sheetMap_single. unfold compareScraped.
  cbn [fold_left]. unfold reportScraped. destruct matchedKey_single as [H1 H2].
  rewrite H1, H2. cbn [JSMap.get]. rewrite String.eqb_refl.
  cbn [app name]. unfold compareUnmatched. cbn [fold_left mem existsb].
  rewrite String.eqb_refl. reflexivity.
Qed.

End OneTermEach.

(** The second matching rule: a scraped name that is no key of the
    sheet map is matched to the first key with the same normalized
    name. *)
Lemma matchedKey_normalized (sheetMap : JSMap.t semester) scrapedSem k :
  JSMap.has (name scrapedSem) sheetMap = false ->
  find (fun k' => String.eqb (normalizeSemKey k')
                             (normalizeSemKey (name scrapedSem)))
       (JSMap.keys sheetMap) = Some k ->
  truthy k = true ->
  matchedKey sheetMap scrapedSem = Some k.
Proof.
  intros Hhas Hfind Hk. unfold matchedKey. rewrite Hhas, Hfind.
  change (truthy_opt (Some k)) with (truthy k). now rewrite Hk.
Qed.

Lemma normalizeSemKey_upper s :
  normalizeSemKey (toUpperCase s) = normalizeSemKey s.
Proof.
  unfold normalizeSemKey. rewrite StringFacts.toLowerCase_toUpperCase.
  now destruct s.
Qed.

End ReportFacts.

(* ================================================================== *)
(** * The extraction *)

Module ScrapeFacts.
Import JSString Regex Scrape Extracted.

Lemma cell_nth_error cells i :
  i < List.length cells -> nth_error cells i = Some (cell cells i).
Proof. intros H. unfold cell. now apply nth_error_nth'. Qed.

Lemma field_cell cells i :
  i < List.length cells -> field cells i = orNull (trim (cell cells i)).
Proof. intros H. unfold field. now rewrite cell_nth_error. Qed.

Lemma field_verbatim cells i c :
  nth_error cells i = Some c -> trim c = c -> c <> "" ->
  field cells i = Some c.
Proof.
  intros Hc Htrim Hne. unfold field. rewrite Hc, Htrim.
  destruct c; [congruence|reflexivity].
Qed.

(** C6, as the code has it.  When at least three cells remain after the
    serial offset, [parseCourseFromCells] maps by position: code, title
    and credits are read from the cells at offset, offset+1 and
    offset+2 and the prerequisite from the cell at offset+4; each is
    the trimmed text of its cell, or [null] when the cell is absent or
    blank; the credits stay a string.  A cell that is trimmed and
    not empty is taken as it is. *)
Theorem positional_mapping cells :
  serialOffset cells + 3 <= List.length cells ->
  let offset := serialOffset cells in
  parseCourseFromCells cells
  = mkCourse (if test allDigits (cell cells 0)
              then Some (trim (cell cells 0)) else None)
             (field cells offset)
             (field cells (offset + 1))
             (option_map CreditsText (field cells (offset + 2)))
             (field cells (offset + 4)) /\
  forall i c,
    nth_error cells i = Some c -> trim c = c -> c <> "" ->
    field cells i = Some c.
Proof.
  intros Hlen offset. split; [|apply field_verbatim].
  unfold parseCourseFromCells. fold (serialOffset cells). fold offset.
  assert (H3 : (offset + 3 <=? List.length cells) = true)
    by now apply Nat.leb_le.
  rewrite H3. rewrite !field_cell by (unfold offset; lia).
  f_equal. destruct (offset + 5 <=? List.length cells) eqn:H5.
  - apply Nat.leb_le in H5. rewrite field_cell by lia. reflexivity.
  - apply Nat.leb_gt in H5. unfold field.
    replace (nth_error cells (offset + 4)) with (@None string);
      [reflexivity|].
    symmetry. apply nth_error_None. lia.
Qed.

(** C6, the counterexample: a blank cell at offset+4 gives a [null]
    prerequisite, not the cell, and a cell with surrounding whitespace
    is not taken verbatim. *)
Lemma positional_mapping_not_verbatim :
  let row := ["1"; "CS101"; "Programming Fundamentals"; "3+1"; ""; ""] in
  let padded := [" CS101"; "Programming Fundamentals "; " 3+1 "] in
  serialOffset row + 3 <= List.length row /\
  nth_error row (serialOffset row + 4) = Some "" /\
  prerequisite (parseCourseFromCells row) = None /\
  prerequisite (parseCourseFromCells row)
  <> nth_error row (serialOffset row + 4) /\
  serialOffset padded + 3 <= List.length padded /\
  code (parseCourseFromCells padded) = Some "CS101" /\
  code (parseCourseFromCells padded)
  <> nth_error padded (serialOffset padded).
Proof.
  vm_compute. repeat split; try lia; discriminate.
Qed.

Lemma some_name_mem h (semesters : list semester) :
  existsb (fun s => String.eqb (name s) h) semesters
  = mem h (map name semesters).
Proof.
  unfold mem. induction semesters as [|s l IH]; simpl; [reflexivity|].
  now rewrite IH, String.eqb_sym.
Qed.

(** What the loop of method 2 adds to the catalog. *)
Lemma fromHeaderTable_fold tables : forall semesters,
  fold_left fromHeaderTable tables semesters
  = semesters
    ++ map headerTerm (selectTables (map name semesters) tables).
Proof.
  induction tables as [|t ts IH]; intros semesters; simpl.
  - now rewrite app_nil_r.
  - rewrite IH. unfold fromHeaderTable, hasSemesterHeader.
    rewrite some_name_mem.
    destruct (test semesterRe (headText t)); simpl; [|reflexivity].
    destruct (mem (headText t) (map name semesters)); simpl; [reflexivity|].
    rewrite map_app, <- app_assoc. reflexivity.
Qed.

Lemma mem_true x l : mem x l = true <-> In x l.
Proof.
  unfold mem. rewrite existsb_exists. split.
  - intros [y [Hin Heq]]. apply String.eqb_eq in Heq. now subst.
  - intros H. exists x. split; [assumption|apply String.eqb_refl].
Qed.

Lemma mem_false x l : mem x l = false <-> ~ In x l.
Proof. rewrite <- mem_true. destruct (mem x l); split; congruence. Qed.

Lemma selectTables_names tables : forall names t,
  In t tables -> hasSemesterHeader t = true ->
  In (headText t) (names ++ map headText (selectTables names tables)).
Proof.
  induction tables as [|t' ts IH]; intros names t Hin Hsem; [easy|].
  simpl. destruct Hin as [->|Hin].
  - rewrite Hsem. simpl. destruct (mem (headText t) names) eqn:E; simpl.
    + apply in_or_app. left. now apply mem_true.
    + apply in_or_app. right. now left.
  - destruct (hasSemesterHeader t' && negb (mem (headText t') names)).
    + specialize (IH (names ++ [headText t']) t Hin Hsem).
      rewrite <- app_assoc in IH. exact IH.
    + now apply IH.
Qed.

Lemma selectTables_fresh tables : forall names,
  NoDup (map headText (selectTables names tables)) /\
  forall n, In n (map headText (selectTables names tables)) ->
            ~ In n names.
Proof.
  induction tables as [|t ts IH]; intros names; simpl.
  - split; [constructor|easy].
  - destruct (hasSemesterHeader t && negb (mem (headText t) names)) eqn:E.
    + apply andb_prop in E. destruct E as [_ E].
      apply negb_true_iff, mem_false in E.
      destruct (IH (names ++ [headText t])) as [Hnd Hfresh].
      simpl. split.
      * constructor; [|assumption]. intros Hin.
        apply (Hfresh _ Hin). apply in_or_app. right. now left.
      * intros n [<-|Hin]; [assumption|].
        intros Hn. apply (Hfresh _ Hin). apply in_or_app. now left.
    + apply IH.
Qed.

Lemma selectTables_from tables : forall names t,
  In t (selectTables names tables) ->
  In t tables /\ hasSemesterHeader t = true.
Proof.
  induction tables as [|t' ts IH]; intros names t; simpl; [easy|].
  destruct (hasSemesterHeader t') eqn:Hsem; simpl.
  - destruct (negb (mem (headText t') names)); simpl.
    + intros [<-|H]; [auto|]. apply IH in H. tauto.
    + intros H. apply IH in H. tauto.
  - intros H. apply IH in H. tauto.
Qed.

Lemma headerTerm_names l : map name (map headerTerm l) = map headText l.
Proof. rewrite map_map. reflexivity. Qed.

(** C7, as the code has it.  Method 2 keeps, in document order, every
    table whose first header cell matches semester and whose header
    name is not the name of a term already in the catalog, whether
    method 1 or an earlier table of method 2 produced it, and appends
    the term parsed from its body rows after the terms of method 1.  So
    every semester-header table has its name in the catalog, the names
    method 2 adds are pairwise distinct and distinct from those of
    method 1, and every term it adds comes from a semester-header
    table. *)
Theorem header_tables doc :
  let A := fromHeadings doc in
  let tables := Dom.find ["table"] doc in
  let B := map headerTerm (selectTables (map name A) tables) in
  fold_left fromHeaderTable tables A = A ++ B /\
  (A ++ B <> [] -> extractSemesters doc = A ++ B) /\
  (forall t, In t tables -> hasSemesterHeader t = true ->
             In (headText t) (map name (A ++ B))) /\
  NoDup (map name B) /\
  (forall n, In n (map name B) -> ~ In n (map name A)) /\
  (forall b, In b B ->
     exists t, In t tables /\ hasSemesterHeader t = true /\
               b = headerTerm t).
Proof.
  intros A tables B.
  assert (Hfold : fold_left fromHeaderTable tables A = A ++ B)
    by apply fromHeaderTable_fold.
  split; [exact Hfold|]. split; [|split; [|split; [|split]]].
  - intros Hne. unfold extractSemesters. fold A. fold tables.
    rewrite Hfold. destruct (A ++ B); [congruence|reflexivity].
  - intros t Hin Hsem. rewrite map_app. unfold B.
    rewrite headerTerm_names. now apply selectTables_names.
  - unfold B. rewrite headerTerm_names. apply selectTables_fresh.
  - unfold B. rewrite headerTerm_names. apply selectTables_fresh.
  - intros b Hb. unfold B in Hb. apply in_map_iff in Hb.
    destruct Hb as [t [<- Ht]]. apply selectTables_from in Ht.
    exists t. tauto.
Qed.

End ScrapeFacts.

(* ================================================================== *)
(** * The statements at the sample data *)

Module SampleFacts.
Import JSString Catalog Compare Reconciliation Samples.
Import ReconciliationFacts PairingFacts ReportFacts.

Lemma multiset_symmetry_witness :
  Permutation
    (fingerprints Courses [programming; calculus; total])
    (fingerprints Courses [calculus; programmingAgain]) /\
  compareSemesters Courses
    (mkSemester "Semester 1" [programming; calculus; total])
    (mkSemester "Semester I" [calculus; programmingAgain]) = [].
Proof.
  assert (H : Permutation
                (fingerprints Courses [programming; calculus; total])
                (fingerprints Courses [calculus; programmingAgain]))
    by (vm_compute; apply perm_swap).
  split; [exact H|].
  exact (multiset_symmetry Courses
           (mkSemester "Semester 1" [programming; calculus; total])
           (mkSemester "Semester I" [calculus; programmingAgain]) H).
Defined.

Lemma count_sensitivity_witness :
  exists x,
    firstWith CoursesAI "CS101|3+1" [programming; calculus; programmingAgain]
    = Some x /\
    filter (about CoursesAI "CS101|3+1")
      (compareSemesters CoursesAI
         (mkSemester "Semester 1" [programmingAgain])
         (mkSemester "Semester 1" [programming; calculus; programmingAgain]))
    = [CountMismatch (mkMismatch x 1 2)].
Proof.
  destruct (count_sensitivity CoursesAI
              (mkSemester "Semester 1" [programmingAgain])
              (mkSemester "Semester 1"
                          [programming; calculus; programmingAgain])
              "CS101|3+1" eq_refl eq_refl) as [x [H1 [H2 _]]].
  exists x. split; assumption.
Defined.

Lemma blank_title_pairs_witness :
  pairTest Courses untitled quantum = Some (CodeMismatch quantum untitled) /\
  compareSemesters Courses (mkSemester "Semester 1" [quantum])
                           (mkSemester "Semester 1" [untitled])
  = [CodeMismatch quantum untitled].
Proof.
  destruct (blank_title_pairs Courses untitled quantum) as [H1 [_ [_ H3]]].
  - left. reflexivity.
  - reflexivity.
  - intros _ _. reflexivity.
  - split; [exact H1|]. apply H3.
    + reflexivity.
    + reflexivity.
    + vm_compute. discriminate.
Defined.

Lemma codeless_course_is_compared_witness :
  isTotalCourse creditsOnly = false /\
  fingerprint Courses creditsOnly = "|3|CS-101" /\
  countOf "|3|CS-101" (makeCountMap Courses [total; creditsOnly; calculus])
  = 1.
Proof.
  destruct (codeless_course_is_compared Courses creditsOnly)
    as [H1 [H2 H3]].
  - reflexivity.
  - reflexivity.
  - split; [exact H1|]. split; [exact H2|].
    exact (H3 [total] [calculus]).
Defined.

End SampleFacts.

Module ScrapeSampleFacts.
Import JSString Regex Scrape Extracted Samples ScrapeFacts.

Lemma positional_mapping_witness :
  serialOffset row + 3 <= List.length row /\
  parseCourseFromCells row
  = mkCourse (Some "1") (Some "CS101") (Some "Programming Fundamentals")
             (Some (CreditsText "3+1")) None.
Proof.
  assert (H : serialOffset row + 3 <= List.length row)
    by (vm_compute; lia).
  split; [exact H|].
  exact (proj1 (positional_mapping row H)).
Defined.

(** C7, the counterexample: the second of two tables headed
    "Semester 1" is not in the catalog, although method 1 produced no
    term of that name. *)
Lemma repeated_header_table_skipped :
  fromHeadings twoTables = [] /\
  Dom.find ["table"] twoTables = [firstTable; secondTable] /\
  hasSemesterHeader secondTable = true /\
  ~ In (headText secondTable) (map name (fromHeadings twoTables)) /\
  extractSemesters twoTables = [headerTerm firstTable] /\
  ~ In (headerTerm secondTable) (extractSemesters twoTables).
Proof.
  split; [reflexivity|]. split; [reflexivity|]. split; [reflexivity|].
  split; [intros []|]. split; [reflexivity|].
  vm_compute. intros [H|[]]. discriminate.
Qed.

Lemma header_tables_witness :
  extractSemesters twoTables
  = fromHeadings twoTables
    ++ map headerTerm
         (selectTables (map name (fromHeadings twoTables))
                       (Dom.find ["table"] twoTables)).
Proof.
  apply (proj1 (proj2 (header_tables twoTables))).
  vm_compute. discriminate.
Defined.

End ScrapeSampleFacts.

(* ================================================================== *)
(** * Further facts about the count maps and the diff lists *)

Module EngineFacts.
Import JSString Catalog Compare Reconciliation Coverage.
Import JSMapFacts CountMapFacts LoopFacts.

Lemma filter_absorb {A} (P Q : A -> bool) l :
  (forall x, P x = true -> Q x = true) ->
  filter P (filter Q l) = filter P l.
Proof.
  intros H. induction l as [|x l IH]; simpl; [reflexivity|].
  destruct (Q x) eqn:EQ; simpl.
  - now rewrite IH.
  - destruct (P x) eqn:EP; [|exact IH].
    apply H in EP. congruence.
Qed.

Lemma filter_both {A} (P Q : A -> bool) l :
  filter P (filter Q l) = filter (fun x => Q x && P x) l.
Proof.
  induction l as [|x l IH]; simpl; [reflexivity|].
  destruct (Q x); simpl; [|exact IH].
  destruct (P x); now rewrite IH.
Qed.

Lemma mem_In x l : mem x l = true <-> In x l.
Proof.
  unfold mem. rewrite existsb_exists. split.
  - intros [y [Hin Heq]]. apply String.eqb_eq in Heq. now subst.
  - intros H. exists x. split; [assumption|apply String.eqb_refl].
Qed.

Lemma has_mem {V} k (m : JSMap.t V) : JSMap.has k m = mem k (JSMap.keys m).
Proof.
  destruct (JSMap.has k m) eqn:E.
  - symmetry. apply mem_In. now apply has_true.
  - destruct (mem k (JSMap.keys m)) eqn:E'; [|reflexivity].
    apply mem_In, has_true in E'. congruence.
Qed.

Section WithVariant.
Variable v : variant.

(** The keys of the map the counting loop builds, in the order the loop
    first meets them. *)
Lemma keys_fold arr : forall m0,
  JSMap.keys (fold_left (countCourse v) arr m0)
  = JSMap.keys m0
    ++ filter (fun k => negb (mem k (JSMap.keys m0)))
              (dedup (fingerprints v arr)).
Proof.
  induction arr as [|c arr IH]; intros m0.
  - simpl. now rewrite app_nil_r.
  - simpl fold_left. rewrite IH. unfold countCourse.
    unfold fingerprints, compared. simpl filter.
    destruct (isTotalCourse c) eqn:Htot; simpl negb; cbv iota.
    + reflexivity.
    + cbv zeta. rewrite keys_set.
      change (map (fingerprint v) (c :: filter (fun c0 => negb (isTotalCourse c0)) arr))
        with (fingerprint v c :: fingerprints v arr).
      simpl dedup. simpl filter. rewrite <- has_mem.
      destruct (JSMap.has (fingerprint v c) m0) eqn:Hhas; simpl negb;
        cbv iota.
      * f_equal. symmetry. apply filter_absorb.
        intros x Hx. apply negb_true_iff in Hx.
        apply negb_true_iff. apply String.eqb_neq. intros <-.
        rewrite <- has_mem in Hx. congruence.
      * rewrite <- app_assoc. simpl. do 2 f_equal.
        rewrite filter_both. apply filter_ext. intros x.
        unfold mem. rewrite existsb_app. simpl. rewrite orb_false_r.
        rewrite negb_orb, andb_comm. f_equal. now rewrite String.eqb_sym.
Qed.

Lemma keys_makeCountMap arr :
  JSMap.keys (makeCountMap v arr) = dedup (fingerprints v arr).
Proof.
  unfold makeCountMap. rewrite keys_fold. simpl.
  induction (dedup (fingerprints v arr)) as [|x l IH];
    simpl; [reflexivity|]. now rewrite IH.
Qed.

(** X1. The count map of a term: its keys are the fingerprints of the
    compared courses, each once, in the order of their first
    occurrence; the entry of a key counts the courses with that
    fingerprint and samples the first of them. *)
Theorem count_map_contents arr :
  JSMap.keys (makeCountMap v arr) = dedup (fingerprints v arr) /\
  NoDup (JSMap.keys (makeCountMap v arr)) /\
  (forall k, JSMap.get k (makeCountMap v arr) = None
             <-> occurrences v k arr = 0) /\
  forall k e,
    In (k, e) (makeCountMap v arr) ->
    count e = occurrences v k arr /\ 1 <= count e /\
    firstWith v k arr = Some (sample e) /\
    In (sample e) arr /\ fingerprint v (sample e) = k.
Proof.
  split; [apply keys_makeCountMap|].
  split; [apply NoDup_keys_makeCountMap|]. split.
  - intros k. rewrite get_makeCountMap. rewrite <- firstWith_None.
    destruct (firstWith v k arr); simpl; split; congruence.
  - intros k e Hin. apply In_makeCountMap in Hin.
    destruct Hin as [_ [H1 [H2 [H3 [H4 _]]]]].
    repeat split; try assumption.
    now apply firstWith_Some in H3.
Qed.

Lemma makeCountMap_skip c before after :
  isTotalCourse c = true ->
  makeCountMap v (before ++ c :: after) = makeCountMap v (before ++ after).
Proof.
  intros H. unfold makeCountMap. rewrite !fold_left_app. simpl.
  unfold countCourse at 2. now rewrite H.
Qed.

End WithVariant.

Lemma includes_truthy t n : includes t (String n "") = true -> truthy t = true.
Proof. destruct t; [discriminate|reflexivity]. Qed.

Lemma isTotalCourse_marks c :
  includes (toLowerCase (orEmpty (title c))) "total" = true \/
  normalizeCode (code c) = "TOTAL" \/
  normalizeCode (code c) = "GRAND TOTAL" ->
  isTotalCourse c = true.
Proof.
  unfold isTotalCourse. intros [H|[H|H]].
  - destruct (toLowerCase (orEmpty (title c))) eqn:E; [discriminate|].
    simpl truthy. rewrite andb_false_r.
    destruct (_ || _); [reflexivity|]. now rewrite H.
  - rewrite H. reflexivity.
  - rewrite H. reflexivity.
Qed.

(** X2. Total exclusion: a course whose lower-cased title contains
    "total", or whose normalized code is TOTAL or GRAND TOTAL, is a
    total marker, and a total marker anywhere in either term changes
    nothing in the diff list, whatever its credits hold. *)
Theorem total_marker_ignored c :
  includes (toLowerCase (orEmpty (title c))) "total" = true \/
  normalizeCode (code c) = "TOTAL" \/
  normalizeCode (code c) = "GRAND TOTAL" ->
  isTotalCourse c = true /\
  forall v n before after other,
    compareSemesters v (mkSemester n (before ++ c :: after)) other
    = compareSemesters v (mkSemester n (before ++ after)) other /\
    compareSemesters v other (mkSemester n (before ++ c :: after))
    = compareSemesters v other (mkSemester n (before ++ after)).
Proof.
  intros H. pose proof (isTotalCourse_marks c H) as Htot.
  split; [assumption|]. intros v n before after other.
  unfold compareSemesters. simpl courses.
  rewrite (makeCountMap_skip v c before after Htot). split; reflexivity.
Qed.

Lemma unpaired_none l : forall i, unpaired l i [] = l.
Proof.
  induction l as [|c l IH]; intros i; simpl; [reflexivity|].
  now rewrite IH.
Qed.

Lemma pairLoop_no_extra v ms : forall i st, pairLoop v ms i [] st = st.
Proof. induction ms as [|m ms IH]; intros i st; simpl; [reflexivity|apply IH]. Qed.

Lemma filter_all {A} (f : A -> bool) l :
  (forall x, In x l -> f x = true) -> filter f l = l.
Proof.
  induction l as [|x l IH]; intros H; simpl; [reflexivity|].
  rewrite (H x) by now left. f_equal. apply IH. intros y Hy. apply H.
  now right.
Qed.

(** X3. A term compared with an empty term: against an empty
    reference, the diff list is one extra entry per distinct
    fingerprint of the live term, in the order of first occurrence,
    with its multiplicity and first course; against an empty live term,
    one missing entry per distinct fingerprint of the reference. *)
Theorem compared_with_empty v sem n :
  compareSemesters v sem (mkSemester n [])
  = map extraDiff (makeCountMap v (courses sem)) /\
  compareSemesters v (mkSemester n []) sem
  = map missingDiff (makeCountMap v (courses sem)) /\
  List.length (compareSemesters v sem (mkSemester n []))
  = List.length (dedup (fingerprints v (courses sem))).
Proof.
  assert (H1 : compareSemesters v sem (mkSemester n [])
               = map extraDiff (makeCountMap v (courses sem))).
  { rewrite compareSemesters_eq. simpl courses.
    change (makeCountMap v []) with (@nil (string * entry)).
    unfold missingCandidates, countMismatchesOf. simpl.
    unfold extraCandidates. rewrite filter_all by reflexivity.
    rewrite unpaired_none. now rewrite app_nil_r. }
  split; [exact H1|]. split.
  - rewrite compareSemesters_eq. simpl courses.
    change (makeCountMap v []) with (@nil (string * entry)).
    unfold extraCandidates. simpl filter.
    unfold missingCandidates. rewrite filter_all by reflexivity.
    rewrite pairLoop_no_extra. simpl. rewrite unpaired_none.
    unfold countMismatchesOf.
    rewrite ReconciliationFacts.flat_map_none by reflexivity.
    simpl. now rewrite app_nil_r.
  - rewrite H1, length_map, <- keys_makeCountMap.
    unfold JSMap.keys. now rewrite length_map.
Qed.

End EngineFacts.

(* ================================================================== *)
(** * What a diff list tells *)

Module DiffFacts.
Import JSString Catalog Compare Reconciliation Coverage.
Import JSMapFacts CountMapFacts LoopFacts EngineFacts.

Lemma filter_nil_inv {A} (f : A -> bool) l x :
  filter f l = [] -> In x l -> f x = false.
Proof.
  intros H Hin. destruct (f x) eqn:E; [|reflexivity].
  assert (Hx : In x (filter f l)) by (apply filter_In; auto).
  rewrite H in Hx. destruct Hx.
Qed.

Lemma flat_map_nil_inv {A B} (f : A -> list B) l x :
  flat_map f l = [] -> In x l -> f x = [].
Proof.
  induction l as [|y l IH]; simpl; [tauto|].
  intros H [->|Hin]; apply app_eq_nil in H; destruct H; auto.
Qed.

Lemma map_nil_inv {A B} (f : A -> B) l : map f l = [] -> l = [].
Proof. destruct l; [reflexivity|discriminate]. Qed.

(** X4. No diff only for equal multisets: when [compareSemesters]
    returns the empty list, the compared courses of the two terms have
    the same fingerprints with the same multiplicities. *)
Theorem no_diff_only_if_same_multiset v fetchedSem validSem :
  compareSemesters v fetchedSem validSem = [] ->
  Permutation (fingerprints v (courses fetchedSem))
              (fingerprints v (courses validSem)).
Proof.
  intros H. rewrite compareSemesters_eq in H.
  set (fMap := makeCountMap v (courses fetchedSem)) in *.
  set (vMap := makeCountMap v (courses validSem)) in *.
  set (st := pairLoop v _ 0 _ _) in H.
  pose proof (pairLoop_pairedInOrder v (missingCandidates fMap vMap)
                (extraCandidates fMap vMap)) as Hinv.
  fold st in Hinv. apply pairedInOrder_lengths in Hinv.
  apply app_eq_nil in H. destruct H as [Hd H].
  rewrite Hd in Hinv. destruct Hinv as [Hpm Hpe]. simpl in Hpm, Hpe.
  symmetry in Hpm, Hpe. apply length_zero_iff_nil in Hpm, Hpe.
  rewrite Hpm, Hpe, !unpaired_none in H.
  apply app_eq_nil in H. destruct H as [Hm H].
  apply app_eq_nil in H. destruct H as [He Hc].
  apply map_nil_inv in Hm, He, Hc.
  apply (Permutation_count_occ string_dec). intros k.
  change (occurrences v k (courses fetchedSem)
          = occurrences v k (courses validSem)).
  destruct (JSMap.get k vMap) as [vE|] eqn:Hv.
  - pose proof (get_In _ _ _ Hv) as Hin.
    pose proof (filter_nil_inv _ _ (k, vE) Hm Hin) as Hhas.
    simpl in Hhas. apply negb_false_iff in Hhas.
    pose proof (flat_map_nil_inv _ _ (k, vE) Hc Hin) as Hcm.
    unfold mismatchOf in Hcm. simpl in Hcm.
    unfold JSMap.has in Hhas.
    destruct (JSMap.get k fMap) as [fE|] eqn:Hf; [|discriminate].
    destruct (count fE =? count vE) eqn:E; [|discriminate].
    apply Nat.eqb_eq in E.
    apply get_In, In_makeCountMap in Hf. apply In_makeCountMap in Hin.
    destruct Hf as [_ [Hf _]]. destruct Hin as [_ [Hin _]]. congruence.
  - unfold vMap in Hv. rewrite get_makeCountMap in Hv.
    destruct (firstWith v k (courses validSem)) eqn:Hfw; [discriminate|].
    apply firstWith_None in Hfw. rewrite Hfw.
    destruct (JSMap.get k fMap) as [fE|] eqn:Hf.
    + pose proof (get_In _ _ _ Hf) as Hin.
      pose proof (filter_nil_inv _ _ (k, fE) He Hin) as Hhas.
      simpl in Hhas. apply negb_false_iff in Hhas.
      unfold vMap in Hhas. rewrite has_makeCountMap, Hfw in Hhas.
      discriminate.
    + unfold fMap in Hf. rewrite get_makeCountMap in Hf.
      destruct (firstWith v k (courses fetchedSem)) eqn:Hfw';
        [discriminate|].
      now apply firstWith_None in Hfw'.
Qed.

(** The indices from [i] on that a set of indices leaves out. *)
Lemma unpaired_length l : forall i paired,
  List.length (unpaired l i paired)
  = List.length (filter (fun x => negb (setHas x paired))
                        (List.seq i (List.length l))).
Proof.
  induction l as [|c l IH]; intros i paired; simpl; [reflexivity|].
  destruct (setHas i paired); simpl; now rewrite IH.
Qed.

Lemma filter_split_length {A} (f : A -> bool) l :
  List.length (filter f l) + List.length (filter (fun x => negb (f x)) l)
  = List.length l.
Proof.
  induction l as [|x l IH]; simpl; [reflexivity|].
  destruct (f x); simpl; lia.
Qed.

Lemma paired_count paired i n :
  NoDup paired -> (forall x, In x paired -> i <= x < i + n) ->
  List.length (filter (fun x => setHas x paired) (List.seq i n))
  = List.length paired.
Proof.
  intros Hnd Hin. apply Permutation_length.
  apply NoDup_Permutation.
  - apply NoDup_filter, seq_NoDup.
  - assumption.
  - intros x. rewrite filter_In, in_seq, paired_true. split.
    + tauto.
    + intros H. split; [|assumption]. now apply Hin.
Qed.

Lemma unpaired_conserved l paired :
  NoDup paired -> (forall x, In x paired -> x < List.length l) ->
  List.length paired + List.length (unpaired l 0 paired) = List.length l.
Proof.
  intros Hnd Hin. rewrite unpaired_length.
  rewrite <- (paired_count paired 0 (List.length l)) by
    (try assumption; intros x Hx; apply Hin in Hx; lia).
  rewrite filter_split_length. apply length_seq.
Qed.

Lemma pairedInOrder_indices ml el ds pm pe :
  pairedInOrder ml el ds pm pe ->
  NoDup pm /\ NoDup pe /\
  (forall x, In x pm -> x < List.length ml) /\
  (forall x, In x pe -> x < List.length el) /\
  Forall (fun d => isPaired d = true) ds.
Proof.
  induction 1 as [|ds pm pe d i j m e _ IH Hm He Hp Hlt Hnotin].
  - repeat split; try constructor; intros x [].
  - destruct IH as [Hpm [Hpe [Hml [Hel Hds]]]].
    split; [|split; [|split; [|split]]].
    + apply NoDup_rev in Hpm. rewrite <- (rev_involutive (pm ++ [i])).
      apply NoDup_rev. rewrite rev_app_distr. simpl.
      constructor; [|assumption]. rewrite <- in_rev. intros Hi.
      rewrite Forall_forall in Hlt. apply Hlt in Hi. lia.
    + apply NoDup_rev in Hpe. rewrite <- (rev_involutive (pe ++ [j])).
      apply NoDup_rev. rewrite rev_app_distr. simpl.
      constructor; [|assumption]. now rewrite <- in_rev.
    + intros x Hx. apply in_app_or in Hx. destruct Hx as [Hx|[<-|[]]].
      * now apply Hml.
      * apply nth_error_Some. congruence.
    + intros x Hx. apply in_app_or in Hx. destruct Hx as [Hx|[<-|[]]].
      * now apply Hel.
      * apply nth_error_Some. congruence.
    + apply Forall_app. split; [assumption|].
      constructor; [|constructor]. now destruct Hp as [-> | ->].
Qed.

Lemma filter_map_none {A} (f : DiffEntry -> bool) (mk : A -> DiffEntry) l :
  (forall x, f (mk x) = false) -> filter f (map mk l) = [].
Proof.
  intros H. induction l as [|x l IH]; simpl; [reflexivity|].
  now rewrite H.
Qed.

Lemma filter_map_all {A} (f : DiffEntry -> bool) (mk : A -> DiffEntry) l :
  (forall x, f (mk x) = true) -> filter f (map mk l) = map mk l.
Proof.
  intros H. induction l as [|x l IH]; simpl; [reflexivity|].
  now rewrite H, IH.
Qed.

(** X5. Nothing is lost and nothing is told twice: every reference
    fingerprint the live term lacks is told by exactly one diff, a
    missing entry or a paired entry; every live fingerprint the
    reference lacks by exactly one extra entry or paired entry; every
    fingerprint the terms share with different counts by exactly one
    count-mismatch; and there is no other diff. *)
Theorem diffs_account_for_candidates v fetchedSem validSem :
  let fMap := makeCountMap v (courses fetchedSem) in
  let vMap := makeCountMap v (courses validSem) in
  let ds := compareSemesters v fetchedSem validSem in
  List.length (filter isPaired ds) + List.length (filter isMissing ds)
  = List.length (missingCandidates fMap vMap) /\
  List.length (filter isPaired ds) + List.length (filter isExtra ds)
  = List.length (extraCandidates fMap vMap) /\
  List.length (filter isCountMismatch ds)
  = List.length (countMismatchesOf fMap vMap) /\
  List.length ds
  = List.length (filter isPaired ds) + List.length (filter isMissing ds)
    + List.length (filter isExtra ds)
    + List.length (filter isCountMismatch ds).
Proof.
  intros fMap vMap ds. unfold ds. rewrite compareSemesters_eq.
  fold fMap vMap.
  set (st := pairLoop v _ 0 _ _).
  pose proof (pairLoop_pairedInOrder v (missingCandidates fMap vMap)
                (extraCandidates fMap vMap)) as Hinv.
  fold st in Hinv.
  pose proof (pairedInOrder_lengths _ _ _ _ _ Hinv) as [Hlm Hle].
  pose proof (pairedInOrder_indices _ _ _ _ _ Hinv)
    as [Hpm [Hpe [Hml [Hel Hds]]]].
  assert (Hp : filter isPaired (diffs st) = diffs st).
  { apply filter_all. now apply Forall_forall. }
  assert (Hn : forall f, (forall d, isPaired d = true -> f d = false) ->
                         filter f (diffs st) = []).
  { intros f Hf. apply ReconciliationFacts.filter_none. intros d Hd.
    apply Hf. rewrite Forall_forall in Hds. now apply Hds. }
  rewrite !filter_app, !length_app.
  rewrite Hp.
  rewrite (Hn isMissing), (Hn isExtra), (Hn isCountMismatch)
    by (intros [] ; simpl; congruence).
  rewrite !(filter_map_none isPaired), !(filter_map_none isMissing extraDiff),
    !(filter_map_none isMissing CountMismatch),
    !(filter_map_none isExtra missingDiff),
    !(filter_map_none isExtra CountMismatch),
    !(filter_map_none isCountMismatch missingDiff),
    !(filter_map_none isCountMismatch extraDiff) by reflexivity.
  rewrite (filter_map_all isMissing missingDiff),
    (filter_map_all isExtra extraDiff),
    (filter_map_all isCountMismatch CountMismatch) by reflexivity.
  simpl. rewrite !length_map.
  pose proof (unpaired_conserved _ _ Hpm Hml).
  pose proof (unpaired_conserved _ _ Hpe Hel).
  repeat split; lia.
Qed.

(** Every paired diff passed the pair test. *)
Lemma pairLoop_tested v extraList ms : forall i st,
  Forall (fun d => exists m e, pairTest v m e = Some d) (diffs st) ->
  Forall (fun d => exists m e, pairTest v m e = Some d)
         (diffs (pairLoop v ms i extraList st)).
Proof.
  induction ms as [|m ms IH]; intros i st H; simpl; [assumption|].
  apply IH.
  destruct (scanExtra v m extraList 0 (pairedExtra st)) as [[j d]|] eqn:E;
    [|assumption].
  simpl. apply Forall_app. split; [assumption|].
  constructor; [|constructor].
  apply scanExtra_Some in E. destruct E as [e [_ [_ [_ Hp]]]]. eauto.
Qed.

Lemma pairTest_inv v m e d :
  pairTest v m e = Some d ->
  normalizeCredits (credits m) = normalizeCredits (credits e) /\
  ((d = PrerequisiteMismatch e m /\ v = Courses /\
    normalizeCode (code m) = normalizeCode (code e) /\
    normalizePrereq (prerequisite m) <> normalizePrereq (prerequisite e))
   \/
   (d = CodeMismatch e m /\ similarTitles (title m) (title e) = true)).
Proof.
  unfold pairTest.
  destruct (String.eqb (normalizeCredits (credits m))
                       (normalizeCredits (credits e))) eqn:Ec;
    [|discriminate].
  apply String.eqb_eq in Ec. simpl negb. cbv iota. cbv zeta.
  intros H. split; [assumption|]. destruct v.
  - destruct (String.eqb (normalizeCode (code m)) (normalizeCode (code e)))
      eqn:E1; simpl in H.
    + destruct (String.eqb (normalizePrereq (prerequisite m))
                           (normalizePrereq (prerequisite e))) eqn:E2;
        simpl in H.
      * destruct (similarTitles _ _) eqn:Es; [|discriminate].
        injection H as <-. right. auto.
      * injection H as <-. left.
        apply String.eqb_eq in E1. apply String.eqb_neq in E2. auto.
    + destruct (similarTitles _ _) eqn:Es; [|discriminate].
      injection H as <-. right. auto.
  - destruct (similarTitles _ _) eqn:Es; [|discriminate].
    injection H as <-. right. auto.
Qed.

(** X6. What a paired diff says: a prerequisite-mismatch entry is only
    written by compare_courses.js, for two courses with the same
    normalized credits and code and different normalized
    prerequisites; a code-mismatch entry is only written for two
    courses with the same normalized credits whose titles pass the
    similarity test. *)
Theorem paired_diffs_are_eligible v fetchedSem validSem :
  (forall e m,
     In (PrerequisiteMismatch e m) (compareSemesters v fetchedSem validSem) ->
     v = Courses /\
     normalizeCredits (credits m) = normalizeCredits (credits e) /\
     normalizeCode (code m) = normalizeCode (code e) /\
     normalizePrereq (prerequisite m) <> normalizePrereq (prerequisite e)) /\
  (forall e m,
     In (CodeMismatch e m) (compareSemesters v fetchedSem validSem) ->
     normalizeCredits (credits m) = normalizeCredits (credits e) /\
     similarTitles (title m) (title e) = true).
Proof.
  assert (H : forall d, In d (compareSemesters v fetchedSem validSem) ->
                        isPaired d = true ->
                        exists m e, pairTest v m e = Some d).
  { intros d Hd Hp. rewrite compareSemesters_eq in Hd.
    apply in_app_or in Hd. destruct Hd as [Hd|Hd].
    - pose proof (pairLoop_tested v
                    (extraCandidates (makeCountMap v (courses fetchedSem))
                                     (makeCountMap v (courses validSem)))
                    (missingCandidates (makeCountMap v (courses fetchedSem))
                                       (makeCountMap v (courses validSem)))
                    0 (mkPairing [] [] []) (Forall_nil _)) as Ht.
      rewrite Forall_forall in Ht. now apply Ht.
    - exfalso. repeat (apply in_app_or in Hd; destruct Hd as [Hd|Hd]);
        apply in_map_iff in Hd; destruct Hd as [x [<- _]]; discriminate. }
  split; intros e m Hin; destruct (H _ Hin eq_refl) as [m' [e' Hp]];
    apply pairTest_inv in Hp; destruct Hp as [Hc [[Hd Hr]|[Hd Hr]]];
    try discriminate; injection Hd as <- <-; tauto.
Qed.

Lemma scanExtra_before v m pairedExtra es : forall j0 j d,
  scanExtra v m es j0 pairedExtra = Some (j, d) ->
  forall n e', j0 + n < j -> nth_error es n = Some e' ->
    In (j0 + n) pairedExtra \/
    pairTest v (sample (snd m)) (sample (snd e')) = None.
Proof.
  induction es as [|e es IH]; intros j0 j d H n e' Hlt Hn;
    [now destruct n|].
  simpl in H. destruct n as [|n]; simpl in Hn.
  - injection Hn as <-. rewrite Nat.add_0_r in *.
    destruct (setHas j0 pairedExtra) eqn:Hhas.
    + left. now apply paired_true.
    + destruct (pairTest v _ _) eqn:Hp; [|now right].
      injection H as <- _. lia.
  - replace (j0 + S n) with (S j0 + n) in * by lia.
    apply (IH (S j0) j d); try assumption.
    destruct (setHas j0 pairedExtra); [assumption|].
    destruct (pairTest v _ _); [|assumption].
    injection H as <- _. lia.
Qed.

(** X7. First fit: the inner loop pairs a missing candidate with the
    first extra candidate that is not paired yet and passes the pair
    test; every extra candidate before it is paired already or fails
    the test, and when the loop finds none, this holds of every extra
    candidate. *)
Theorem first_eligible_extra_wins v m extraList pairedExtra :
  (forall j d,
     scanExtra v m extraList 0 pairedExtra = Some (j, d) ->
     (exists e, nth_error extraList j = Some e /\ ~ In j pairedExtra /\
                pairTest v (sample (snd m)) (sample (snd e)) = Some d) /\
     forall j' e', j' < j -> nth_error extraList j' = Some e' ->
       In j' pairedExtra \/
       pairTest v (sample (snd m)) (sample (snd e')) = None) /\
  (scanExtra v m extraList 0 pairedExtra = None ->
   forall j' e', nth_error extraList j' = Some e' ->
     In j' pairedExtra \/
     pairTest v (sample (snd m)) (sample (snd e')) = None).
Proof.
  split.
  - intros j d H. split.
    + apply scanExtra_Some in H. destruct H as [e [_ [Hn H]]].
      rewrite Nat.sub_0_r in Hn. eauto.
    + intros j' e' Hlt Hn.
      exact (scanExtra_before v m pairedExtra extraList 0 j d H j' e'
               Hlt Hn).
  - intros H j' e' Hn.
    exact (scanExtra_None v m pairedExtra extraList 0 H j' e' Hn).
Qed.

End DiffFacts.

(* ================================================================== *)
(** * Further facts about the sheet map, the matching and the report *)

Module MatchingFacts.
Import JSString Catalog Compare Reconciliation Coverage Exit.
Import JSMapFacts CountMapFacts LoopFacts EngineFacts ReportFacts.

(** One step of the loop of [buildSheetSemesterMap]. *)
Lemma sheetStep_get (m : JSMap.t semester) sem k :
  let key := keyOf sem in
  let m1 := if negb (JSMap.has key m)
            then JSMap.set key (mkSemester key []) m else m in
  let m2 := match JSMap.get key m1 with
            | Some group =>
                JSMap.set key
                  (mkSemester (name group) (courses group ++ courses sem)) m1
            | None => m1
            end in
  JSMap.get k m2
  = if String.eqb (keyOf sem) k
    then match JSMap.get k m with
         | Some g => Some (mkSemester (name g) (courses g ++ courses sem))
         | None => Some (mkSemester k (courses sem))
         end
    else JSMap.get k m.
Proof.
  intros key m1 m2. unfold m2, m1, JSMap.has. clear m1 m2.
  destruct (String.eqb (keyOf sem) k) eqn:E.
  - apply String.eqb_eq in E. unfold key. rewrite E.
    destruct (JSMap.get k m) as [g|] eqn:Hg; simpl negb; cbv iota.
    + rewrite Hg. apply get_set_same.
    + rewrite get_set_same. apply get_set_same.
  - apply String.eqb_neq in E. fold key in E.
    destruct (JSMap.get key m) as [g|] eqn:Hg; simpl negb; cbv iota.
    + rewrite Hg. apply get_set_other. congruence.
    + rewrite get_set_same. rewrite !get_set_other by congruence.
      reflexivity.
Qed.

Lemma sheetStep_keys (m : JSMap.t semester) sem :
  let key := keyOf sem in
  let m1 := if negb (JSMap.has key m)
            then JSMap.set key (mkSemester key []) m else m in
  let m2 := match JSMap.get key m1 with
            | Some group =>
                JSMap.set key
                  (mkSemester (name group) (courses group ++ courses sem)) m1
            | None => m1
            end in
  JSMap.keys m2
  = if JSMap.has key m then JSMap.keys m else JSMap.keys m ++ [key].
Proof.
  intros key m1 m2. unfold m2, m1. clear m1 m2.
  destruct (JSMap.has key m) eqn:Hhas; simpl negb; cbv iota.
  - unfold JSMap.has in Hhas.
    destruct (JSMap.get key m) eqn:Hg; [|discriminate].
    rewrite keys_set. unfold JSMap.has. now rewrite Hg.
  - rewrite get_set_same. rewrite !keys_set. rewrite Hhas.
    unfold JSMap.has. now rewrite get_set_same.
Qed.

Lemma sheetMap_fold_get sems : forall (m0 : JSMap.t semester) k,
  JSMap.get k
    (fold_left
       (fun map sem =>
          let key := if truthy (name sem) then name sem else "(unknown)" in
          let map := if negb (JSMap.has key map)
                     then JSMap.set key (mkSemester key []) map
                     else map in
          match JSMap.get key map with
          | Some group =>
              JSMap.set key
                (mkSemester (name group) (courses group ++ courses sem)) map
          | None => map
          end)
       sems m0)
  = match JSMap.get k m0 with
    | Some g => Some (mkSemester (name g) (courses g ++ groupCourses k sems))
    | None =>
        if existsb (fun sem => String.eqb (keyOf sem) k) sems
        then Some (mkSemester k (groupCourses k sems))
        else None
    end.
Proof.
  induction sems as [|sem sems IH]; intros m0 k.
  - simpl. unfold groupCourses. simpl.
    destruct (JSMap.get k m0) as [[n cs]|]; [|reflexivity].
    simpl. now rewrite app_nil_r.
  - simpl fold_left. rewrite IH. fold (keyOf sem).
    rewrite (sheetStep_get m0 sem k).
    unfold groupCourses. simpl filter. simpl existsb.
    destruct (String.eqb (keyOf sem) k) eqn:E.
    + simpl. destruct (JSMap.get k m0) as [g|]; simpl.
      * now rewrite <- app_assoc.
      * reflexivity.
    + simpl. reflexivity.
Qed.

Lemma sheetMap_fold_keys sems : forall (m0 : JSMap.t semester),
  NoDup (JSMap.keys m0) ->
  (forall k, In k (JSMap.keys m0) -> truthy k = true) ->
  let m := fold_left
       (fun map sem =>
          let key := if truthy (name sem) then name sem else "(unknown)" in
          let map := if negb (JSMap.has key map)
                     then JSMap.set key (mkSemester key []) map
                     else map in
          match JSMap.get key map with
          | Some group =>
              JSMap.set key
                (mkSemester (name group) (courses group ++ courses sem)) map
          | None => map
          end)
       sems m0 in
  NoDup (JSMap.keys m) /\ (forall k, In k (JSMap.keys m) -> truthy k = true).
Proof.
  induction sems as [|sem sems IH]; intros m0 Hnd Htr; [now split|].
  simpl fold_left. apply IH; fold (keyOf sem);
    rewrite (sheetStep_keys m0 sem);
    destruct (JSMap.has (keyOf sem) m0) eqn:Hhas; try assumption.
  - apply NoDup_rev in Hnd.
    rewrite <- (rev_involutive (JSMap.keys m0 ++ [keyOf sem])).
    apply NoDup_rev. rewrite rev_app_distr. simpl.
    constructor; [|assumption]. rewrite <- in_rev.
    intros Hin. apply has_true in Hin. congruence.
  - intros k Hk. apply in_app_or in Hk. destruct Hk as [Hk|[<-|[]]].
    + now apply Htr.
    + unfold keyOf. now destruct (truthy (name sem)) eqn:E.
Qed.

(** X8. The sheet map: a group is filed under its name, or under
    "(unknown)" when the name is empty; the groups filed under one key
    are merged, their courses concatenated in the order of the sheet;
    no key is repeated and no key is the empty string. *)
Theorem sheet_map_contents sheet :
  (forall k,
     JSMap.get k (buildSheetSemesterMap sheet)
     = if existsb (fun sem => String.eqb (keyOf sem) k) sheet
       then Some (mkSemester k (groupCourses k sheet))
       else None) /\
  NoDup (JSMap.keys (buildSheetSemesterMap sheet)) /\
  (forall k, In k (JSMap.keys (buildSheetSemesterMap sheet)) ->
             truthy k = true /\
             exists sem, In sem sheet /\ keyOf sem = k).
Proof.
  assert (Hget : forall k,
     JSMap.get k (buildSheetSemesterMap sheet)
     = if existsb (fun sem => String.eqb (keyOf sem) k) sheet
       then Some (mkSemester k (groupCourses k sheet))
       else None).
  { intros k. unfold buildSheetSemesterMap. now rewrite sheetMap_fold_get. }
  destruct (sheetMap_fold_keys sheet [] (NoDup_nil _)
              (fun k (H : In k []) => match H with end)) as [Hnd Htr].
  split; [exact Hget|]. split; [exact Hnd|].
  intros k Hk. split; [now apply Htr|].
  apply has_true in Hk. unfold JSMap.has in Hk.
  fold (buildSheetSemesterMap sheet) in Hk. rewrite Hget in Hk.
  destruct (existsb _ sheet) eqn:E; [|discriminate].
  apply existsb_exists in E. destruct E as [sem [Hin Heq]].
  apply String.eqb_eq in Heq. eauto.
Qed.

(** X9. The key [main] matches a scraped term with is a key of the
    sheet map: the lookup of the matched group never comes back
    empty. *)
Theorem matched_key_is_a_key (sheetMap : JSMap.t semester) scrapedSem k :
  matchedKey sheetMap scrapedSem = Some k ->
  In k (JSMap.keys sheetMap) /\
  exists group, JSMap.get k sheetMap = Some group.
Proof.
  intros H.
  assert (Hin : In k (JSMap.keys sheetMap)).
  { unfold matchedKey in H.
    destruct (JSMap.has (name scrapedSem) sheetMap) eqn:Hhas.
    - injection H as <-. now apply has_true.
    - destruct (find _ (JSMap.keys sheetMap)) as [k1|] eqn:F1.
      + apply find_some in F1. destruct F1 as [F1 _].
        destruct (negb (truthy_opt (Some k1))).
        * destruct (semesterNumber (name scrapedSem)) as [n|].
          -- destruct (find (fun k0 => sameNumber k0 n) _) as [k2|] eqn:F2.
             ++ apply find_some in F2. destruct F2 as [F2 _]. congruence.
             ++ congruence.
          -- congruence.
        * congruence.
      + simpl in H.
        destruct (semesterNumber (name scrapedSem)) as [n|];
          [|discriminate].
        destruct (find (fun k0 => sameNumber k0 n) _) as [k2|] eqn:F2;
          [|discriminate].
        apply find_some in F2. destruct F2 as [F2 _]. congruence. }
  split; [assumption|].
  destruct (JSMap.get k sheetMap) eqn:E; [eauto|].
  apply get_None in E. contradiction.
Qed.

End MatchingFacts.

(* ================================================================== *)
(** * Further facts about the report and the exit status *)

Module ReportOrderFacts.
Import JSString Catalog Compare Reconciliation Coverage Exit.
Import JSMapFacts CountMapFacts LoopFacts EngineFacts ReportFacts.
Import MatchingFacts.

Lemma compareScraped_names v sheetMap l : forall acc,
  exists first,
    fst (fold_left (reportScraped v sheetMap) l acc) = fst acc ++ first /\
    map Report.name first = map name l.
Proof.
  induction l as [|sem l IH]; intros [semesters keys].
  - exists []. simpl. now rewrite app_nil_r.
  - simpl fold_left.
    destruct (IH (reportScraped v sheetMap (semesters, keys) sem))
      as [first [H1 H2]].
    unfold reportScraped in H1 at 2. simpl fst in H1.
    eexists (_ :: first). split.
    + rewrite H1. rewrite <- app_assoc. reflexivity.
    + simpl. now rewrite H2.
Qed.

Lemma compareUnmatched_cons v matched key g (m : JSMap.t semester)
      semesters :
  compareUnmatched v ((key, g) :: m) matched semesters
  = compareUnmatched v m matched
      (if mem key matched then semesters
       else
         let diffs := compareSemesters v (mkSemester key []) g in
         if 0 <? List.length diffs
         then semesters ++
                [Report.mkSemester ("(extra in valid) " ++ key) key
                                   (List.length diffs) diffs]
         else semesters).
Proof. reflexivity. Qed.

Lemma compareUnmatched_rest v matched (keys : list string)
      (m : JSMap.t semester) : forall semesters,
  (forall kv, In kv m -> In (fst kv) keys) ->
  exists rest,
    compareUnmatched v m matched semesters = semesters ++ rest /\
    Forall (fun r =>
              exists key, In key keys /\ mem key matched = false /\
                Report.name r = ("(extra in valid) " ++ key)%string /\
                Report.validKey r = key /\ 0 < Report.diffCount r)
           rest.
Proof.
  induction m as [|[key g] m IH]; intros semesters Hk.
  - exists []. simpl. now rewrite app_nil_r.
  - rewrite compareUnmatched_cons.
    assert (Hk' : forall kv, In kv m -> In (fst kv) keys)
      by (intros kv H; apply Hk; now right).
    destruct (mem key matched) eqn:Hmem; [now apply IH|].
    cbv zeta.
    destruct (0 <? List.length (compareSemesters v (mkSemester key []) g))
      eqn:Hpos; [|now apply IH].
    destruct (IH (semesters ++
                    [Report.mkSemester ("(extra in valid) " ++ key) key
                       (List.length
                          (compareSemesters v (mkSemester key []) g))
                       (compareSemesters v (mkSemester key []) g)])
                 Hk') as [rest [H1 H2]].
    eexists (_ :: rest). split.
    + rewrite H1, <- app_assoc. reflexivity.
    + constructor; [|exact H2]. exists key. simpl.
      repeat split; try assumption.
      * apply (Hk (key, g)). now left.
      * now apply Nat.ltb_lt.
Qed.

(** X10. The order of the report: first one element per scraped term,
    in the order of the scraped catalog and under the scraped name,
    matched or not; then the sheet groups no scraped term matched, each
    under the name "(extra in valid) " followed by its key, and only
    those that have a diff. *)
Theorem report_follows_scraped_order v scraped sheet :
  exists first rest,
    main v scraped sheet = first ++ rest /\
    map Report.name first = map name scraped /\
    Forall (fun r =>
              exists key,
                In key (JSMap.keys (buildSheetSemesterMap sheet)) /\
                Report.name r = ("(extra in valid) " ++ key)%string /\
                Report.validKey r = key /\ 0 < Report.diffCount r)
           rest.
Proof.
  unfold main, compareScraped.
  destruct (compareScraped_names v (buildSheetSemesterMap sheet) scraped
              ([], [])) as [first [H1 H2]].
  destruct (fold_left _ scraped ([], [])) as [semesters matched].
  simpl in H1. subst semesters.
  destruct (compareUnmatched_rest v matched
              (JSMap.keys (buildSheetSemesterMap sheet))
              (buildSheetSemesterMap sheet) first)
    as [rest [H3 H4]].
  - intros kv Hin. now apply in_map.
  - exists first, rest. split; [exact H3|]. split; [exact H2|].
    eapply Forall_impl; [|exact H4]. intros r [key H]. exists key. tauto.
Qed.

Lemma compareSemesters_same v a b :
  courses a = courses b -> compareSemesters v a b = [].
Proof.
  intros H. rewrite compareSemesters_eq. rewrite H.
  set (M := makeCountMap v (courses b)).
  assert (Hm : missingCandidates M M = []).
  { apply ReconciliationFacts.filter_none. intros [k e] Hin. simpl.
    apply negb_false_iff. apply has_true. now apply (in_map fst) in Hin. }
  assert (Hc : countMismatchesOf M M = []).
  { apply ReconciliationFacts.flat_map_none. intros [k e] Hin.
    unfold mismatchOf. simpl.
    rewrite (In_get M k e (NoDup_keys_makeCountMap v (courses b)) Hin).
    now rewrite Nat.eqb_refl. }
  unfold extraCandidates. fold (missingCandidates M M).
  rewrite Hm, Hc. reflexivity.
Qed.

Lemma filter_own_name (l : list semester) x :
  NoDup (map name l) -> In x l ->
  filter (fun y => String.eqb (name y) (name x)) l = [x].
Proof.
  induction l as [|y l IH]; intros Hnd Hin; [destruct Hin|].
  simpl in Hnd. inversion Hnd as [|? ? Hnotin Hnd']; subst. simpl.
  destruct Hin as [->|Hin].
  - rewrite String.eqb_refl. f_equal.
    apply ReconciliationFacts.filter_none. intros z Hz.
    apply String.eqb_neq. intros Heq. apply Hnotin. rewrite <- Heq.
    now apply in_map.
  - destruct (String.eqb (name y) (name x)) eqn:E.
    + apply String.eqb_eq in E. exfalso. apply Hnotin. rewrite E.
      now apply in_map.
    + now apply IH.
Qed.

Lemma totalDiffs_zero l : forall a,
  fold_left (fun total r => total + Report.diffCount r) l a = 0
  <-> a = 0 /\ Forall (fun r => Report.diffCount r = 0) l.
Proof.
  induction l as [|r l IH]; intros a; simpl.
  - split; [intros ->; auto|tauto].
  - rewrite IH. split.
    + intros [H1 H2]. split; [lia|]. constructor; [lia|assumption].
    + intros [-> H]. inversion H; subst. split; [lia|assumption].
Qed.

Section SameCatalog.
Variables (v : variant) (cat : list semester).
Hypothesis Hnames : NoDup (map name cat).
Hypothesis Htruthy : forall sem, In sem cat -> truthy (name sem) = true.

Lemma keyOf_name sem : In sem cat -> keyOf sem = name sem.
Proof. intros H. unfold keyOf. now rewrite Htruthy. Qed.

Lemma same_group sem :
  In sem cat ->
  JSMap.get (name sem) (buildSheetSemesterMap cat)
  = Some (mkSemester (name sem) (courses sem)).
Proof.
  intros Hin. unfold buildSheetSemesterMap. rewrite sheetMap_fold_get.
  simpl JSMap.get. cbv iota.
  assert (E : existsb (fun s => String.eqb (keyOf s) (name sem)) cat = true).
  { apply existsb_exists. exists sem. split; [assumption|].
    rewrite keyOf_name by assumption. apply String.eqb_refl. }
  rewrite E. f_equal. f_equal. unfold groupCourses.
  rewrite filter_ext_in with (g := fun y => String.eqb (name y) (name sem)).
  - rewrite filter_own_name by assumption. simpl. apply app_nil_r.
  - intros y Hy. now rewrite keyOf_name.
Qed.

Lemma same_scraped l : forall semesters keys,
  incl l cat ->
  fold_left (reportScraped v (buildSheetSemesterMap cat)) l (semesters, keys)
  = (semesters
       ++ map (fun sem => Report.mkSemester (name sem) (name sem) 0 []) l,
     keys ++ map name l).
Proof.
  induction l as [|sem l IH]; intros semesters keys Hincl.
  - simpl. now rewrite !app_nil_r.
  - assert (Hin : In sem cat) by (apply Hincl; now left).
    cbn [fold_left].
    pose proof (same_group sem Hin) as Hg.
    replace (reportScraped v (buildSheetSemesterMap cat) (semesters, keys) sem)
      with (semesters ++ [Report.mkSemester (name sem) (name sem) 0 []],
            keys ++ [name sem]).
    + rewrite IH by (intros x Hx; apply Hincl; now right).
      now rewrite <- !app_assoc.
    + assert (Hk : matchedKey (buildSheetSemesterMap cat) sem
                   = Some (name sem)).
      { unfold matchedKey, JSMap.has. now rewrite Hg. }
      unfold reportScraped. rewrite Hk.
      change (truthy_opt (Some (name sem))) with (truthy (name sem)).
      rewrite (Htruthy sem Hin). simpl orEmpty. rewrite Hg.
      rewrite (compareSemesters_same v sem
                 (mkSemester (name sem) (courses sem)) eq_refl).
      reflexivity.
Qed.

Lemma same_unmatched (m : JSMap.t semester) matched : forall semesters,
  (forall kv, In kv m -> mem (fst kv) matched = true) ->
  compareUnmatched v m matched semesters = semesters.
Proof.
  induction m as [|[key g] m IH]; intros semesters H; [reflexivity|].
  rewrite compareUnmatched_cons.
  assert (Hm : mem key matched = true) by (apply (H (key, g)); now left).
  rewrite Hm. apply IH. intros kv Hkv. apply H. now right.
Qed.

Lemma same_main :
  main v cat cat
  = map (fun sem => Report.mkSemester (name sem) (name sem) 0 []) cat.
Proof.
  unfold main, compareScraped. rewrite same_scraped by apply incl_refl.
  simpl app. apply same_unmatched. intros [key g] Hin. simpl.
  apply mem_In.
  assert (Hk : In key (JSMap.keys (buildSheetSemesterMap cat)))
    by (now apply (in_map fst) in Hin).
  apply has_true in Hk. unfold JSMap.has, buildSheetSemesterMap in Hk.
  rewrite sheetMap_fold_get in Hk. simpl JSMap.get in Hk.
  destruct (existsb _ cat) eqn:E; [|discriminate].
  apply existsb_exists in E. destruct E as [sem [Hs Heq]].
  apply String.eqb_eq in Heq. rewrite keyOf_name in Heq by assumption.
  subst key. now apply in_map.
Qed.

End SameCatalog.

(** X11. A catalog compared with itself: when the names of its terms
    are distinct and not empty, every term is matched with itself by
    name, the report has one element per term with no diff, no sheet
    group is left over, and the exit status is 0. *)
Theorem catalog_matches_itself v cat :
  NoDup (map name cat) ->
  (forall sem, In sem cat -> truthy (name sem) = true) ->
  main v cat cat
  = map (fun sem => Report.mkSemester (name sem) (name sem) 0 []) cat /\
  exitStatus v cat cat = 0.
Proof.
  intros Hnd Htr. pose proof (same_main v cat Hnd Htr) as H.
  split; [exact H|]. unfold exitStatus, totalDiffs. rewrite H.
  replace (fold_left _ _ 0) with 0; [reflexivity|].
  symmetry. apply totalDiffs_zero. split; [reflexivity|].
  apply Forall_forall. intros r Hr. apply in_map_iff in Hr.
  now destruct Hr as [sem [<- _]].
Qed.

(** X12. The exit status is 0 exactly when no element of the report
    has a diff, and 1 otherwise. *)
Theorem exit_status_tells_differences v scraped sheet :
  (exitStatus v scraped sheet = 0 <->
   Forall (fun r => Report.diffs r = []) (main v scraped sheet)) /\
  (exitStatus v scraped sheet = 0 \/ exitStatus v scraped sheet = 1).
Proof.
  assert (Hwf : Forall wellFormed (main v scraped sheet)).
  { unfold main.
    pose proof (compareScraped_wellFormed v (buildSheetSemesterMap sheet)
                  scraped ([], []) (Forall_nil _)) as H.
    fold (compareScraped v (buildSheetSemesterMap sheet) scraped) in H.
    destruct (compareScraped v (buildSheetSemesterMap sheet) scraped)
      as [semesters keys].
    simpl in H. now apply compareUnmatched_wellFormed. }
  unfold exitStatus, totalDiffs. split.
  - destruct (fold_left _ (main v scraped sheet) 0 =? 0) eqn:E.
    + apply Nat.eqb_eq, totalDiffs_zero in E. destruct E as [_ E].
      split; [|reflexivity]. intros _.
      rewrite Forall_forall in *. intros r Hr.
      specialize (E r Hr). destruct (Hwf r Hr) as [Hc _].
      rewrite Hc in E. now apply length_zero_iff_nil.
    + split; [discriminate|]. intros H. exfalso.
      apply Nat.eqb_neq in E. apply E. apply totalDiffs_zero.
      split; [reflexivity|]. rewrite Forall_forall in *.
      intros r Hr. destruct (Hwf r Hr) as [Hc _].
      rewrite Hc, (H r Hr). reflexivity.
  - destruct (_ =? 0); auto.
Qed.

End ReportOrderFacts.

(* ================================================================== *)
(** * Normalized fields *)

Module NormalizationFacts.
Import JSString Catalog Compare Reconciliation Coverage.

Local Abbreviation ltrim l := (dropWhile is_space l).
Local Abbreviation rtrim l := (rev (dropWhile is_space (rev l))).

Lemma chars_of_chars l : chars (of_chars l) = l.
Proof. apply list_ascii_of_string_of_list_ascii. Qed.

Lemma of_chars_chars s : of_chars (chars s) = s.
Proof. apply string_of_list_ascii_of_string. Qed.

Lemma chars_append a b : chars (a ++ b)%string = chars a ++ chars b.
Proof. induction a as [|c a IH]; simpl; [reflexivity|]. now rewrite IH. Qed.

Lemma chars_map f s : chars (map_string f s) = map f (chars s).
Proof. induction s as [|c s IH]; simpl; [reflexivity|]. now rewrite IH. Qed.

Lemma of_chars_map f l : of_chars (map f l) = map_string f (of_chars l).
Proof. induction l as [|c l IH]; simpl; [reflexivity|]. now rewrite IH. Qed.

Lemma dropWhile_idem p l : dropWhile p (dropWhile p l) = dropWhile p l.
Proof.
  induction l as [|c l IH]; simpl; [reflexivity|].
  destruct (p c) eqn:E; [assumption|]. simpl. now rewrite E.
Qed.

Lemma dropWhile_snoc p l c :
  p c = false -> dropWhile p (l ++ [c]) = dropWhile p l ++ [c].
Proof.
  intros H. induction l as [|x l IH]; simpl.
  - now rewrite H.
  - destruct (p x); [assumption|reflexivity].
Qed.

Lemma dropWhile_map p f l :
  (forall c, p (f c) = p c) ->
  dropWhile p (map f l) = map f (dropWhile p l).
Proof.
  intros H. induction l as [|c l IH]; simpl; [reflexivity|].
  rewrite H. destruct (p c); [assumption|reflexivity].
Qed.

Lemma dropWhile_keeps p c l : p c = false -> dropWhile p (c :: l) = c :: l.
Proof. intros H. simpl. now rewrite H. Qed.

Lemma trim_chars s : chars (trim s) = rtrim (ltrim (chars s)).
Proof. unfold trim. apply chars_of_chars. Qed.

(** A list that starts and ends with a character that is no space is
    left as it is. *)
Lemma ends_trimmed L c l z Z :
  L = c :: l -> is_space c = false ->
  rev L = z :: Z -> is_space z = false ->
  rtrim (ltrim L) = L.
Proof.
  intros HL Hc HR Hz. rewrite HL at 1. rewrite (dropWhile_keeps _ _ _ Hc).
  rewrite <- HL, HR, (dropWhile_keeps _ _ _ Hz), <- HR.
  apply rev_involutive.
Qed.

(** What trimming leaves starts and ends with a character that is no
    space, unless it is empty. *)
Lemma trimmed_ends L :
  rtrim (ltrim L) <> [] ->
  (exists c l, rtrim (ltrim L) = c :: l /\ is_space c = false) /\
  (exists z Z, rev (rtrim (ltrim L)) = z :: Z /\ is_space z = false).
Proof.
  intros Hne.
  destruct (ltrim L) as [|c l] eqn:EL; [now destruct Hne|].
  pose proof (StringFacts.dropWhile_head _ _ _ _ EL) as Hc.
  split.
  - simpl rev. rewrite (dropWhile_snoc _ _ _ Hc), rev_app_distr. simpl.
    eauto.
  - rewrite rev_involutive.
    destruct (dropWhile is_space (rev (c :: l))) as [|z Z] eqn:ER.
    + simpl in Hne. now destruct Hne.
    + pose proof (StringFacts.dropWhile_head _ _ _ _ ER). eauto.
Qed.

Lemma trim_idem s : trim (trim s) = trim s.
Proof.
  unfold trim at 1. rewrite trim_chars.
  destruct (list_eq_dec ascii_dec (rtrim (ltrim (chars s))) []) as [E|Hne].
  - rewrite E. simpl. unfold trim. now rewrite E.
  - destruct (trimmed_ends _ Hne) as [[c [l [H1 H2]]] [z [Z [H3 H4]]]].
    rewrite (ends_trimmed _ c l z Z H1 H2 H3 H4). reflexivity.
Qed.

Lemma trim_map f s :
  (forall c, is_space (f c) = is_space c) ->
  trim (map_string f s) = map_string f (trim s).
Proof.
  intros H. unfold trim. rewrite chars_map.
  rewrite (dropWhile_map _ _ _ H), <- map_rev.
  rewrite (dropWhile_map _ _ _ H), <- map_rev.
  apply of_chars_map.
Qed.

Lemma space_upper c : is_space (upper_char c) = is_space c.
Proof.
  destruct c as [b0 b1 b2 b3 b4 b5 b6 b7].
  destruct b0, b1, b2, b3, b4, b5, b6, b7; reflexivity.
Qed.

Lemma space_lower_char c : is_space (lower_char c) = is_space c.
Proof.
  destruct c as [b0 b1 b2 b3 b4 b5 b6 b7].
  destruct b0, b1, b2, b3, b4, b5, b6, b7; reflexivity.
Qed.

Lemma upper_upper c : upper_char (upper_char c) = upper_char c.
Proof.
  destruct c as [b0 b1 b2 b3 b4 b5 b6 b7].
  destruct b0, b1, b2, b3, b4, b5, b6, b7; reflexivity.
Qed.

Lemma upper_lower c : upper_char (lower_char c) = upper_char c.
Proof.
  destruct c as [b0 b1 b2 b3 b4 b5 b6 b7].
  destruct b0, b1, b2, b3, b4, b5, b6, b7; reflexivity.
Qed.

Lemma map_string_compose f g h s :
  (forall c, f (g c) = h c) ->
  map_string f (map_string g s) = map_string h s.
Proof.
  intros H. induction s as [|c s IH]; simpl; [reflexivity|].
  now rewrite H, IH.
Qed.

Lemma truthy_map f s : truthy (map_string f s) = truthy s.
Proof. now destruct s. Qed.

Lemma normalizeCredits_some s : normalizeCredits (Some s) = trim s.
Proof. unfold normalizeCredits. destruct s; reflexivity. Qed.

Lemma normalizeCode_some s : normalizeCode (Some s) = toUpperCase (trim s).
Proof. unfold normalizeCode. destruct s; reflexivity. Qed.

Lemma normalizeCredits_idem c :
  normalizeCredits (Some (normalizeCredits c)) = normalizeCredits c.
Proof.
  rewrite normalizeCredits_some. destruct c as [s|]; [|reflexivity].
  rewrite normalizeCredits_some. apply trim_idem.
Qed.

Lemma normalizeCode_idem c :
  normalizeCode (Some (normalizeCode c)) = normalizeCode c.
Proof.
  rewrite normalizeCode_some. destruct c as [s|]; [|reflexivity].
  rewrite normalizeCode_some. unfold toUpperCase.
  rewrite (trim_map _ _ space_upper), trim_idem.
  apply map_string_compose, upper_upper.
Qed.

(** X13. Normalized fields stay as they are: normalizing a code or a
    credits text a second time changes nothing, a code is compared
    without regard to the case of its letters, and a course whose code
    and credits are replaced by their normalized texts keeps its
    fingerprint.  The facts about codes are stated of codes made of
    ASCII characters, where the case conversion is that of
    JavaScript. *)
Theorem normalization_is_stable :
  (forall c, Names.asciiText (orEmpty c) ->
             normalizeCode (Some (normalizeCode c)) = normalizeCode c) /\
  (forall c, normalizeCredits (Some (normalizeCredits c))
             = normalizeCredits c) /\
  (forall s, Names.asciiText s ->
             normalizeCode (Some (toLowerCase s)) = normalizeCode (Some s)) /\
  forall v c,
    Names.asciiText (orEmpty (code c)) ->
    fingerprint v (mkCourse (serial c) (Some (normalizeCode (code c)))
                            (title c) (Some (normalizeCredits (credits c)))
                            (prerequisite c))
    = fingerprint v c.
Proof.
  split; [intros c _; apply normalizeCode_idem|].
  split; [exact normalizeCredits_idem|]. split.
  - intros s _. rewrite !normalizeCode_some. unfold toLowerCase, toUpperCase.
    rewrite (trim_map _ _ space_lower_char).
    apply map_string_compose, upper_lower.
  - intros v c _. unfold fingerprint. simpl.
    rewrite normalizeCode_idem, normalizeCredits_idem. reflexivity.
Qed.

Lemma trim_fixed_chars x :
  trim x <> "" ->
  (exists c l, chars (trim x) = c :: l /\ is_space c = false) /\
  (exists z Z, rev (chars (trim x)) = z :: Z /\ is_space z = false).
Proof.
  intros Hne. rewrite trim_chars. apply trimmed_ends.
  intros E. apply Hne. unfold trim. now rewrite E.
Qed.

Lemma trim_plus a b :
  trim a <> "" -> trim b <> "" ->
  trim (trim a ++ "+" ++ trim b) = (trim a ++ "+" ++ trim b)%string.
Proof.
  intros Ha Hb.
  destruct (trim_fixed_chars a Ha) as [[c [l [H1 H2]]] _].
  destruct (trim_fixed_chars b Hb) as [_ [z [Z [H3 H4]]]].
  unfold trim at 1.
  rewrite (ends_trimmed (chars (trim a ++ "+" ++ trim b)) c
             (l ++ chars ("+" ++ trim b)) z
             (Z ++ rev (chars (trim a ++ "+")))).
  - apply of_chars_chars.
  - rewrite chars_append, H1. reflexivity.
  - assumption.
  - change (trim a ++ "+" ++ trim b)%string
      with (trim a ++ ("+" ++ trim b))%string.
    rewrite chars_append. change (chars ("+" ++ trim b))
      with ("+"%char :: chars (trim b)).
    rewrite rev_app_distr. simpl rev at 1. rewrite <- app_assoc.
    rewrite H3. simpl. f_equal. f_equal.
    rewrite chars_append, rev_app_distr. reflexivity.
  - assumption.
Qed.

(** X14. The credits the sheet converter makes: with t the trimmed
    teaching hours and l the trimmed lab hours, both taken as empty
    when absent, they are t+l when neither is empty, the one that is
    not empty otherwise, and absent when both are empty.  So they are
    absent exactly when both the teaching and the lab hours are absent
    or blank, and credits that are made are a text that is not empty
    and that the credits normalization of the comparison leaves as it
    is. *)
Theorem sheet_credits_are_normalized teaching labs :
  Sheet.makeCredits teaching labs
  = (let t := trim (orEmpty teaching) in
     let l := trim (orEmpty labs) in
     if truthy t
     then if truthy l then Some (t ++ "+" ++ l)%string else Some t
     else if truthy l then Some l else None) /\
  (Sheet.makeCredits teaching labs = None <->
   trim (orEmpty teaching) = "" /\ trim (orEmpty labs) = "") /\
  forall c, Sheet.makeCredits teaching labs = Some c ->
    c <> "" /\ trim c = c /\ normalizeCredits (Some c) = c.
Proof.
  assert (Ht : match teaching with Some x => trim x | None => "" end
               = trim (orEmpty teaching)) by now destruct teaching.
  assert (Hl : match labs with Some x => trim x | None => "" end
               = trim (orEmpty labs)) by now destruct labs.
  assert (Hfalsy : forall x, truthy_opt x = false -> trim (orEmpty x) = "").
  { intros [[|? ?]|]; simpl; try discriminate; reflexivity. }
  unfold Sheet.makeCredits. rewrite Ht, Hl. cbv zeta.
  destruct (negb (truthy_opt teaching) && negb (truthy_opt labs)) eqn:E.
  - apply andb_prop in E. destruct E as [E1 E2].
    apply negb_true_iff in E1, E2.
    rewrite (Hfalsy _ E1), (Hfalsy _ E2).
    split; [reflexivity|]. split; [|discriminate].
    split; [|reflexivity]. intros _. now split.
  - destruct (trim (orEmpty teaching)) as [|a t] eqn:ET;
      destruct (trim (orEmpty labs)) as [|b l] eqn:EL; simpl.
    + split; [reflexivity|]. split; [tauto|discriminate].
    + split; [reflexivity|].
      split; [split; [discriminate|intros [_ H]; discriminate]|].
      intros c [= <-]. split; [discriminate|].
      rewrite normalizeCredits_some, <- EL, trim_idem. auto.
    + split; [reflexivity|].
      split; [split; [discriminate|intros [H _]; discriminate]|].
      intros c [= <-]. split; [discriminate|].
      rewrite normalizeCredits_some, <- ET, trim_idem. auto.
    + split; [reflexivity|].
      split; [split; [discriminate|intros [H _]; discriminate]|].
      intros c [= <-]. split; [discriminate|].
      rewrite normalizeCredits_some.
      assert (H : trim (trim (orEmpty teaching) ++ "+" ++ trim (orEmpty labs))
                  = (trim (orEmpty teaching) ++ "+" ++ trim (orEmpty labs))
                    %string)
        by (apply trim_plus; congruence).
      rewrite ET, EL in H. auto.
Qed.

End NormalizationFacts.

(* ================================================================== *)
(** * Further facts about the extraction *)

Module ExtractionFacts.
Import JSString Regex Scrape Extracted Coverage.
Import ScrapeFacts.

Lemma find_snoc {A} (f : A -> bool) l x :
  find f (l ++ [x])
  = match find f l with
    | Some y => Some y
    | None => if f x then Some x else None
    end.
Proof.
  induction l as [|y l IH]; simpl; [reflexivity|].
  destruct (f y); [reflexivity|assumption].
Qed.

(** The loop of [dedupe], from any state. *)
Lemma dedupe_fold l : forall seen out,
  seen = map dedupKey out ->
  NoDup seen ->
  let r := fold_left
             (fun acc c =>
                let '(seen, deduped) := acc in
                if negb (mem (dedupKey c) seen)
                then (seen ++ [dedupKey c], deduped ++ [c])
                else acc)
             l (seen, out) in
  fst r = map dedupKey (snd r) /\ NoDup (fst r) /\
  (forall c, In c (snd r) -> In c out \/ In c l) /\
  forall k,
    find (fun c => String.eqb (dedupKey c) k) (snd r)
    = match find (fun c => String.eqb (dedupKey c) k) out with
      | Some c => Some c
      | None => find (fun c => String.eqb (dedupKey c) k) l
      end.
Proof.
  induction l as [|c l IH]; intros seen out Hseen Hnd.
  - simpl. repeat split; try assumption; [tauto|].
    intros k. now destruct (find _ out).
  - simpl fold_left. destruct (mem (dedupKey c) seen) eqn:Hmem; simpl negb;
      cbv iota.
    + destruct (IH seen out Hseen Hnd) as [H1 [H2 [H3 H4]]].
      repeat split; try assumption.
      * intros x Hx. apply H3 in Hx. simpl. tauto.
      * intros k. rewrite H4. simpl.
        destruct (find (fun c0 => String.eqb (dedupKey c0) k) out) eqn:F;
          [reflexivity|].
        destruct (String.eqb (dedupKey c) k) eqn:E; [|reflexivity].
        exfalso. apply String.eqb_eq in E. apply mem_true in Hmem.
        rewrite Hseen in Hmem. apply in_map_iff in Hmem.
        destruct Hmem as [x [Hx Hin]].
        apply (find_none _ _ F) in Hin. rewrite Hx, E in Hin.
        now rewrite String.eqb_refl in Hin.
    + apply mem_false in Hmem.
      destruct (IH (seen ++ [dedupKey c]) (out ++ [c])) as [H1 [H2 [H3 H4]]].
      * rewrite map_app, Hseen. reflexivity.
      * apply NoDup_rev in Hnd.
        rewrite <- (rev_involutive (seen ++ [dedupKey c])).
        apply NoDup_rev. rewrite rev_app_distr. simpl.
        constructor; [|assumption]. now rewrite <- in_rev.
      * repeat split; try assumption.
        -- intros x Hx. apply H3 in Hx. simpl.
           destruct Hx as [Hx|Hx]; [|tauto].
           apply in_app_or in Hx. destruct Hx as [Hx|[<-|[]]]; tauto.
        -- intros k. rewrite H4. rewrite find_snoc. simpl.
           destruct (find (fun c0 => String.eqb (dedupKey c0) k) out);
             [reflexivity|].
           now destruct (String.eqb (dedupKey c) k).
Qed.

Lemma dedupe_distinct l : forall seen out,
  NoDup (seen ++ map dedupKey l) ->
  fold_left
    (fun acc c =>
       let '(seen, deduped) := acc in
       if negb (mem (dedupKey c) seen)
       then (seen ++ [dedupKey c], deduped ++ [c])
       else acc)
    l (seen, out)
  = (seen ++ map dedupKey l, out ++ l).
Proof.
  induction l as [|c l IH]; intros seen out Hnd; simpl.
  - now rewrite !app_nil_r.
  - assert (Hm : mem (dedupKey c) seen = false).
    { apply mem_false. intros Hin.
      apply NoDup_remove_2 in Hnd. apply Hnd. apply in_or_app. now left. }
    rewrite Hm. simpl. rewrite IH.
    + now rewrite <- !app_assoc.
    + now rewrite <- app_assoc.
Qed.

Lemma dedupe_keys l : NoDup (map dedupKey (dedupe l)).
Proof.
  unfold dedupe.
  destruct (dedupe_fold l [] [] eq_refl (NoDup_nil _)) as [H1 [H2 _]].
  now rewrite <- H1.
Qed.

Lemma dedupe_incl l c : In c (dedupe l) -> In c l.
Proof.
  unfold dedupe.
  destruct (dedupe_fold l [] [] eq_refl (NoDup_nil _)) as [_ [_ [H3 _]]].
  intros H. apply H3 in H. destruct H as [[]|H]. exact H.
Qed.

(** X15. The dedup law: [dedupe] leaves no two courses with the same
    code-and-title key, keeps only courses of the list, keeps for each
    key the first course of the list with that key, and leaves a list
    without repeated keys as it is. *)
Theorem dedupe_law l :
  NoDup (map dedupKey (dedupe l)) /\
  (forall c, In c (dedupe l) -> In c l) /\
  (forall k, find (fun c => String.eqb (dedupKey c) k) (dedupe l)
             = find (fun c => String.eqb (dedupKey c) k) l) /\
  (NoDup (map dedupKey l) -> dedupe l = l) /\
  dedupe (dedupe l) = dedupe l.
Proof.
  assert (Hfix : forall l', NoDup (map dedupKey l') -> dedupe l' = l').
  { intros l' H. unfold dedupe. now rewrite (dedupe_distinct l' [] [] H). }
  split; [apply dedupe_keys|]. split; [apply dedupe_incl|]. split.
  - intros k. unfold dedupe.
    destruct (dedupe_fold l [] [] eq_refl (NoDup_nil _)) as [_ [_ [_ H4]]].
    apply H4.
  - split; [apply Hfix|]. apply Hfix, dedupe_keys.
Qed.

Lemma push_kept cs p :
  Forall (fun c => kept c = true) cs ->
  Forall (fun c => kept c = true) (push cs p).
Proof.
  intros H. unfold push. destruct (kept p) eqn:E; [|assumption].
  apply Forall_app. split; [assumption|]. now constructor.
Qed.

Lemma fold_kept {A} (f : list course -> A -> list course) l :
  (forall cs x, Forall (fun c => kept c = true) cs ->
                Forall (fun c => kept c = true) (f cs x)) ->
  forall cs, Forall (fun c => kept c = true) cs ->
             Forall (fun c => kept c = true) (fold_left f l cs).
Proof.
  intros Hf. induction l as [|x l IH]; intros cs H; simpl; [assumption|].
  apply IH. now apply Hf.
Qed.

Lemma siblingCourses_kept cs sib :
  Forall (fun c => kept c = true) cs ->
  Forall (fun c => kept c = true) (siblingCourses cs sib).
Proof.
  intros H. unfold siblingCourses.
  assert (H1 : Forall (fun c => kept c = true)
     (if Dom.hasTag ["table"] sib
      then fold_left
             (fun courses tr =>
                let cols := filter truthy (cellTexts tr) in
                if 2 <=? List.length cols
                then push courses (parseCourseFromCells cols)
                else courses)
             (Dom.find ["tr"] sib) cs
      else cs)).
  { destruct (Dom.hasTag ["table"] sib); [|assumption].
    apply fold_kept; [|assumption]. intros cs' x Hc. cbv zeta.
    destruct (2 <=? _); [now apply push_kept|assumption]. }
  set (cs1 := if Dom.hasTag ["table"] sib then _ else cs) in *.
  assert (H2 : Forall (fun c => kept c = true)
     (if Dom.hasTag ["ul"; "ol"] sib
      then fold_left
             (fun courses li =>
                push courses (parseCourseFromLine (trim (Dom.text li))))
             (Dom.find ["li"] sib) cs1
      else cs1)).
  { destruct (Dom.hasTag ["ul"; "ol"] sib); [|assumption].
    apply fold_kept; [|assumption]. intros cs' x Hc. now apply push_kept. }
  set (cs2 := if Dom.hasTag ["ul"; "ol"] sib then _ else cs1) in *.
  destruct (Dom.hasTag ["p"; "div"] sib); [|assumption].
  apply fold_kept; [|assumption]. intros cs' x Hc.
  destruct (_ && _); [assumption|now apply push_kept].
Qed.

Lemma walkSiblings_kept sibs : forall cs,
  Forall (fun c => kept c = true) cs ->
  Forall (fun c => kept c = true) (walkSiblings sibs cs).
Proof.
  induction sibs as [|sib sibs IH]; intros cs H; simpl; [assumption|].
  destruct (isSemesterHeading sib); [assumption|].
  apply IH. now apply siblingCourses_kept.
Qed.

Lemma bodyRowCourses_kept table :
  Forall (fun c => kept c = true) (bodyRowCourses table).
Proof.
  unfold bodyRowCourses. apply fold_kept; [|constructor].
  intros cs x H. cbv zeta.
  destruct (0 <? _); [now apply push_kept|assumption].
Qed.

Lemma scanRow_kept rows : forall acc,
  Forall (fun c => kept c = true) (fst acc) ->
  Forall (fun c => kept c = true) (fst (fold_left scanRow rows acc)).
Proof.
  induction rows as [|tr rows IH]; intros [cs h] H; simpl; [assumption|].
  apply IH. unfold scanRow.
  destruct (List.length (filter truthy (cellTexts tr)) =? 0); [assumption|].
  cbv zeta. destruct (_ || _); [assumption|].
  destruct (kept (parseCourseFromCells (cellTexts tr))) eqn:E; simpl.
  - destruct (negb _); [|assumption]. simpl.
    apply Forall_app. split; [assumption|]. now constructor.
  - assumption.
Qed.

Lemma dedupe_tidy n cs :
  Forall (fun c => kept c = true) cs ->
  NoDup (map dedupKey (courses (mkSemester n (dedupe cs)))) /\
  Forall (fun c => kept c = true) (courses (mkSemester n (dedupe cs))).
Proof.
  intros H. simpl. split; [apply dedupe_keys|].
  rewrite Forall_forall in *. intros c Hc. apply H. now apply dedupe_incl.
Qed.

Lemma fromAnyTable_step semesters i table :
  fromAnyTable (semesters, i) table
  = if qualifies table
    then (semesters ++
            [mkSemester ("Semester-" ++ decimal i)
                        (dedupe (tableCourses table))],
          i + 1)
    else (semesters, i).
Proof.
  unfold fromAnyTable, qualifies, tableCourses.
  now destruct (fold_left scanRow (Dom.find ["tr"] table) ([], false)).
Qed.

(** What the loop of method 3 adds to the catalog. *)
Lemma fromAnyTable_fold tables : forall semesters i,
  fold_left fromAnyTable tables (semesters, i)
  = (semesters
       ++ map (fun it => mkSemester ("Semester-" ++ decimal (fst it))
                                    (dedupe (tableCourses (snd it))))
              (combine (List.seq i (List.length (filter qualifies tables)))
                       (filter qualifies tables)),
     i + List.length (filter qualifies tables)).
Proof.
  induction tables as [|t ts IH]; intros semesters i.
  - simpl. now rewrite app_nil_r, Nat.add_0_r.
  - cbn [fold_left filter]. rewrite fromAnyTable_step.
    destruct (qualifies t); rewrite IH.
    + cbn [List.length List.seq combine map fst snd].
      rewrite <- app_assoc. replace (i + 1) with (S i) by lia.
      f_equal. lia.
    + reflexivity.
Qed.

Lemma extractSemesters_cases doc :
  let A := fromHeadings doc in
  let tables := Dom.find ["table"] doc in
  let B := map headerTerm (selectTables (map name A) tables) in
  let qs := filter qualifies tables in
  extractSemesters doc
  = match A ++ B with
    | [] => map (fun it => mkSemester ("Semester-" ++ decimal (fst it))
                                      (dedupe (tableCourses (snd it))))
                (combine (List.seq 1 (List.length qs)) qs)
    | _ :: _ => A ++ B
    end.
Proof.
  intros A tables B qs. unfold extractSemesters. fold A. fold tables.
  rewrite fromHeaderTable_fold. fold B.
  destruct (A ++ B) eqn:E; simpl; [|reflexivity].
  now rewrite fromAnyTable_fold.
Qed.

(** X16. Every term of the extracted catalog, by whichever method, is
    deduplicated, and each of its courses has a code or a title. *)
Theorem extracted_terms_are_tidy doc :
  Forall (fun s => NoDup (map dedupKey (courses s)) /\
                   Forall (fun c => kept c = true) (courses s))
         (extractSemesters doc).
Proof.
  rewrite extractSemesters_cases.
  assert (HA : Forall (fun s => NoDup (map dedupKey (courses s)) /\
                                Forall (fun c => kept c = true) (courses s))
                      (fromHeadings doc ++
                       map headerTerm
                         (selectTables (map name (fromHeadings doc))
                                       (Dom.find ["table"] doc)))).
  { apply Forall_app. split.
    - unfold fromHeadings. apply Forall_forall. intros s Hs.
      apply in_map_iff in Hs. destruct Hs as [[h sibs] [<- _]].
      apply dedupe_tidy. apply walkSiblings_kept. constructor.
    - apply Forall_forall. intros s Hs.
      apply in_map_iff in Hs. destruct Hs as [t [<- _]].
      unfold headerTerm. apply dedupe_tidy, bodyRowCourses_kept. }
  destruct (fromHeadings doc ++ _) eqn:E; [|exact HA].
  apply Forall_forall. intros s Hs.
  apply in_map_iff in Hs. destruct Hs as [[i t] [<- _]].
  apply dedupe_tidy. unfold tableCourses.
  apply (scanRow_kept (Dom.find ["tr"] t) ([], false)). constructor.
Qed.

Lemma combine_seq_names {A} (f : nat * A -> semester) (l : list A) i :
  (forall it, name (f it) = ("Semester-" ++ decimal (fst it))%string) ->
  map name (map f (combine (List.seq i (List.length l)) l))
  = map (fun j => ("Semester-" ++ decimal j)%string)
        (List.seq i (List.length l)).
Proof.
  intros Hf. revert i. induction l as [|x l IH]; intros i; simpl;
    [reflexivity|].
  now rewrite Hf, IH.
Qed.

(** X17. The third method: when no heading and no table head names a
    semester, the catalog has one term per table that has both a course
    row and a Total row, in document order, named Semester-1,
    Semester-2, and so on without a gap, with the table's courses
    deduplicated; the other tables take no number. *)
Theorem third_method_numbers_tables doc :
  fromHeadings doc = [] ->
  (forall t, In t (Dom.find ["table"] doc) -> hasSemesterHeader t = false) ->
  let qs := filter qualifies (Dom.find ["table"] doc) in
  extractSemesters doc
  = map (fun it => mkSemester ("Semester-" ++ decimal (fst it))
                              (dedupe (tableCourses (snd it))))
        (combine (List.seq 1 (List.length qs)) qs) /\
  map name (extractSemesters doc) = numberedNames (List.length qs).
Proof.
  intros HA HB qs.
  assert (Hsel : forall names,
            selectTables names (Dom.find ["table"] doc) = []).
  { induction (Dom.find ["table"] doc) as [|t ts IH]; intros names;
      [reflexivity|].
    simpl. rewrite (HB t) by now left. simpl. apply IH.
    intros t' Ht'. apply HB. now right. }
  assert (H : extractSemesters doc
              = map (fun it => mkSemester ("Semester-" ++ decimal (fst it))
                                          (dedupe (tableCourses (snd it))))
                    (combine (List.seq 1 (List.length qs)) qs)).
  { rewrite extractSemesters_cases, HA, Hsel. reflexivity. }
  split; [exact H|]. rewrite H. unfold numberedNames.
  now apply combine_seq_names.
Qed.

(** X18. Hard failure: the extraction yields no term exactly when no
    heading names a semester, no table head names one, and no table has
    both a course row and a Total row. *)
Theorem extraction_empty_iff doc :
  extractSemesters doc = [] <->
  fromHeadings doc = [] /\
  selectTables [] (Dom.find ["table"] doc) = [] /\
  filter qualifies (Dom.find ["table"] doc) = [].
Proof.
  rewrite extractSemesters_cases. split.
  - destruct (fromHeadings doc) as [|a A] eqn:HA; simpl.
    + destruct (selectTables [] (Dom.find ["table"] doc)) as [|b B] eqn:HB;
        simpl; [|discriminate].
      destruct (filter qualifies (Dom.find ["table"] doc)); simpl;
        [auto|discriminate].
    + discriminate.
  - intros [HA [HB HC]]. rewrite HA. simpl. rewrite HB, HC. reflexivity.
Qed.

(** X19. A term ends at the next semester heading: the walk over the
    siblings of a heading takes nothing from that heading or from what
    follows it. *)
Theorem term_ends_at_next_heading before h after cs :
  isSemesterHeading h = true ->
  walkSiblings (before ++ h :: after) cs = walkSiblings before cs.
Proof.
  intros Hh. revert cs. induction before as [|s before IH]; intros cs; simpl.
  - now rewrite Hh.
  - destruct (isSemesterHeading s); [reflexivity|apply IH].
Qed.

End ExtractionFacts.

(* ================================================================== *)
(** * Rows without a course *)

Module RowFacts.
Import JSString Regex Scrape Extracted Coverage.
Import ScrapeFacts ExtractionFacts.

Lemma space_not_digit c : is_space c = true -> is_digit c = false.
Proof.
  intros H. apply StringFacts.space_code in H.
  unfold is_digit, in_range.
  destruct (48 <=? char_code c) eqn:E; [|reflexivity].
  apply Nat.leb_le in E. lia.
Qed.

(** [/^\d+$/] matches nowhere but at the start. *)
Lemma allDigits_later l : forall p skipped,
  search allDigits (Some p) l skipped = None.
Proof.
  induction l as [|c l IH]; intros p skipped; [reflexivity|].
  cbn [search]. change (run allDigits (mkPos (Some p) (c :: l) None) Some)
    with (@None pos). apply IH.
Qed.

Lemma allDigits_blank s : trim s = "" -> test allDigits s = false.
Proof.
  intros H. pose proof (StringFacts.trim_empty s H) as Hsp.
  unfold test, exec. destruct s as [|c s]; [reflexivity|].
  change (chars (String c s)) with (c :: chars s) in *.
  assert (Hc : is_digit c = false)
    by (apply space_not_digit, Hsp; now left).
  cbn [search].
  replace (run allDigits (mkPos None (c :: chars s) None) Some)
    with (@None pos).
  - now rewrite allDigits_later.
  - unfold allDigits, plus, digit. cbn. now rewrite Hc.
Qed.

Lemma blank_cell cells i : blankRow cells -> trim (cell cells i) = "".
Proof.
  intros H. unfold cell.
  destruct (nth_in_or_default i cells "") as [Hin|Hd].
  - now apply H.
  - now rewrite Hd.
Qed.

Lemma scanToken_blank cells : forall st,
  blankRow cells -> fold_left scanToken cells st = st.
Proof.
  induction cells as [|c cells IH]; intros st H; [reflexivity|].
  cbn [fold_left]. unfold scanToken at 2.
  rewrite (H c) by now left. simpl. apply IH.
  intros x Hx. apply H. now right.
Qed.

(** X20. A row of blank cells, however many, and a blank line parse to
    a course with every field absent, which no method keeps. *)
Theorem blank_rows_are_dropped :
  (forall cells, blankRow cells -> parseCourseFromCells cells = noCourse) /\
  (forall line, trim line = "" -> parseCourseFromLine line = noCourse) /\
  kept noCourse = false /\
  forall courses, push courses noCourse = courses.
Proof.
  split; [|split; [|split; reflexivity]].
  - intros cells H. unfold parseCourseFromCells.
    rewrite (allDigits_blank (cell cells 0)) by now apply blank_cell.
    cbv iota. rewrite !blank_cell by assumption.
    destruct (0 + 3 <=? List.length cells).
    + destruct (0 + 5 <=? List.length cells); reflexivity.
    + rewrite scanToken_blank by assumption. reflexivity.
  - intros line H. unfold parseCourseFromLine. rewrite H. reflexivity.
Qed.

Lemma prefix_split n : forall s,
  String.prefix n s = true -> exists q, s = (n ++ q)%string.
Proof.
  induction n as [|a n IH]; intros s H.
  - exists s. reflexivity.
  - destruct s as [|c s]; [discriminate|].
    rewrite StringFacts.prefix_cons in H.
    destruct (ascii_dec a c) as [<-|]; [|discriminate].
    destruct (IH s H) as [q ->]. now exists q.
Qed.

Lemma split_prefix n q : String.prefix n (n ++ q) = true.
Proof.
  induction n as [|a n IH]; [now destruct q|].
  simpl append. rewrite StringFacts.prefix_cons.
  now destruct (ascii_dec a a).
Qed.

Lemma includes_split t n :
  includes t n = true <-> exists p q, t = (p ++ n ++ q)%string.
Proof.
  split.
  - induction t as [|c t IH].
    + change (includes "" n) with (String.prefix n "" || false).
      rewrite orb_false_r. intros H. apply prefix_split in H.
      destruct H as [q ->]. now exists "", q.
    + rewrite StringFacts.includes_cons. intros H.
      apply orb_prop in H. destruct H as [H|H].
      * apply prefix_split in H. destruct H as [q ->]. now exists "", q.
      * destruct (IH H) as [p [q ->]]. now exists (String c p), q.
  - intros [p [q ->]]. induction p as [|c p IH].
    + simpl append. destruct (n ++ q)%string eqn:E.
      * change (includes "" n) with (String.prefix n "" || false).
        rewrite <- E. now rewrite split_prefix.
      * rewrite StringFacts.includes_cons, <- E. now rewrite split_prefix.
    + simpl append. rewrite StringFacts.includes_cons, IH.
      apply orb_true_r.
Qed.

Lemma append_assoc a b c : ((a ++ b) ++ c = a ++ b ++ c)%string.
Proof. induction a as [|x a IH]; simpl; [reflexivity|]. now rewrite IH. Qed.

(** A text that holds "grand total" holds "total". *)
Lemma includes_longer t a b :
  includes t b = false -> includes t (a ++ b) = false.
Proof.
  intros H. destruct (includes t (a ++ b)) eqn:E; [|reflexivity].
  apply includes_split in E. destruct E as [p [q ->]].
  assert (H' : includes (p ++ (a ++ b) ++ q) b = true).
  { apply includes_split. exists (p ++ a)%string, q.
    now rewrite !append_assoc. }
  congruence.
Qed.

Lemma scanRow_step cs h tr :
  scanRow (cs, h) tr
  = if List.length (filter truthy (cellTexts tr)) =? 0 then (cs, h)
    else if includes (toLowerCase (join " " (cellTexts tr))) "total"
    then (cs, true)
    else if kept (parseCourseFromCells (cellTexts tr))
    then (cs ++ [parseCourseFromCells (cellTexts tr)], h)
    else (cs, h).
Proof.
  unfold scanRow. destruct (_ =? 0); [reflexivity|]. cbv zeta.
  destruct (includes (toLowerCase (join " " (cellTexts tr))) "total") eqn:E.
  - reflexivity.
  - pose proof (includes_longer _ "grand " "total" E) as E'.
    change ("grand " ++ "total")%string with "grand total" in E'.
    rewrite E'. simpl. now rewrite andb_true_r.
Qed.

Lemma scanRow_no_total rows : forall cs h,
  (forall tr, In tr rows ->
     includes (toLowerCase (join " " (cellTexts tr))) "total" = false) ->
  snd (fold_left scanRow rows (cs, h)) = h.
Proof.
  induction rows as [|tr rows IH]; intros cs h H; [reflexivity|].
  cbn [fold_left]. rewrite scanRow_step.
  assert (H' : forall x, In x rows ->
            includes (toLowerCase (join " " (cellTexts x))) "total" = false)
    by (intros x Hx; apply H; now right).
  rewrite (H tr) by now left.
  destruct (_ =? 0); [now apply IH|].
  destruct (kept _); now apply IH.
Qed.

Lemma scanRow_courses rows : forall cs h c,
  In c (fst (fold_left scanRow rows (cs, h))) ->
  In c cs \/
  exists tr, In tr rows /\ c = parseCourseFromCells (cellTexts tr) /\
    includes (toLowerCase (join " " (cellTexts tr))) "total" = false.
Proof.
  induction rows as [|tr rows IH]; intros cs h c; [simpl; tauto|].
  cbn [fold_left]. rewrite scanRow_step.
  assert (Hnext : forall cs' h',
            In c (fst (fold_left scanRow rows (cs', h'))) ->
            In c cs' \/
            exists tr0, In tr0 (tr :: rows) /\
              c = parseCourseFromCells (cellTexts tr0) /\
              includes (toLowerCase (join " " (cellTexts tr0))) "total"
              = false).
  { intros cs' h' Hc. apply IH in Hc. destruct Hc as [Hc|[x [Hx Hc]]].
    - now left.
    - right. exists x. split; [now right|assumption]. }
  destruct (_ =? 0); [apply Hnext|].
  destruct (includes (toLowerCase (join " " (cellTexts tr))) "total") eqn:E;
    [apply Hnext|].
  destruct (kept _); [|apply Hnext].
  intros Hc. apply Hnext in Hc. destruct Hc as [Hc|Hc]; [|now right].
  apply in_app_or in Hc. destruct Hc as [Hc|[<-|[]]]; [now left|].
  right. exists tr. split; [now left|]. split; [reflexivity|assumption].
Qed.

(** X21. Total rows in the third method: a row whose text contains
    "total", in any case, is never a course, so every course of a table
    is parsed from a row without it; and a table none of whose rows
    contains "total" makes no term. *)
Theorem total_rows_mark_tables table :
  (forall c, In c (tableCourses table) ->
     exists tr, In tr (Dom.find ["tr"] table) /\
       c = parseCourseFromCells (cellTexts tr) /\
       includes (toLowerCase (join " " (cellTexts tr))) "total" = false) /\
  ((forall tr, In tr (Dom.find ["tr"] table) ->
      includes (toLowerCase (join " " (cellTexts tr))) "total" = false) ->
   qualifies table = false).
Proof.
  split.
  - intros c Hc. unfold tableCourses in Hc.
    apply scanRow_courses in Hc. destruct Hc as [[]|Hc]. exact Hc.
  - intros H. unfold qualifies.
    pose proof (scanRow_no_total (Dom.find ["tr"] table) [] false H) as Hs.
    destruct (fold_left scanRow (Dom.find ["tr"] table) ([], false))
      as [cs h].
    simpl in Hs. subst h. apply andb_false_r.
Qed.

End RowFacts.

(* ================================================================== *)
(** * The further statements at the sample data *)

Module MoreSampleFacts.
Import JSString Regex Catalog Compare Reconciliation Coverage Exit.
Import Samples MoreSamples.
Import EngineFacts DiffFacts MatchingFacts ReportOrderFacts.

Lemma total_marker_ignored_witness :
  isTotalCourse total = true /\
  compareSemesters Courses
    (mkSemester "Semester 1" ([programming] ++ total :: [calculus]))
    (mkSemester "Semester 1" [programming])
  = compareSemesters Courses
      (mkSemester "Semester 1" ([programming] ++ [calculus]))
      (mkSemester "Semester 1" [programming]).
Proof.
  destruct (total_marker_ignored total) as [H1 H2].
  - left. reflexivity.
  - split; [exact H1|].
    exact (proj1 (H2 Courses "Semester 1" [programming] [calculus]
                     (mkSemester "Semester 1" [programming]))).
Defined.

Lemma no_diff_only_if_same_multiset_witness :
  Permutation
    (fingerprints Courses [programming; calculus; total])
    (fingerprints Courses [calculus; programmingAgain]).
Proof.
  apply (no_diff_only_if_same_multiset Courses
           (mkSemester "Semester 1" [programming; calculus; total])
           (mkSemester "Semester I" [calculus; programmingAgain])).
  vm_compute. reflexivity.
Defined.

Lemma matched_key_is_a_key_witness :
  In "Semester II"
     (JSMap.keys (buildSheetSemesterMap [mkSemester "Semester II" [calculus]]))
  /\ exists group,
       JSMap.get "Semester II"
         (buildSheetSemesterMap [mkSemester "Semester II" [calculus]])
       = Some group.
Proof.
  apply (matched_key_is_a_key
           (buildSheetSemesterMap [mkSemester "Semester II" [calculus]])
           (mkSemester "Semester-2" [programming])).
  vm_compute. reflexivity.
Defined.

Lemma catalog_matches_itself_witness :
  main CoursesAI catalog catalog
  = [Report.mkSemester "Semester 1" "Semester 1" 0 [];
     Report.mkSemester "Semester 2" "Semester 2" 0 []] /\
  exitStatus CoursesAI catalog catalog = 0.
Proof.
  apply (catalog_matches_itself CoursesAI catalog).
  - repeat constructor; simpl; intuition discriminate.
  - intros sem [<-|[<-|[]]]; reflexivity.
Defined.

Lemma normalization_is_stable_witness :
  Names.asciiText " Cs101 " /\
  normalizeCode (Some (toLowerCase " Cs101 ")) = normalizeCode (Some " Cs101 ")
  /\ normalizeCode (Some (normalizeCode (Some " Cs101 ")))
     = normalizeCode (Some " Cs101 ").
Proof.
  destruct NormalizationFacts.normalization_is_stable as [H1 [_ [H3 _]]].
  split; [reflexivity|]. split.
  - apply H3. reflexivity.
  - apply (H1 (Some " Cs101 ")). reflexivity.
Defined.

End MoreSampleFacts.

Module MoreScrapeSampleFacts.
Import JSString Regex Scrape Extracted Coverage Samples MoreSamples.
Import ExtractionFacts.

Lemma third_method_numbers_tables_witness :
  map name (extractSemesters plainPage) = ["Semester-1"; "Semester-2"].
Proof.
  assert (H1 : fromHeadings plainPage = []) by reflexivity.
  assert (H2 : forall t, In t (Dom.find ["table"] plainPage) ->
                         hasSemesterHeader t = false).
  { intros t Ht. vm_compute in Ht.
    destruct Ht as [<-|[<-|[<-|[]]]]; reflexivity. }
  exact (proj2 (third_method_numbers_tables plainPage H1 H2)).
Defined.

Lemma term_ends_at_next_heading_witness :
  walkSiblings ([plainTable] ++ nextHeading :: [openTable]) []
  = walkSiblings [plainTable] [].
Proof.
  apply (term_ends_at_next_heading [plainTable] nextHeading [openTable] []).
  reflexivity.
Defined.

End MoreScrapeSampleFacts.

(* ================================================================== *)
(** * The replacements of normalizeSemKey, read on the characters

    Each replacement of [normalizeSemKey] is a scan of the text by a
    regular expression.  The scan is read one position at a time: where
    the expression matches, the match is replaced and the scan goes on
    behind it; where it does not, the character is kept.  For each
    expression, the matches are then found by cases on the characters
    at the position. *)

Module ScanFacts.
Import JSString Regex Compare Names Scan.

Lemma string_app_assoc a b c : ((a ++ b) ++ c = a ++ b ++ c)%string.
Proof. induction a as [|x a IH]; simpl; [reflexivity|]. now rewrite IH. Qed.

Lemma string_app_nil a : (a ++ "")%string = a.
Proof. induction a as [|x a IH]; simpl; [reflexivity|]. now rewrite IH. Qed.

Lemma of_chars_app a b : of_chars (a ++ b) = (of_chars a ++ of_chars b)%string.
Proof. induction a as [|x a IH]; simpl; [reflexivity|]. now rewrite IH. Qed.

Lemma run_rep lo hi r st k :
  run (Rep lo hi r) st k = iterate r k (S (List.length (rest st))) lo hi st.
Proof. reflexivity. Qed.

Lemma replaceAll_render r fn s :
  replaceAll r fn s = render fn (scan (S (String.length s)) r None (chars s)).
Proof.
  unfold replaceAll, render, matches. now destruct (scan _ _ _ _).
Qed.

Lemma search_eq r p l skipped :
  search r p l skipped
  = match run r (mkPos p l None) Some with
    | Some st =>
        Some (mkFound (rev skipped) (consumed l (rest st)) (cap st)
                      (prev st) (rest st))
    | None =>
        match l with
        | [] => None
        | c :: l' => search r (Some c) l' (c :: skipped)
        end
    end.
Proof. destruct l; reflexivity. Qed.

Lemma search_pre r : forall l p skipped,
  search r p l skipped
  = match search r p l [] with
    | Some f =>
        Some (mkFound (rev skipped ++ pre f) (matched f) (group1 f)
                      (post_prev f) (post f))
    | None => None
    end.
Proof.
  induction l as [|c l IH]; intros p skipped.
  - rewrite !search_eq. destruct (run r _ Some); [|reflexivity].
    cbn. now rewrite app_nil_r.
  - rewrite (search_eq r p (c :: l) skipped), (search_eq r p (c :: l) []).
    destruct (run r _ Some).
    + cbn. now rewrite app_nil_r.
    + rewrite (IH (Some c) (c :: skipped)), (IH (Some c) [c]).
      destruct (search r (Some c) l []); [|reflexivity].
      cbn. now rewrite <- app_assoc.
Qed.

(** No match at a position: the character there is kept, and the scan
    goes on behind it. *)
Lemma scan_skip r fn fuel p c l :
  run r (mkPos p (c :: l) None) Some = None ->
  render fn (scan (S fuel) r p (c :: l))
  = String c (render fn (scan (S fuel) r (Some c) l)).
Proof.
  intros H. cbn [scan]. rewrite (search_eq r p (c :: l)), H.
  rewrite search_pre.
  destruct (search r (Some c) l []) as [[pr m g pp po]|]; [|reflexivity].
  cbn [matched post pre group1 post_prev rev app].
  destruct m as [|x xs].
  - destruct po as [|y ys]; [reflexivity|].
    destruct (scan fuel r (Some y) ys) as [fs tl].
    destruct fs; reflexivity.
  - destruct (scan fuel r pp po) as [fs tl]. destruct fs; reflexivity.
Qed.

Lemma scan_end r fn fuel p :
  run r (mkPos p [] None) Some = None ->
  render fn (scan (S fuel) r p []) = "".
Proof. intros H. cbn [scan]. rewrite search_eq, H. reflexivity. Qed.

(** A match that is not empty: it is replaced, and the scan goes on
    behind it. *)
Lemma scan_match r fn fuel p l st :
  run r (mkPos p l None) Some = Some st ->
  consumed l (rest st) <> [] ->
  render fn (scan (S fuel) r p l)
  = (fn (of_chars (consumed l (rest st)))
        (of_chars (match cap st with Some g => g | None => [] end))
     ++ render fn (scan fuel r (prev st) (rest st)))%string.
Proof.
  intros H Hne. cbn [scan]. rewrite search_eq, H.
  cbn [matched post pre group1 post_prev rev].
  destruct (consumed l (rest st)) as [|x xs] eqn:E; [congruence|].
  destruct (scan fuel r (prev st) (rest st)) as [fs tl].
  unfold render. cbn [fst snd map pre matched group1].
  destruct fs; cbn [String.concat map of_chars string_of_list_ascii
                    String.append];
    now rewrite ?string_app_assoc.
Qed.

Lemma consumed_app a b : consumed (a ++ b) b = a.
Proof.
  unfold consumed. rewrite length_app.
  replace (List.length a + List.length b - List.length b)
    with (List.length a) by lia.
  rewrite firstn_app, Nat.sub_diag, firstn_all. cbn. apply app_nil_r.
Qed.

Lemma consumed_1 c l : consumed (c :: l) l = [c].
Proof. apply (consumed_app [c]). Qed.

Lemma consumed_3 a b c l : consumed (a :: b :: c :: l) l = [a; b; c].
Proof. apply (consumed_app [a; b; c]). Qed.

(** [/[(),.:]/g]: a space for each of the five marks. *)
Lemma scan_punct : forall l fuel p,
  List.length l < fuel ->
  render to_space (scan fuel (one_of "(),.:") p l) = of_chars (unpunct l).
Proof.
  induction l as [|c l IH]; intros [|fuel] p Hf; try (cbn in Hf; lia).
  - now apply scan_end.
  - cbn [unpunct map]. fold (unpunct l). unfold is_punct.
    destruct (existsb (Ascii.eqb c) (chars "(),.:")) eqn:E.
    + rewrite (scan_match _ _ _ _ _ (mkPos (Some c) l None)).
      * cbn [prev rest cap]. rewrite IH by (cbn in Hf; lia). reflexivity.
      * unfold one_of. cbn [run rest cap]. now rewrite E.
      * cbn [rest]. rewrite consumed_1. discriminate.
    + rewrite scan_skip.
      * rewrite IH by (cbn in Hf; lia). reflexivity.
      * unfold one_of. cbn [run rest cap]. now rewrite E.
Qed.

Lemma run_dashes p l :
  run dashes_re (mkPos p l None) Some
  = match l with
    | [] => None
    | a :: l' =>
        if Ascii.eqb "-" a then Some (mkPos (Some a) l' None)
        else
          match l' with
          | b :: c :: l'' =>
              if is_dash a b c then Some (mkPos (Some c) l'' None) else None
          | _ => None
          end
    end.
Proof.
  unfold dashes_re, en_dash, em_dash, chr, is_dash.
  cbn [alt lit chr run rest cap prev].
  destruct l as [|a l]; [reflexivity|].
  destruct (Ascii.eqb "-" a); [reflexivity|].
  destruct (Ascii.eqb (ascii_of_nat 226) a).
  - destruct l as [|b l]; [reflexivity|].
    destruct (Ascii.eqb (ascii_of_nat 128) b).
    + destruct l as [|c l]; [reflexivity|].
      cbn [andb orb].
      destruct (Ascii.eqb (ascii_of_nat 147) c); [reflexivity|].
      destruct (Ascii.eqb (ascii_of_nat 148) c); reflexivity.
    + now destruct l.
  - now destruct l as [|b [|c l]].
Qed.

(** [/[-–—]/g]: a space for each hyphen and dash. *)
Lemma scan_dashes : forall n l fuel p,
  List.length l <= n -> List.length l < fuel ->
  render to_space (scan fuel dashes_re p l) = of_chars (undash l).
Proof.
  induction n as [|n IH]; intros l [|fuel] p Hn Hf; try (cbn in Hf; lia).
  - destruct l; [|cbn in Hn; lia]. apply scan_end. apply run_dashes.
  - destruct l as [|a l]; [apply scan_end; apply run_dashes|].
    cbn in Hn, Hf. generalize (run_dashes p (a :: l)).
    cbn [undash]. destruct (Ascii.eqb "-" a).
    + intros Hrun. rewrite (scan_match _ _ _ _ _ _ Hrun);
        cbn [prev rest cap]; [|rewrite consumed_1; discriminate].
      rewrite IH by lia. reflexivity.
    + destruct l as [|b [|c l]];
        try (intros Hrun;
             rewrite (scan_skip _ _ _ _ _ _ Hrun), IH by (cbn in *; lia);
             reflexivity).
      destruct (is_dash a b c); intros Hrun.
      * rewrite (scan_match _ _ _ _ _ _ Hrun);
          cbn [prev rest cap]; [|rewrite consumed_3; discriminate].
        cbn in Hn, Hf. rewrite IH by lia. reflexivity.
      * rewrite (scan_skip _ _ _ _ _ _ Hrun), IH by (cbn in *; lia).
        reflexivity.
Qed.

Lemma iterate_eq r k fuel lo hi st :
  iterate r k (S fuel) lo hi st
  = match
      match hi with
      | Some 0 => None
      | _ =>
          run r st (fun st1 =>
            if List.length (rest st1) <? List.length (rest st)
            then iterate r k fuel (pred lo) (option_map pred hi) st1
            else None)
      end
    with
    | Some x => Some x
    | None => if lo =? 0 then k st else None
    end.
Proof. reflexivity. Qed.

Lemma ltb_cons {A} (c : A) l : (List.length l <? List.length (c :: l)) = true.
Proof. apply Nat.ltb_lt. cbn. lia. Qed.

(** A greedy run of characters with nothing to fail behind it takes
    the whole run. *)
Lemma iterate_chr_some q : forall l fuel lo p cp,
  List.length l < fuel ->
  iterate (Chr q) Some fuel lo None (mkPos p l cp)
  = if lo <=? eaten q l
    then Some (mkPos (eatPrev q p l) (dropWhile q l) cp)
    else None.
Proof.
  induction l as [|c l IH]; intros [|fuel] lo p cp Hf; try (cbn in Hf; lia).
  - rewrite iterate_eq. cbn. now destruct lo.
  - rewrite iterate_eq. cbn [option_map run rest cap prev eaten eatPrev
                             dropWhile].
    destruct (q c).
    + rewrite ltb_cons, IH by (cbn in Hf; lia).
      destruct lo as [|lo]; [reflexivity|]. cbn [pred].
      change (S lo <=? S (eaten q l)) with (lo <=? eaten q l).
      now destruct (lo <=? eaten q l).
    + now destruct lo.
Qed.

Lemma dropWhile_length q (l : list ascii) :
  List.length (dropWhile q l) <= List.length l.
Proof.
  induction l as [|c l IH]; cbn; [lia|]. destruct (q c); cbn; lia.
Qed.

Lemma consumed_nonempty (l l' : list ascii) :
  List.length l' < List.length l -> consumed l l' <> [].
Proof.
  unfold consumed. intros H E. apply (f_equal (@List.length _)) in E.
  rewrite length_firstn in E. cbn in E. lia.
Qed.

Lemma squeeze_true l : squeeze true l = squeeze false (dropWhile is_space l).
Proof.
  induction l as [|c l IH]; [reflexivity|]. cbn.
  destruct (is_space c) eqn:E; [assumption|]. cbn. now rewrite E.
Qed.

Lemma run_spaces p l :
  run (plus space) (mkPos p l None) Some
  = match l with
    | c :: l' =>
        if is_space c
        then Some (mkPos (eatPrev is_space (Some c) l')
                         (dropWhile is_space l') None)
        else None
    | [] => None
    end.
Proof.
  unfold plus, space. rewrite run_rep, iterate_chr_some by (cbn; lia).
  destruct l as [|c l]; [reflexivity|]. cbn. now destruct (is_space c).
Qed.

(** [/\s+/g]: one space for each run of whitespace. *)
Lemma scan_spaces : forall n l fuel p,
  List.length l <= n -> List.length l < fuel ->
  render to_space (scan fuel (plus space) p l) = of_chars (squeeze false l).
Proof.
  induction n as [|n IH]; intros l [|fuel] p Hn Hf; try (cbn in Hf; lia).
  - destruct l; [|cbn in Hn; lia]. apply scan_end. apply run_spaces.
  - destruct l as [|c l]; [apply scan_end; apply run_spaces|].
    cbn in Hn, Hf. generalize (run_spaces p (c :: l)).
    cbn [squeeze]. destruct (is_space c); intros Hrun.
    + pose proof (dropWhile_length is_space l) as Hd.
      rewrite (scan_match _ _ _ _ _ _ Hrun); cbn [prev rest cap];
        [|apply consumed_nonempty; cbn; lia].
      rewrite IH, squeeze_true by lia. reflexivity.
    + rewrite (scan_skip _ _ _ _ _ _ Hrun), IH by lia. reflexivity.
Qed.

Lemma run_seq a b st k :
  run (Seq a b) st k = run a st (fun st1 => run b st1 k).
Proof. reflexivity. Qed.

Lemma run_alt a b st k :
  run (Alt a b) st k
  = match run a st k with Some x => Some x | None => run b st k end.
Proof. reflexivity. Qed.

Lemma run_grp r st k :
  run (Grp r) st k
  = run r st (fun st1 =>
      k (mkPos (prev st1) (rest st1)
               (Some (consumed (rest st) (rest st1))))).
Proof. reflexivity. Qed.

Lemma run_wordb st k :
  run WordB st k
  = if xorb (word_at (prev st)) (word_at (hd_error (rest st)))
    then k st else None.
Proof. reflexivity. Qed.

Lemma run_chr_cons q p c l cp k :
  run (Chr q) (mkPos p (c :: l) cp) k
  = if q c then k (mkPos (Some c) l cp) else None.
Proof. reflexivity. Qed.

Lemma run_chr_nil q p cp k : run (Chr q) (mkPos p [] cp) k = None.
Proof. reflexivity. Qed.

Lemma iterate_0 r k lo hi st :
  iterate r k 0 lo hi st = if lo =? 0 then k st else None.
Proof. reflexivity. Qed.

Lemma ltb_succ n : (n <? S n) = true.
Proof. apply Nat.ltb_lt. lia. Qed.

Lemma isI_word x : isI x = true -> is_word x = true.
Proof.
  destruct x as [b0 b1 b2 b3 b4 b5 b6 b7].
  destruct b0, b1, b2, b3, b4, b5, b6, b7; intros H;
    first [discriminate H | reflexivity].
Qed.

Lemma isV_word x : isV x = true -> is_word x = true.
Proof.
  destruct x as [b0 b1 b2 b3 b4 b5 b6 b7].
  destruct b0, b1, b2, b3, b4, b5, b6, b7; intros H;
    first [discriminate H | reflexivity].
Qed.

Lemma isI_isV x : isI x = true -> isV x = false.
Proof.
  unfold isI, isV. intros H. apply Ascii.eqb_eq in H. now rewrite H.
Qed.

Lemma consumed_2 a b l : consumed (a :: b :: l) l = [a; b].
Proof. apply (consumed_app [a; b]). Qed.

Lemma numeral_cases w :
  numeral w
  = match w with
    | [a] => if isI a then Some "1"%char
             else if isV a then Some "5"%char else None
    | [a; b] => if isI a
                then if isI b then Some "2"%char
                     else if isV b then Some "4"%char else None
                else None
    | [a; b; c] => if isI a && isI b && isI c then Some "3"%char else None
    | _ => None
    end.
Proof.
  unfold numeral, isI, isV.
  change (lower_char "i") with "i"%char.
  change (lower_char "v") with "v"%char.
  destruct w as [|a [|b [|c [|d w]]]];
    cbn [of_chars string_of_list_ascii toLowerCase map_string String.eqb];
    repeat match goal with
           | |- context [Ascii.eqb (lower_char ?x) ?c] =>
               destruct (Ascii.eqb (lower_char x) c) eqn:?
           end;
    try reflexivity;
    repeat match goal with
           | H : Ascii.eqb _ _ = true |- _ => apply Ascii.eqb_eq in H
           end;
    congruence.
Qed.

Ltac exec :=
  repeat (first [ rewrite run_seq | rewrite run_alt | rewrite run_grp
                | rewrite run_wordb | rewrite run_chr_cons
                | rewrite run_chr_nil | rewrite run_rep
                | rewrite iterate_eq | rewrite iterate_0
                | rewrite ltb_succ ];
          cbn [prev rest cap xorb word_at hd_error List.length pred
               option_map Nat.eqb]).

Ltac classify x :=
  let Ix := fresh "Ix" in
  let Vx := fresh "Vx" in
  destruct (isI x) eqn:Ix;
  [ pose proof (isI_isV x Ix) as Vx; pose proof (isI_word x Ix)
  | destruct (isV x) eqn:Vx; [pose proof (isV_word x Vx)|] ].

Lemma not_word x : is_word x = false -> isI x = false /\ isV x = false.
Proof.
  intros H. split.
  - destruct (isI x) eqn:E; [|reflexivity]. apply isI_word in E. congruence.
  - destruct (isV x) eqn:E; [|reflexivity]. apply isV_word in E. congruence.
Qed.

Ltac roman_exec :=
  repeat (exec;
          repeat match goal with
                 | H : _ = _ :> bool |- _ => rewrite H
                 end;
          cbn [xorb andb];
          rewrite ?consumed_1, ?consumed_2, ?consumed_3).

(** The numeral expression at the start of a word: it matches the whole
    word, when the word is a numeral from I to V. *)
Lemma run_roman_word p w rest :
  word_at p = false -> forallb is_word w = true ->
  word_at (hd_error rest) = false ->
  run roman_re (mkPos p (w ++ rest) None) Some
  = match numeral w with
    | Some _ => Some (mkPos (hd_error (rev w)) rest (Some w))
    | None => None
    end.
Proof.
  intros Hp Hw Hr. rewrite numeral_cases.
  unfold roman_re, roman_group, between, chr_i.
  cbn [seq alt lit_i]. unfold chr_i. fold (isI) (isV).
  assert (Hrest : forall q k, run (Chr isI) (mkPos q rest None) k = None).
  { intros q k. destruct rest as [|x rest]; [reflexivity|].
    rewrite run_chr_cons. cbn in Hr. apply not_word in Hr.
    destruct Hr as [Hr _]. now rewrite Hr. }
  destruct w as [|a [|b [|c [|d w]]]]; cbn [forallb] in Hw;
    repeat match goal with
           | H : _ && _ = true |- _ =>
               apply andb_prop in H; destruct H
           end;
    cbn [app rev hd_error].
  - exec. now rewrite Hp, Hr.
  - classify a; roman_exec; rewrite ?Hrest; reflexivity.
  - classify a; classify b; roman_exec; rewrite ?Hrest; reflexivity.
  - classify a; classify b; classify c; roman_exec; rewrite ?Hrest;
      reflexivity.
  - classify a; classify b; classify c; classify d; roman_exec;
      rewrite ?Hrest; reflexivity.
Qed.

Lemma run_roman_inside p l :
  word_at p = true -> run roman_re (mkPos p l None) Some = None.
Proof.
  intros Hp.
  unfold roman_re, roman_group, between, chr_i.
  cbn [seq alt lit_i]. unfold chr_i. fold (isI) (isV).
  destruct l as [|x l]; [exec; now rewrite Hp|].
  destruct (is_word x) eqn:Hx; [exec; now rewrite Hp, Hx|].
  destruct (not_word x Hx) as [Hi Hv]. roman_exec. reflexivity.
Qed.

Lemma isI_upper x : isI x = true -> upper_char x = "I"%char.
Proof.
  destruct x as [b0 b1 b2 b3 b4 b5 b6 b7].
  destruct b0, b1, b2, b3, b4, b5, b6, b7; intros H;
    first [discriminate H | reflexivity].
Qed.

Lemma isV_upper x : isV x = true -> upper_char x = "V"%char.
Proof.
  destruct x as [b0 b1 b2 b3 b4 b5 b6 b7].
  destruct b0, b1, b2, b3, b4, b5, b6, b7; intros H;
    first [discriminate H | reflexivity].
Qed.

(** [romanToInt] gives a numeral its digit. *)
Lemma romanToInt_numeral w d :
  numeral w = Some d -> romanToInt (of_chars w) = String d "".
Proof.
  rewrite numeral_cases. unfold romanToInt.
  destruct w as [|a [|b [|c [|e w]]]]; try discriminate;
    cbn [of_chars string_of_list_ascii truthy negb toUpperCase map_string].
  - classify a; intros [= <-]; try discriminate;
      rewrite ?(isI_upper a), ?(isV_upper a) by assumption; reflexivity.
  - classify a; try discriminate.
    classify b; intros [= <-];
      rewrite (isI_upper a), ?(isI_upper b), ?(isV_upper b) by assumption;
      reflexivity.
  - classify a; try discriminate. classify b; try discriminate.
    classify c; try discriminate. intros [= <-].
    rewrite (isI_upper a), (isI_upper b), (isI_upper c) by assumption.
    reflexivity.
Qed.

Lemma take_drop q l : takeWhile q l ++ dropWhile q l = l.
Proof.
  induction l as [|c l IH]; [reflexivity|]. cbn.
  destruct (q c); [cbn; now rewrite IH|reflexivity].
Qed.

Lemma takeWhile_all q l : forallb q (takeWhile q l) = true.
Proof.
  induction l as [|c l IH]; [reflexivity|]. cbn.
  destruct (q c) eqn:E; [cbn; now rewrite E|reflexivity].
Qed.

Lemma dropWhile_hd l : word_at (hd_error (dropWhile is_word l)) = false.
Proof.
  induction l as [|c l IH]; [reflexivity|]. cbn.
  destruct (is_word c) eqn:E; [assumption|]. cbn. assumption.
Qed.

Lemma takeWhile_stop l :
  word_at (hd_error l) = false -> takeWhile is_word l = [] /\
                                  dropWhile is_word l = l.
Proof.
  destruct l as [|c l]; [now split|]. cbn. intros H. now rewrite H.
Qed.

Lemma last_word w :
  w <> [] -> forallb is_word w = true -> word_at (hd_error (rev w)) = true.
Proof.
  intros Hne Hw. destruct (rev w) as [|x r] eqn:E.
  - apply (f_equal (@rev _)) in E. rewrite rev_involutive in E.
    now destruct Hne.
  - cbn. rewrite forallb_forall in Hw. apply Hw.
    apply in_rev. rewrite E. now left.
Qed.

Lemma romanWords_run : forall l acc,
  romanWords acc l
  = digits (acc ++ takeWhile is_word l) ++ romanTail (dropWhile is_word l).
Proof.
  induction l as [|c l IH]; intros acc; cbn.
  - now rewrite !app_nil_r.
  - destruct (is_word c).
    + rewrite IH, <- app_assoc. reflexivity.
    + now rewrite app_nil_r.
Qed.

(** [/\b(i{1,3}|iv|v)\b/gi]: a digit for each word that is a numeral. *)
Lemma scan_roman : forall n l fuel p,
  List.length l <= n -> List.length l < fuel ->
  render to_roman (scan fuel roman_re p l)
  = of_chars (if word_at p
              then takeWhile is_word l ++ romanTail (dropWhile is_word l)
              else romanWords [] l).
Proof.
  induction n as [|n IH]; intros l [|fuel] p Hn Hf; try (cbn in Hf; lia).
  - destruct l; [|cbn in Hn; lia]. rewrite scan_end.
    + now destruct (word_at p).
    + destruct (word_at p) eqn:Hp; [now apply run_roman_inside|].
      exact (run_roman_word p [] [] Hp eq_refl eq_refl).
  - destruct l as [|c l].
    { rewrite scan_end.
      + now destruct (word_at p).
      + destruct (word_at p) eqn:Hp; [now apply run_roman_inside|].
        exact (run_roman_word p [] [] Hp eq_refl eq_refl). }
    cbn in Hn, Hf. destruct (word_at p) eqn:Hp.
    + rewrite scan_skip by now apply run_roman_inside.
      rewrite IH by lia. cbn [word_at takeWhile dropWhile].
      destruct (is_word c); reflexivity.
    + pose proof (run_roman_word p (takeWhile is_word (c :: l))
                    (dropWhile is_word (c :: l)) Hp (takeWhile_all _ _)
                    (dropWhile_hd _)) as Hrun.
      rewrite take_drop in Hrun. rewrite romanWords_run.
      cbn [app]. unfold digits.
      destruct (numeral (takeWhile is_word (c :: l))) as [d|] eqn:Hnum.
      * assert (Hne : takeWhile is_word (c :: l) <> []).
        { intros E. rewrite E in Hnum. discriminate. }
        pose proof (take_drop is_word (c :: l)) as Htd.
        assert (Hlen : List.length (dropWhile is_word (c :: l))
                       < List.length (c :: l)).
        { rewrite <- Htd at 2. rewrite length_app.
          destruct (takeWhile is_word (c :: l)); [congruence|]. cbn. lia. }
        rewrite (scan_match _ _ _ _ _ _ Hrun); cbn [prev rest cap];
          [|now apply consumed_nonempty].
        unfold to_roman at 1. rewrite (romanToInt_numeral _ _ Hnum).
        rewrite IH by (cbn [List.length] in Hlen; lia).
        rewrite (last_word _ Hne (takeWhile_all _ _)).
        destruct (takeWhile_stop _ (dropWhile_hd (c :: l))) as [-> ->].
        reflexivity.
      * rewrite (scan_skip _ _ _ _ _ _ Hrun), IH by lia.
        cbn [word_at takeWhile dropWhile].
        destruct (is_word c); reflexivity.
Qed.

(** ** The numeral behind the word semester *)

Ltac split_andb :=
  repeat match goal with
         | H : _ && _ = true |- _ => apply andb_prop in H; destruct H
         end.

Lemma tidy_cons c l : tidy (c :: l) = true -> tidy l = true.
Proof.
  unfold tidy. cbn. intros H. split_andb. now apply andb_true_intro.
Qed.

Lemma tidy_app_r a b : tidy (a ++ b) = true -> tidy b = true.
Proof.
  induction a as [|c a IH]; [trivial|]. intros H. apply IH.
  now apply (tidy_cons c).
Qed.

Lemma tidy_hd c l : tidy (c :: l) = true -> neat c = true.
Proof. unfold tidy. cbn. intros H. now split_andb. Qed.

Lemma tidy_neat l : tidy l = true -> forallb neat l = true.
Proof. unfold tidy. intros H. now split_andb. Qed.

Lemma tidy_spaces c l :
  tidy (c :: l) = true -> is_space c = true -> space_at l = false.
Proof.
  unfold tidy. cbn. intros H Hc. split_andb.
  rewrite Hc in *. cbn in *. now destruct (space_at l).
Qed.

Lemma neat_lower c : neat c = true -> lower_char c = c.
Proof.
  unfold neat, lower_char. intros H. split_andb.
  now destruct (is_upper c).
Qed.

Lemma neat_space c : neat c = true -> is_space c = true -> c = " "%char.
Proof.
  unfold neat. intros H Hc. split_andb.
  rewrite Hc in *. cbn in *. symmetry. now apply Ascii.eqb_eq.
Qed.

Lemma neat_hyphen c : neat c = true -> Ascii.eqb "-" c = false.
Proof.
  unfold neat. intros H. split_andb.
  now destruct (Ascii.eqb "-" c).
Qed.

(** A match of a literal under the [i] flag, in a text in lower
    case. *)
Lemma run_lit_i_sound : forall s l p cp k st,
  s <> "" -> toLowerCase s = s -> forallb neat l = true ->
  run (lit_i s) (mkPos p l cp) k = Some st ->
  exists rest q,
    l = chars s ++ rest /\ k (mkPos q rest cp) = Some st.
Proof.
  induction s as [|c s IH]; intros l p cp k st Hne Hlow Hl Hrun;
    [congruence|].
  injection Hlow as Hc Hs.
  assert (Hstep : forall k',
            run (chr_i c) (mkPos p l cp) k' = Some st ->
            exists x rest,
              l = c :: rest /\ forallb neat rest = true /\
              k' (mkPos (Some x) rest cp) = Some st).
  { intros k' H. unfold chr_i in H. destruct l as [|x l0]; [discriminate|].
    rewrite run_chr_cons in H.
    destruct (Ascii.eqb (lower_char x) (lower_char c)) eqn:E; [|discriminate].
    apply Ascii.eqb_eq in E. cbn in Hl. apply andb_prop in Hl.
    destruct Hl as [Hx Hl]. rewrite (neat_lower x Hx), Hc in E. subst x.
    eauto. }
  destruct s as [|c' s].
  - cbn [lit_i] in Hrun. destruct (Hstep k Hrun) as [x [rest [-> [_ H]]]].
    exists rest, (Some x). now split.
  - cbn [lit_i] in Hrun. rewrite run_seq in Hrun.
    destruct (Hstep _ Hrun) as [x [rest [-> [Hl' H]]]].
    destruct (IH rest (Some x) cp k st ltac:(discriminate) Hs Hl' H)
      as [rest' [q [-> H']]].
    exists rest', q. now split.
Qed.

(** A match of a greedy run of characters: some run was taken, and
    what follows matched behind it. *)
Lemma iterate_chr_sound q k : forall fuel l lo p cp st,
  iterate (Chr q) k fuel lo None (mkPos p l cp) = Some st ->
  exists taken rest p',
    l = taken ++ rest /\ forallb q taken = true /\
    lo <= List.length taken /\
    (taken = [] -> p' = p) /\
    (taken <> [] -> p' = hd_error (rev taken)) /\
    k (mkPos p' rest cp) = Some st.
Proof.
  assert (Hstop : forall l lo p cp st,
            (if lo =? 0 then k (mkPos p l cp) else None) = Some st ->
            exists taken rest p',
              l = taken ++ rest /\ forallb q taken = true /\
              lo <= List.length taken /\
              (taken = [] -> p' = p) /\
              (taken <> [] -> p' = hd_error (rev taken)) /\
              k (mkPos p' rest cp) = Some st).
  { intros l lo p cp st H. destruct lo; [|discriminate].
    exists [], l, p. repeat split; auto; congruence. }
  induction fuel as [|fuel IH]; intros l lo p cp st H.
  - rewrite iterate_0 in H. now apply Hstop.
  - rewrite iterate_eq in H. cbn [option_map] in H.
    destruct l as [|c l]; [rewrite run_chr_nil in H; now apply Hstop|].
    rewrite run_chr_cons in H. cbn [rest] in H.
    destruct (q c) eqn:Hc; [|now apply Hstop].
    rewrite ltb_cons in H.
    destruct (iterate (Chr q) k fuel (pred lo) None (mkPos (Some c) l cp))
      as [st'|] eqn:E; [|now apply Hstop].
    injection H as <-.
    destruct (IH _ _ _ _ _ E) as [taken [rest [p' [-> [H1 [H2 [H3 [H4 H5]]]]]]]].
    exists (c :: taken), rest, p'. cbn. rewrite Hc, H1.
    repeat split; auto; try lia; try congruence.
    intros _. destruct taken as [|t taken].
    + rewrite H3 by reflexivity. reflexivity.
    + rewrite H4 by discriminate. cbn.
      destruct (rev taken ++ [t]) eqn:E'; [now destruct (rev taken)|].
      reflexivity.
Qed.

Lemma run_roman_tail st :
  word_at (prev st) = false ->
  run (Seq roman_group WordB) st Some = run roman_re st Some.
Proof.
  intros Hp. unfold roman_re. cbn [seq].
  rewrite (run_seq WordB), run_wordb, Hp. cbn [xorb].
  destruct st as [p [|x l] cp]; cbn [rest hd_error word_at].
  - unfold roman_group, between, chr_i. cbn [seq alt lit_i]. unfold chr_i.
    exec. reflexivity.
  - destruct (is_word x) eqn:Hx; [reflexivity|].
    destruct (not_word x Hx) as [Hi Hv].
    unfold roman_group, between, chr_i. cbn [seq alt lit_i]. unfold chr_i.
    fold isI isV. roman_exec. reflexivity.
Qed.

End ScanFacts.

(* ================================================================== *)
(** * The numeral behind the word semester

    In a tidy text the replacement of a numeral behind the word semester
    writes the digit of a word that is a numeral, which the replacement
    of the numerals that stand alone writes as well: the first of the
    two adds nothing to the second. *)

Module SemesterFacts.
Import JSString Regex Compare Names Scan ScanFacts.

Lemma chars_app a b : chars (a ++ b)%string = chars a ++ chars b.
Proof. induction a as [|x a IH]; cbn; [reflexivity|]. now rewrite IH. Qed.

Lemma chars_of l : chars (of_chars l) = l.
Proof. apply list_ascii_of_string_of_list_ascii. Qed.

Lemma of_chars_of s : of_chars (chars s) = s.
Proof. apply string_of_list_ascii_of_string. Qed.

Lemma takeWhile_app w rest :
  forallb is_word w = true -> word_at (hd_error rest) = false ->
  takeWhile is_word (w ++ rest) = w /\ dropWhile is_word (w ++ rest) = rest.
Proof.
  intros Hw Hr. induction w as [|c w IH]; cbn.
  - now apply takeWhile_stop.
  - cbn in Hw. apply andb_prop in Hw. destruct Hw as [Hc Hw].
    rewrite Hc. destruct (IH Hw) as [-> ->]. now split.
Qed.

Lemma romanWords_word acc w rest :
  forallb is_word w = true -> word_at (hd_error rest) = false ->
  romanWords acc (w ++ rest) = digits (acc ++ w) ++ romanTail rest.
Proof.
  intros Hw Hr. rewrite romanWords_run.
  now destruct (takeWhile_app w rest Hw Hr) as [-> ->].
Qed.

Lemma numeral_digit w d :
  numeral w = Some d ->
  is_word d = true /\ numeral [d] = None.
Proof.
  intros H. unfold numeral in H.
  repeat match type of H with
         | context [String.eqb ?a ?b] => destruct (String.eqb a b)
         end; try discriminate H; injection H as <-;
    split; reflexivity.
Qed.

Lemma numeral_nonempty w d : numeral w = Some d -> w <> [].
Proof. intros H ->. discriminate. Qed.

(** A match of the numeral behind the word semester, in a tidy text:
    the text there reads semester, one space, and a word that is a
    numeral. *)
Lemma run_semester_sound p l st :
  tidy l = true ->
  run semester_re (mkPos p l None) Some = Some st ->
  exists w rest d,
    l = chars "semester " ++ w ++ rest /\
    numeral w = Some d /\ forallb is_word w = true /\
    word_at (hd_error rest) = false /\
    st = mkPos (hd_error (rev w)) rest (Some w).
Proof.
  intros Ht H. unfold semester_re in H. cbn [seq] in H.
  rewrite run_seq, run_wordb in H.
  destruct (xorb _ _); [|discriminate].
  rewrite run_seq in H.
  apply run_lit_i_sound in H;
    [|discriminate|reflexivity|now apply tidy_neat].
  destruct H as [rest1 [q [-> H]]]. apply tidy_app_r in Ht.
  rewrite run_seq in H. unfold plus, space in H. rewrite run_rep in H.
  apply iterate_chr_sound in H.
  destruct H as [taken [rest2 [p' [-> [Hsp [Hlen [_ [Hp' H]]]]]]]].
  destruct taken as [|t taken]; [cbn in Hlen; lia|].
  cbn in Hsp. apply andb_prop in Hsp. destruct Hsp as [Ht1 Hsp].
  pose proof (neat_space t (tidy_hd _ _ Ht) Ht1) as ->.
  pose proof (tidy_spaces _ _ Ht Ht1) as Hnext.
  destruct taken as [|t' taken];
    [|cbn in Hsp, Hnext; apply andb_prop in Hsp; destruct Hsp; congruence].
  rewrite Hp' in H by discriminate. cbn [rev app hd_error] in H.
  rewrite run_roman_tail in H by reflexivity. cbn [app] in H.
  rewrite <- (take_drop is_word rest2) in H.
  rewrite run_roman_word in H;
    [|reflexivity|apply takeWhile_all|apply dropWhile_hd].
  destruct (numeral (takeWhile is_word rest2)) as [d|] eqn:Hnum;
    [|discriminate].
  injection H as <-.
  exists (takeWhile is_word rest2), (dropWhile is_word rest2), d.
  rewrite take_drop. repeat split; auto.
  - apply takeWhile_all.
  - apply dropWhile_hd.
Qed.

(** [/\bsemester\s+(i{1,3}|iv|v)\b/gi] in a tidy text writes digits for
    words that are numerals, and nothing else: the words that are
    numerals read the same behind it. *)
Lemma scan_semester : forall n l fuel p acc,
  tidy l = true -> List.length l <= n -> List.length l < fuel ->
  romanWords acc (chars (render to_semester (scan fuel semester_re p l)))
  = romanWords acc l.
Proof.
  induction n as [|n IH]; intros l [|fuel] p acc Ht Hn Hf;
    try (cbn in Hf; lia).
  - destruct l; [|cbn in Hn; lia].
    destruct (run semester_re (mkPos p [] None) Some) as [st|] eqn:Hrun.
    + apply run_semester_sound in Hrun; [|assumption].
      destruct Hrun as [w [rest [d [E _]]]]. discriminate.
    + now rewrite scan_end.
  - destruct (run semester_re (mkPos p l None) Some) as [st|] eqn:Hrun.
    + pose proof Hrun as Hs. apply run_semester_sound in Hs; [|assumption].
      destruct Hs as [w [after [d [-> [Hnum [Hw [Hr ->]]]]]]].
      rewrite (scan_match _ _ _ _ _ _ Hrun); cbn [prev rest cap].
      2:{ apply consumed_nonempty. rewrite !length_app. cbn. lia. }
      unfold to_semester at 1. rewrite (romanToInt_numeral _ _ Hnum).
      rewrite !chars_app.
      change (chars "semester ") with (chars "semester" ++ [" "%char]).
      rewrite <- !app_assoc.
      rewrite !(romanWords_word acc (chars "semester")) by reflexivity.
      f_equal. cbn [app romanTail chars list_ascii_of_string]. f_equal.
      destruct (numeral_digit _ _ Hnum) as [Hd Hd'].
      cbn [romanWords]. rewrite Hd. cbn [app].
      rewrite !length_app in Hn, Hf. cbn in Hn, Hf.
      rewrite IH; [| |lia|lia].
      2:{ apply tidy_app_r in Ht. now apply tidy_app_r in Ht. }
      rewrite (romanWords_word [] w after Hw Hr).
      rewrite (romanWords_run after [d]).
      destruct (takeWhile_stop _ Hr) as [-> ->].
      unfold digits. cbn [app]. now rewrite Hd', Hnum.
    + destruct l as [|c l]; [now rewrite scan_end|].
      rewrite (scan_skip _ _ _ _ _ _ Hrun).
      cbn [chars list_ascii_of_string romanWords]. cbn in Hn, Hf.
      fold (chars (render to_semester (scan (S fuel) semester_re (Some c) l))).
      pose proof (tidy_cons _ _ Ht) as Ht'.
      destruct (is_word c); now rewrite IH by (assumption || lia).
Qed.

End SemesterFacts.

(* ================================================================== *)
(** * The spellings of pre-medical

    In a tidy text the hyphens are gone and the whitespace is single
    spaces, so that the expression for pre-medical matches premedical
    and pre medical, and nothing else. *)

Module PremedicalFacts.
Import JSString Regex Compare Names Scan ScanFacts SemesterFacts.

Lemma strip_app : forall pat l after,
  strip pat l = Some after -> l = pat ++ after.
Proof.
  induction pat as [|a pat IH]; intros l after H; cbn in H.
  - now injection H as ->.
  - destruct l as [|c l]; [discriminate|].
    destruct (Ascii.eqb a c) eqn:E; [|discriminate].
    apply Ascii.eqb_eq in E. subst c. cbn. f_equal. now apply IH.
Qed.

Lemma last_cons (c : ascii) l :
  l <> [] -> hd_error (rev (c :: l)) = hd_error (rev l).
Proof.
  intros H. cbn. destruct (rev l) eqn:E; [|reflexivity].
  apply (f_equal (@rev _)) in E. rewrite rev_involutive in E. now destruct H.
Qed.

(** A literal matches the text that begins with it. *)
Lemma run_lit : forall s l p cp k,
  s <> "" ->
  run (lit s) (mkPos p l cp) k
  = match strip (chars s) l with
    | Some after => k (mkPos (hd_error (rev (chars s))) after cp)
    | None => None
    end.
Proof.
  induction s as [|c s IH]; intros l p cp k Hne; [congruence|].
  destruct s as [|c' s].
  - cbn [lit chars list_ascii_of_string strip rev app hd_error]. unfold chr.
    destruct l as [|x l]; [reflexivity|]. rewrite run_chr_cons.
    destruct (Ascii.eqb c x) eqn:E; [|reflexivity].
    apply Ascii.eqb_eq in E. now subst x.
  - cbn [lit]. rewrite run_seq. unfold chr at 1.
    change (chars (String c (String c' s)))
      with (c :: chars (String c' s)).
    cbn [strip]. destruct l as [|x l]; [reflexivity|]. rewrite run_chr_cons.
    destruct (Ascii.eqb c x); [|reflexivity].
    rewrite IH by discriminate. rewrite last_cons by discriminate.
    reflexivity.
Qed.

(** A run that cannot start takes nothing. *)
Lemma iterate_blocked q k fuel hi p l cp :
  match l with c :: _ => q c = false | [] => True end ->
  iterate (Chr q) k fuel 0 hi (mkPos p l cp) = k (mkPos p l cp).
Proof.
  intros H. destruct fuel as [|fuel]; [reflexivity|].
  rewrite iterate_eq. destruct l as [|c l].
  - rewrite run_chr_nil. now destruct hi as [[|]|].
  - rewrite run_chr_cons, H. now destruct hi as [[|]|].
Qed.

(** A run of one character: it is tried with the character, then
    without. *)
Lemma iterate_one q k fuel p c l cp :
  q c = true ->
  match l with x :: _ => q x = false | [] => True end ->
  iterate (Chr q) k (S fuel) 0 None (mkPos p (c :: l) cp)
  = match k (mkPos (Some c) l cp) with
    | Some x => Some x
    | None => k (mkPos p (c :: l) cp)
    end.
Proof.
  intros Hc Hl. rewrite iterate_eq. cbn [option_map pred].
  rewrite run_chr_cons, Hc. cbn [rest]. rewrite ltb_cons.
  now rewrite iterate_blocked.
Qed.

Lemma neat_not_space x :
  is_space x = false -> Ascii.eqb " " x = false.
Proof.
  intros H. destruct (Ascii.eqb " " x) eqn:E; [|reflexivity].
  apply Ascii.eqb_eq in E. now subst x.
Qed.

Lemma run_medical_tail q l :
  tidy l = true -> space_at l = false ->
  run (seq [opt (chr "-"); star space; lit "medical"]) (mkPos q l None) Some
  = match strip (chars "medical") l with
    | Some after => Some (mkPos (Some "l"%char) after None)
    | None => None
    end.
Proof.
  intros Ht Hs. cbn [seq]. unfold opt, star, space, chr at 1.
  rewrite run_seq, run_rep, iterate_blocked.
  - rewrite run_seq, run_rep, iterate_blocked.
    + now rewrite run_lit.
    + destruct l; [exact I|exact Hs].
  - destruct l as [|x l]; [exact I|]. now apply neat_hyphen, (tidy_hd x l).
Qed.

(** [pre\s*-?\s*medical] in a tidy text matches premedical and
    pre medical. *)
Lemma run_premedical p l :
  tidy l = true ->
  run premedical_re (mkPos p l None) Some
  = match strip (chars "pre") l with
    | Some l1 =>
        match strip (chars "medical") l1 with
        | Some after => Some (mkPos (Some "l"%char) after None)
        | None =>
            match strip (chars " medical") l1 with
            | Some after => Some (mkPos (Some "l"%char) after None)
            | None => None
            end
        end
    | None => None
    end.
Proof.
  intros Ht. unfold premedical_re.
  change (seq [lit "pre"; star space; opt (chr "-"); star space;
               lit "medical"])
    with (Seq (lit "pre")
              (Seq (star space)
                   (seq [opt (chr "-"); star space; lit "medical"]))).
  rewrite run_seq, run_lit by discriminate.
  destruct (strip (chars "pre") l) as [l1|] eqn:Hpre; [|reflexivity].
  apply strip_app in Hpre. subst l. apply tidy_app_r in Ht.
  rewrite run_seq. unfold star at 1, space at 1. rewrite run_rep.
  destruct l1 as [|x l4].
  - rewrite iterate_blocked by exact I. now rewrite run_medical_tail.
  - destruct (is_space x) eqn:Hx.
    + pose proof (neat_space x (tidy_hd _ _ Ht) Hx) as ->.
      pose proof (tidy_spaces _ _ Ht Hx) as Hnext.
      cbn [rest List.length]. rewrite iterate_one;
        [|reflexivity|destruct l4; [exact I|exact Hnext]].
      rewrite run_medical_tail by (eauto using tidy_cons).
      change (strip (chars " medical") (" "%char :: l4))
        with (strip (chars "medical") l4).
      change (strip (chars "medical") (" "%char :: l4)) with (@None (list ascii)).
      destruct (strip (chars "medical") l4) eqn:Hmed; [reflexivity|].
      cbn [seq]. unfold opt, star, space, chr at 1.
      rewrite run_seq, run_rep, iterate_blocked by reflexivity.
      rewrite run_seq, run_rep. cbn [rest List.length].
      rewrite iterate_one;
        [|reflexivity|destruct l4; [exact I|exact Hnext]].
      rewrite !run_lit by discriminate.
      change (strip (chars "medical") (" "%char :: l4)) with (@None (list ascii)).
      now rewrite Hmed.
    + rewrite iterate_blocked by exact Hx.
      rewrite run_medical_tail by assumption.
      destruct (strip (chars "medical") (x :: l4)); [reflexivity|].
      cbn [chars list_ascii_of_string strip].
      now rewrite (neat_not_space x Hx).
Qed.

Lemma unify_medical l :
  unify (chars "medical" ++ l) = chars "medical" ++ unify l.
Proof. destruct l as [|x [|y l]]; reflexivity. Qed.

Lemma unify_pre_medical l :
  unify (chars "pre medical" ++ l) = chars "pre medical" ++ unify l.
Proof. destruct l as [|x [|y l]]; reflexivity. Qed.

Lemma unify_eq p r e l :
  unify (p :: r :: e :: l)
  = if starts "pre" (p :: r :: e :: l) && starts "medical" l
    then p :: r :: e :: " "%char :: unify l
    else p :: unify (r :: e :: l).
Proof. reflexivity. Qed.

Lemma unify_premedical l :
  unify (chars "premedical" ++ l) = chars "pre medical" ++ unify l.
Proof.
  change (chars "premedical" ++ l)
    with ("p"%char :: "r"%char :: "e"%char :: (chars "medical" ++ l)).
  rewrite unify_eq, unify_medical. reflexivity.
Qed.

Lemma unify_skip c l :
  match strip (chars "pre") (c :: l) with
  | Some l1 => strip (chars "medical") l1 = None
  | None => True
  end ->
  unify (c :: l) = c :: unify l.
Proof.
  intros H. destruct l as [|r [|e l]]; try reflexivity.
  rewrite unify_eq. unfold starts at 1.
  destruct (strip (chars "pre") (c :: r :: e :: l)) as [l1|] eqn:E;
    [|reflexivity].
  pose proof (strip_app _ _ _ E) as E'. injection E' as _ _ _ ->.
  unfold starts. now rewrite H.
Qed.

(** [/pre\s*-?\s*medical/g] in a tidy text: pre medical for
    premedical. *)
Lemma scan_premedical : forall n l fuel p,
  tidy l = true -> List.length l <= n -> List.length l < fuel ->
  render to_premedical (scan fuel premedical_re p l) = of_chars (unify l).
Proof.
  induction n as [|n IH]; intros l [|fuel] p Ht Hn Hf; try (cbn in Hf; lia).
  - destruct l; [|cbn in Hn; lia]. apply scan_end.
    now rewrite run_premedical.
  - pose proof (run_premedical p l Ht) as Hrun.
    destruct (strip (chars "pre") l) as [l1|] eqn:Hpre.
    + pose proof (strip_app _ _ _ Hpre) as ->.
      destruct (strip (chars "medical") l1) as [after|] eqn:Hmed.
      * pose proof (strip_app _ _ _ Hmed) as ->.
        rewrite (scan_match _ _ _ _ _ _ Hrun); cbn [prev Regex.rest cap].
        2:{ apply consumed_nonempty. rewrite !length_app. cbn. lia. }
        rewrite !length_app in Hn, Hf. cbn in Hn, Hf.
        rewrite IH; [| |lia|lia].
        2:{ apply tidy_app_r in Ht. now apply tidy_app_r in Ht. }
        rewrite app_assoc.
        change (chars "pre" ++ chars "medical") with (chars "premedical").
        rewrite unify_premedical, of_chars_app. reflexivity.
      * destruct (strip (chars " medical") l1) as [after|] eqn:Hmed'.
        -- pose proof (strip_app _ _ _ Hmed') as ->.
           rewrite (scan_match _ _ _ _ _ _ Hrun); cbn [prev Regex.rest cap].
           2:{ apply consumed_nonempty. rewrite !length_app. cbn. lia. }
           rewrite !length_app in Hn, Hf. cbn in Hn, Hf.
           rewrite IH; [| |lia|lia].
           2:{ apply tidy_app_r in Ht. now apply tidy_app_r in Ht. }
           rewrite app_assoc.
           change (chars "pre" ++ chars " medical")
             with (chars "pre medical").
           rewrite unify_pre_medical, of_chars_app. reflexivity.
        -- change (chars "pre" ++ l1)
             with ("p"%char :: (chars "re" ++ l1)) in *.
           rewrite (scan_skip _ _ _ _ _ _ Hrun). cbn in Hn, Hf.
           rewrite IH;
             [|eapply tidy_cons; eassumption|cbn in *; lia|cbn in *; lia].
           rewrite unify_skip; [reflexivity|].
           now rewrite Hpre.
    + destruct l as [|c l]; [now apply scan_end|].
      rewrite (scan_skip _ _ _ _ _ _ Hrun). cbn in Hn, Hf.
      rewrite IH;
             [|eapply tidy_cons; eassumption|cbn in *; lia|cbn in *; lia].
      rewrite unify_skip; [reflexivity|]. now rewrite Hpre.
Qed.

End PremedicalFacts.

(* ================================================================== *)
(** * The steps of normalizeSemKey together

    The text behind the first three steps is tidy, and stays so behind
    the numerals; with that, the steps compose to [specKey]. *)

Module TidyFacts.
Import JSString Regex Compare Names Scan ScanFacts SemesterFacts
       PremedicalFacts.

Lemma chars_map_string f s : chars (map_string f s) = map f (chars s).
Proof. induction s as [|c s IH]; cbn; [reflexivity|]. now rewrite IH. Qed.

Lemma length_chars s : List.length (chars s) = String.length s.
Proof. induction s as [|c s IH]; cbn; [reflexivity|]. now rewrite IH. Qed.

Lemma lower_lowered c : lowered (lower_char c) = true.
Proof.
  destruct c as [b0 b1 b2 b3 b4 b5 b6 b7].
  destruct b0, b1, b2, b3, b4, b5, b6, b7; reflexivity.
Qed.

Lemma word_not_space c : is_word c = true -> is_space c = false.
Proof.
  destruct c as [b0 b1 b2 b3 b4 b5 b6 b7].
  destruct b0, b1, b2, b3, b4, b5, b6, b7; intros H;
    first [discriminate H | reflexivity].
Qed.

Lemma lowered_chars name : forallb lowered (chars (toLowerCase name)) = true.
Proof.
  unfold toLowerCase. rewrite chars_map_string. apply forallb_forall.
  intros x Hx. apply in_map_iff in Hx. destruct Hx as [c [<- _]].
  apply lower_lowered.
Qed.

Lemma unmarked_undash : forall n l,
  List.length l <= n -> forallb lowered l = true ->
  forallb unmarked (undash l) = true.
Proof.
  induction n as [|n IH]; intros l Hn Hl.
  - destruct l; [reflexivity|cbn in Hn; lia].
  - destruct l as [|a l]; [reflexivity|]. cbn in Hn, Hl.
    apply andb_prop in Hl. destruct Hl as [Ha Hl]. cbn [undash].
    destruct (Ascii.eqb "-" a) eqn:E.
    + cbn. apply IH; [lia|assumption].
    + assert (Hkeep : forallb unmarked (a :: undash l) = true).
      { cbn. unfold unmarked at 1. unfold lowered in Ha. rewrite Ha, E.
        cbn. apply IH; [lia|assumption]. }
      destruct l as [|b [|c l]]; try exact Hkeep.
      destruct (is_dash a b c); [|exact Hkeep].
      cbn. apply IH; [cbn in Hn; lia|].
      cbn in Hl. now split_andb.
Qed.

Lemma unmarked_unpunct l :
  forallb unmarked l = true -> forallb unmarked (unpunct l) = true.
Proof.
  unfold unpunct.
  induction l as [|c l IH]; [reflexivity|]. cbn [map forallb]. intros H.
  apply andb_prop in H. destruct H as [Hc Hl]. rewrite (IH Hl).
  destruct (is_punct c); [reflexivity|]. now rewrite Hc.
Qed.

Lemma neat_squeeze : forall l b,
  forallb unmarked l = true -> forallb neat (squeeze b l) = true.
Proof.
  induction l as [|c l IH]; intros b H; [reflexivity|]. cbn in H.
  apply andb_prop in H. destruct H as [Hc Hl]. cbn [squeeze].
  destruct (is_space c) eqn:E.
  - destruct b; [now apply IH|]. cbn [forallb]. rewrite IH by assumption.
    reflexivity.
  - cbn [forallb]. rewrite IH by assumption. unfold neat.
    unfold unmarked in Hc. now rewrite Hc, E.
Qed.

Lemma spaced_squeeze l :
  spaced (squeeze false l) = true /\ spaced (squeeze true l) = true /\
  space_at (squeeze true l) = false.
Proof.
  induction l as [|c l [IH1 [IH2 IH3]]]; [now repeat split|].
  cbn [squeeze]. destruct (is_space c) eqn:E.
  - repeat split; try assumption.
    cbn [spaced]. now rewrite IH3, IH2, andb_false_r.
  - cbn [spaced space_at]. now rewrite E, IH1.
Qed.

Lemma tidy_squeeze l :
  forallb unmarked l = true -> tidy (squeeze false l) = true.
Proof.
  intros H. unfold tidy. rewrite neat_squeeze by assumption.
  now destruct (spaced_squeeze l) as [-> _].
Qed.

Lemma spaced_app_l : forall a b, spaced (a ++ b) = true -> spaced a = true.
Proof.
  induction a as [|c a IH]; intros b H; [reflexivity|].
  cbn [app spaced] in *. apply andb_prop in H. destruct H as [H1 H2].
  rewrite (IH b H2), andb_true_r.
  destruct a; [now rewrite andb_false_r|exact H1].
Qed.

Lemma tidy_app_l a b : tidy (a ++ b) = true -> tidy a = true.
Proof.
  unfold tidy. intros H. apply andb_prop in H. destruct H as [H1 H2].
  rewrite forallb_app in H1. apply andb_prop in H1.
  destruct H1 as [-> _]. now rewrite (spaced_app_l a b).
Qed.

(** Trimming keeps a text tidy. *)
Lemma tidy_trim l : tidy l = true -> tidy (chars (trim (of_chars l))) = true.
Proof.
  intros H. unfold trim. rewrite !chars_of.
  pose proof (take_drop is_space l) as E1.
  rewrite <- E1 in H. apply tidy_app_r in H.
  pose proof (take_drop is_space (rev (dropWhile is_space l))) as E2.
  apply (f_equal (@rev _)) in E2. rewrite rev_app_distr, rev_involutive in E2.
  rewrite <- E2 in H. now apply tidy_app_l in H.
Qed.

Lemma numeral_neat w d :
  numeral w = Some d -> neat d = true.
Proof.
  intros H. unfold numeral in H.
  repeat match type of H with
         | context [String.eqb ?a ?b] => destruct (String.eqb a b)
         end; try discriminate H; injection H as <-; reflexivity.
Qed.

Lemma digits_word acc :
  forallb is_word acc = true -> forallb is_word (digits acc) = true.
Proof.
  intros H. unfold digits. destruct (numeral acc) as [d|] eqn:E; [|exact H].
  cbn. now destruct (numeral_digit _ _ E) as [-> _].
Qed.

Lemma digits_neat acc :
  forallb neat acc = true -> forallb neat (digits acc) = true.
Proof.
  intros H. unfold digits. destruct (numeral acc) as [d|] eqn:E; [|exact H].
  cbn. now rewrite (numeral_neat _ _ E).
Qed.

Lemma digits_nil acc : digits acc = [] -> acc = [].
Proof.
  unfold digits. destruct (numeral acc); [discriminate|trivial].
Qed.

Lemma neat_romanWords : forall l acc,
  forallb neat acc = true -> forallb neat l = true ->
  forallb neat (romanWords acc l) = true.
Proof.
  induction l as [|c l IH]; intros acc Ha Hl; cbn [romanWords].
  - now apply digits_neat.
  - cbn in Hl. apply andb_prop in Hl. destruct Hl as [Hc Hl].
    destruct (is_word c).
    + apply IH; [|assumption]. rewrite forallb_app, Ha. cbn. now rewrite Hc.
    + rewrite forallb_app, digits_neat by assumption. cbn.
      rewrite Hc. now apply IH.
Qed.

Lemma spaced_words a b :
  forallb is_word a = true -> spaced b = true -> spaced (a ++ b) = true.
Proof.
  intros Ha Hb. induction a as [|c a IH]; [exact Hb|].
  cbn in Ha. apply andb_prop in Ha. destruct Ha as [Hc Ha].
  cbn [app spaced]. rewrite (word_not_space c Hc), (IH Ha). reflexivity.
Qed.

Lemma space_at_words a b :
  forallb is_word a = true -> a <> [] -> space_at (a ++ b) = false.
Proof.
  intros Ha Hne. destruct a as [|c a]; [congruence|]. cbn in *.
  apply andb_prop in Ha. destruct Ha as [Hc _]. now apply word_not_space.
Qed.

Lemma spaced_romanWords : forall l acc,
  forallb is_word acc = true -> spaced l = true ->
  spaced (romanWords acc l) = true /\
  (space_at (romanWords acc l) = true -> acc = [] /\ space_at l = true).
Proof.
  induction l as [|c l IH]; intros acc Ha Hl; cbn [romanWords].
  - split.
    + rewrite <- (app_nil_r (digits acc)).
      apply spaced_words; [now apply digits_word|reflexivity].
    + intros H. destruct (digits acc) as [|x xs] eqn:E.
      * discriminate.
      * rewrite <- (app_nil_r (x :: xs)), space_at_words in H;
          [discriminate| |discriminate].
        rewrite <- E. now apply digits_word.
  - cbn [spaced] in Hl. apply andb_prop in Hl. destruct Hl as [Hc Hl].
    destruct (is_word c) eqn:Hw.
    + destruct (IH (acc ++ [c])) as [H1 H2]; [|assumption|].
      { rewrite forallb_app, Ha. cbn. now rewrite Hw. }
      split; [exact H1|]. intros H. apply H2 in H. destruct H as [H _].
      now destruct acc.
    + destruct (IH []) as [H1 H2]; [reflexivity|assumption|].
      assert (Htail : spaced (c :: romanWords [] l) = true).
      { cbn [spaced]. rewrite H1, andb_true_r.
        destruct (is_space c); [|reflexivity]. cbn in *.
        destruct (space_at (romanWords [] l)) eqn:E; [|reflexivity].
        destruct (H2 eq_refl) as [_ H3]. now rewrite H3 in Hc. }
      split.
      * apply spaced_words; [now apply digits_word|exact Htail].
      * intros H. destruct (digits acc) as [|x xs] eqn:E.
        -- apply digits_nil in E. subst acc. cbn in H. now split.
        -- rewrite space_at_words in H; [discriminate| |discriminate].
           rewrite <- E. now apply digits_word.
Qed.

Lemma tidy_romanWords l : tidy l = true -> tidy (romanWords [] l) = true.
Proof.
  unfold tidy. intros H. apply andb_prop in H. destruct H as [H1 H2].
  rewrite neat_romanWords by (reflexivity || assumption).
  now destruct (spaced_romanWords l [] eq_refl H2) as [-> _].
Qed.

(** The text behind the first three steps of [normalizeSemKey]. *)
Lemma tidy_collapsed name :
  tidy (chars (trim (of_chars (squeeze false
          (unpunct (undash (chars (toLowerCase name)))))))) = true.
Proof.
  apply tidy_trim, tidy_squeeze, unmarked_unpunct.
  apply (unmarked_undash _ _ (le_n _)), lowered_chars.
Qed.

(** ** The steps of normalizeSemKey, one by one *)

Lemma replace_dashes s :
  replaceAll (alt [chr "-"; lit en_dash; lit em_dash]) to_space s
  = of_chars (undash (chars s)).
Proof.
  rewrite replaceAll_render.
  apply (scan_dashes _ _ _ _ (le_n _)). rewrite length_chars. lia.
Qed.

Lemma replace_punct s :
  replaceAll (one_of "(),.:") to_space s = of_chars (unpunct (chars s)).
Proof.
  rewrite replaceAll_render. apply scan_punct. rewrite length_chars. lia.
Qed.

Lemma replace_spaces s :
  replaceAll (plus space) to_space s = of_chars (squeeze false (chars s)).
Proof.
  rewrite replaceAll_render.
  apply (scan_spaces _ _ _ _ (le_n _)). rewrite length_chars. lia.
Qed.

Lemma replace_roman s :
  replaceAll (seq [WordB; roman_group; WordB]) (fun _ r => romanToInt r) s
  = of_chars (romanWords [] (chars s)).
Proof.
  rewrite replaceAll_render.
  apply (scan_roman _ _ _ None (le_n _)). rewrite length_chars. lia.
Qed.

Lemma replace_semester s :
  tidy (chars s) = true ->
  romanWords []
    (chars (replaceAll
              (seq [WordB; lit_i "semester"; plus space; roman_group; WordB])
              (fun _ r => ("semester " ++ romanToInt r)%string) s))
  = romanWords [] (chars s).
Proof.
  intros H. rewrite replaceAll_render.
  apply (scan_semester _ _ _ _ _ H (le_n _)). rewrite length_chars. lia.
Qed.

Lemma replace_premedical s :
  tidy (chars s) = true ->
  replaceAll
    (seq [lit "pre"; star space; opt (chr "-"); star space; lit "medical"])
    (fun _ _ => "pre medical") s
  = of_chars (unify (chars s)).
Proof.
  intros H. rewrite replaceAll_render.
  apply (scan_premedical _ _ _ _ H (le_n _)). rewrite length_chars. lia.
Qed.

(** [normalizeSemKey] computes the key the specification describes. *)
Lemma normalizeSemKey_spec name : normalizeSemKey name = specKey name.
Proof.
  unfold normalizeSemKey, specKey.
  destruct (truthy name) eqn:E; [|now destruct name]. cbn [negb].
  rewrite replace_dashes, replace_punct, replace_spaces, !chars_of.
  pose proof (tidy_collapsed name) as Ht.
  set (c := trim _) in *.
  rewrite replace_roman, replace_semester by exact Ht.
  rewrite replace_premedical; rewrite chars_of; [reflexivity|].
  now apply tidy_romanWords.
Qed.

End TidyFacts.

(* ================================================================== *)
(** * Names built of words and separators *)

Module VariantFacts.
Import JSString Regex Compare Names Scan.
Import ScanFacts SemesterFacts PremedicalFacts TidyFacts.

Lemma lower_app a b :
  toLowerCase (a ++ b) = (toLowerCase a ++ toLowerCase b)%string.
Proof. induction a as [|x a IH]; cbn; [reflexivity|]. now rewrite IH. Qed.

Lemma space_lowered c : is_space c = true -> lower_char c = c.
Proof.
  destruct c as [b0 b1 b2 b3 b4 b5 b6 b7].
  destruct b0, b1, b2, b3, b4, b5, b6, b7; intros H;
    first [discriminate H | reflexivity].
Qed.

Lemma space_kept c :
  is_space c = true ->
  Ascii.eqb "-" c = false /\ Ascii.eqb (ascii_of_nat 226) c = false /\
  is_punct c = false.
Proof.
  destruct c as [b0 b1 b2 b3 b4 b5 b6 b7].
  destruct b0, b1, b2, b3, b4, b5, b6, b7; intros H;
    first [discriminate H | repeat split].
Qed.

Lemma lower_separator s : separator s -> toLowerCase s = s.
Proof.
  intros [H|[c [Hc ->]]].
  - cbn in H. repeat (destruct H as [<-|H]; [reflexivity|]). destruct H.
  - cbn. now rewrite space_lowered.
Qed.

Lemma lower_gap seps :
  Forall separator seps -> toLowerCase (gap seps) = gap seps.
Proof.
  induction 1 as [|s seps Hs _ IH]; [reflexivity|].
  cbn [gap fold_right]. rewrite lower_app, (lower_separator s Hs).
  now f_equal.
Qed.

(** A character that is no hyphen and does not begin a dash is kept by
    [undash]. *)
Lemma undash_keep a l :
  Ascii.eqb "-" a = false -> Ascii.eqb (ascii_of_nat 226) a = false ->
  undash (a :: l) = a :: undash l.
Proof.
  intros H1 H2. cbn [undash]. rewrite H1. unfold is_dash. rewrite H2.
  now destruct l as [|b [|c l]].
Qed.

(** The marks and the whitespace behind the first two steps: a
    whitespace character for each separator. *)
Lemma unmark_separator s :
  separator s ->
  exists c, is_space c = true /\
    forall l, unpunct (undash (chars s ++ l)) = c :: unpunct (undash l).
Proof.
  intros [H|[c [Hc ->]]].
  - exists " "%char. split; [reflexivity|]. intros l. cbn in H.
    destruct H as [<-|[<-|[<-|H]]]; try reflexivity.
    repeat (destruct H as [<-|H];
            [cbn [chars list_ascii_of_string app];
             rewrite undash_keep by reflexivity; reflexivity|]).
    destruct H.
  - exists c. split; [assumption|]. intros l.
    destruct (space_kept c Hc) as [H1 [H2 H3]].
    cbn [chars list_ascii_of_string app]. rewrite undash_keep by assumption.
    unfold unpunct. cbn [map]. now rewrite H3.
Qed.

Lemma unmark_gap seps :
  Forall separator seps ->
  exists ws, forallb is_space ws = true /\
    List.length ws = List.length seps /\
    forall l, unpunct (undash (chars (gap seps) ++ l))
              = ws ++ unpunct (undash l).
Proof.
  induction 1 as [|s seps Hs _ [ws [H1 [H2 H3]]]].
  - exists []. now repeat split.
  - destruct (unmark_separator s Hs) as [c [Hc Hl]].
    exists (c :: ws). cbn [forallb List.length]. rewrite Hc, H1, H2.
    repeat split. intros l. cbn [gap fold_right].
    rewrite chars_app, <- app_assoc, Hl. fold (gap seps).
    now rewrite H3.
Qed.

Lemma unmark_solid : forall w l,
  forallb solid w = true ->
  unpunct (undash (w ++ l)) = w ++ unpunct (undash l).
Proof.
  induction w as [|c w IH]; intros l H; [reflexivity|].
  cbn in H. apply andb_prop in H. destruct H as [Hc Hw].
  unfold solid in Hc. split_andb.
  repeat match goal with
         | H : negb _ = true |- _ => apply negb_true_iff in H
         end.
  cbn [app]. rewrite undash_keep by assumption.
  unfold unpunct at 1. cbn [map]. fold (unpunct (undash (w ++ l))).
  rewrite IH by assumption.
  match goal with H : is_punct c = false |- _ => now rewrite H end.
Qed.

Lemma squeeze_solid : forall w b l,
  forallb solid w = true -> w <> [] ->
  squeeze b (w ++ l) = w ++ squeeze false l.
Proof.
  induction w as [|c w IH]; intros b l H Hne; [congruence|].
  cbn in H. apply andb_prop in H. destruct H as [Hc Hw].
  assert (Hs : is_space c = false).
  { unfold solid in Hc. split_andb. now apply negb_true_iff. }
  cbn [app squeeze]. rewrite Hs. f_equal.
  destruct w as [|c' w]; [reflexivity|]. now apply IH.
Qed.

Lemma squeeze_blanks : forall ws b l,
  forallb is_space ws = true -> ws <> [] ->
  squeeze b (ws ++ l) = (if b then [] else [" "%char]) ++ squeeze true l.
Proof.
  induction ws as [|c ws IH]; intros b l H Hne; [congruence|].
  cbn in H. apply andb_prop in H. destruct H as [Hc Hw].
  cbn [app squeeze]. rewrite Hc.
  destruct ws as [|c' ws].
  - now destruct b.
  - destruct b; rewrite (IH true l Hw) by discriminate; reflexivity.
Qed.

Lemma squeeze_gap (seps : list string) ws b l :
  forallb is_space ws = true -> List.length ws = List.length seps ->
  squeeze b (ws ++ l)
  = match seps with
    | [] => squeeze b l
    | _ :: _ => (if b then [] else [" "%char]) ++ squeeze true l
    end.
Proof.
  intros H1 H2. destruct seps as [|s seps].
  - now destruct ws.
  - apply squeeze_blanks; [assumption|]. now destruct ws.
Qed.

(** The first three steps on two words with separators between and
    behind them. *)
Lemma collapsed_words a seps m seps' :
  forallb solid (chars a) = true -> forallb solid (chars m) = true ->
  a <> "" -> m <> "" ->
  Forall separator seps -> Forall separator seps' ->
  squeeze false
    (unpunct (undash (chars (a ++ gap seps ++ m ++ gap seps'))))
  = chars a ++ gapSpace seps ++ chars m ++ gapSpace seps'.
Proof.
  intros Ha Hm Hane Hmne Hs Hs'.
  destruct (unmark_gap seps Hs) as [ws [W1 [W2 W3]]].
  destruct (unmark_gap seps' Hs') as [ws' [W1' [W2' W3']]].
  rewrite !chars_app, unmark_solid, W3, unmark_solid by assumption.
  rewrite <- (app_nil_r (chars (gap seps'))), W3'. cbn [undash unpunct map].
  assert (Hca : chars a <> []) by (destruct a; [congruence|discriminate]).
  assert (Hcm : chars m <> []) by (destruct m; [congruence|discriminate]).
  rewrite squeeze_solid by assumption. f_equal.
  assert (Htail : forall b, squeeze b (chars m ++ ws' ++ [])
                            = chars m ++ gapSpace seps').
  { intros b. rewrite squeeze_solid by assumption. f_equal.
    rewrite (squeeze_gap seps') by assumption. now destruct seps'. }
  rewrite (squeeze_gap seps) by assumption.
  destruct seps; cbn [gapSpace app]; now rewrite Htail.
Qed.

Lemma numeral_lower w d :
  numeral (chars w) = Some d ->
  In (toLowerCase w, d)
     [("i", "1"%char); ("ii", "2"%char); ("iii", "3"%char);
      ("iv", "4"%char); ("v", "5"%char)].
Proof.
  unfold numeral. rewrite of_chars_of. cbv zeta.
  repeat match goal with
         | |- context [String.eqb (toLowerCase w) ?b] =>
             destruct (String.eqb (toLowerCase w) b) eqn:?
         end; intros H; try discriminate H; injection H as <-;
    match goal with
    | E : String.eqb _ _ = true |- _ => apply String.eqb_eq in E; rewrite E
    end; cbn; tauto.
Qed.

(** The key of the word semester, separators, and a numeral or its
    digit, with separators behind. *)
Lemma semester_names sem seps w d seps' :
  toLowerCase sem = "semester" -> seps <> [] ->
  Forall separator seps -> Forall separator seps' ->
  numeral (chars w) = Some d ->
  normalizeSemKey (sem ++ gap seps ++ w ++ gap seps')
  = ("semester " ++ String d "")%string /\
  normalizeSemKey (sem ++ gap seps ++ String d "" ++ gap seps')
  = ("semester " ++ String d "")%string.
Proof.
  intros Hsem Hne Hs Hs' Hnum. apply numeral_lower in Hnum.
  rewrite !normalizeSemKey_spec. unfold specKey.
  rewrite !lower_app, !lower_gap, Hsem by assumption.
  rewrite !chars_of.
  destruct seps as [|s seps]; [congruence|].
  cbn in Hnum.
  assert (Hkey : forall m r,
            forallb solid (chars m) = true -> m <> "" ->
            (forall tl, tl = [] \/ tl = [" "%char] ->
               of_chars (unify (romanWords []
                 (chars (trim (of_chars
                    (chars "semester" ++ [" "%char] ++ chars m ++ tl))))))
               = r) ->
            of_chars (unify (romanWords [] (chars (trim (of_chars
              (squeeze false (unpunct (undash (chars
                 ("semester" ++ gap (s :: seps) ++ m ++ gap seps'))))))))))
            = r).
  { intros m r Hm Hmne Hr.
    rewrite collapsed_words by (assumption || reflexivity || discriminate).
    apply Hr. destruct seps'; [now left|now right]. }
  assert (Hcase : forall lw x,
            (lw, x) = (toLowerCase w, d) ->
            forallb solid (chars lw) = true -> lw <> "" ->
            forallb solid [x] = true ->
            toLowerCase (String x "") = String x "" ->
            (forall tl, tl = [] \/ tl = [" "%char] ->
               of_chars (unify (romanWords []
                 (chars (trim (of_chars
                    (chars "semester" ++ [" "%char] ++ chars lw ++ tl))))))
               = ("semester " ++ String x "")%string) ->
            (forall tl, tl = [] \/ tl = [" "%char] ->
               of_chars (unify (romanWords []
                 (chars (trim (of_chars
                    (chars "semester" ++ [" "%char] ++ [x] ++ tl))))))
               = ("semester " ++ String x "")%string) ->
            of_chars (unify (romanWords [] (chars (trim (of_chars
              (squeeze false (unpunct (undash (chars
                 ("semester" ++ gap (s :: seps) ++ toLowerCase w
                  ++ gap seps'))))))))))
            = ("semester " ++ String d "")%string /\
            of_chars (unify (romanWords [] (chars (trim (of_chars
              (squeeze false (unpunct (undash (chars
                 ("semester" ++ gap (s :: seps) ++ toLowerCase (String d "")
                  ++ gap seps'))))))))))
            = ("semester " ++ String d "")%string).
  { intros lw x E H1 H2 H3 H6 H4 H5. injection E as <- <-. split.
    - now apply Hkey.
    - rewrite H6. apply Hkey; [exact H3|discriminate|exact H5]. }
  destruct Hnum as [E|[E|[E|[E|[E|[]]]]]];
    apply (Hcase _ _ E); try reflexivity; try discriminate;
    intros tl [->| ->]; reflexivity.
Qed.

(** The key of the spellings of pre-medical. *)
Lemma premedical_names p seps m :
  toLowerCase p = "pre" -> toLowerCase m = "medical" ->
  Forall separator seps ->
  normalizeSemKey (p ++ gap seps ++ m) = "pre medical".
Proof.
  intros Hp Hm Hs.
  rewrite normalizeSemKey_spec. unfold specKey.
  rewrite !lower_app, lower_gap, Hp, Hm by assumption.
  rewrite !chars_of.
  change (gap seps ++ "medical")%string
    with (gap seps ++ "medical" ++ gap [])%string.
  rewrite collapsed_words
    by (assumption || reflexivity || discriminate || constructor).
  destruct seps; reflexivity.
Qed.

End VariantFacts.

(* ================================================================== *)
(** * The key of a term name *)

Module NameFacts.
Import JSString Catalog Compare Names.

(** C4. For every name made of ASCII characters and en or em dashes,
    [normalizeSemKey] computes the key the specification describes:
    the name in lower case, a space for each of the marks - en dash, em
    dash ( ) , . : , one space for each run of whitespace and none at
    the ends, a digit for each Roman numeral from I to V that stands as
    a word (behind the word semester as anywhere else), and pre medical
    in two words.  The key does not depend on the case of the letters.
    The word semester, in any case, followed by marks and whitespace
    and by a numeral from I to V, in any case, or by its digit, has the
    key made of semester, a space and the digit, whatever marks and
    whitespace follow; pre and medical, in any case, with or without
    marks and whitespace between them, have the key pre medical.
    "Semester-2" and "Semester II" get the same key.  A scraped name
    that is no key of the sheet map is matched to the first key with
    the same normalized name, and a live term and a reference term
    whose names get the same key are matched: the report has the one
    element that compares them. *)
Theorem term_name_normalization :
  (forall name, plainName name -> normalizeSemKey name = specKey name) /\
  (forall name, plainName name ->
     normalizeSemKey (toUpperCase name) = normalizeSemKey name) /\
  (forall sem seps w d seps',
     toLowerCase sem = "semester" -> seps <> [] ->
     Forall separator seps -> Forall separator seps' ->
     numeral (chars w) = Some d ->
     normalizeSemKey (sem ++ gap seps ++ w ++ gap seps')
     = ("semester " ++ String d "")%string /\
     normalizeSemKey (sem ++ gap seps ++ String d "" ++ gap seps')
     = ("semester " ++ String d "")%string) /\
  (forall pre seps medical,
     toLowerCase pre = "pre" -> toLowerCase medical = "medical" ->
     Forall separator seps ->
     normalizeSemKey (pre ++ gap seps ++ medical) = "pre medical") /\
  (normalizeSemKey "Semester-2" = "semester 2" /\
   normalizeSemKey "Semester II" = "semester 2") /\
  map normalizeSemKey
      ["Semester I"; "SEMESTER  ii"; "Semester: III"; "semester-IV";
       "Semester (V)"]
  = ["semester 1"; "semester 2"; "semester 3"; "semester 4"; "semester 5"] /\
  map normalizeSemKey
      ["Part IV, Spring."; "I"; ("Year II " ++ en_dash ++ " Term V")%string;
       ("III" ++ em_dash ++ "iv")%string; "Semester VI"; "Civil"]
  = ["part 4 spring"; "1"; "year 2 term 5"; "3 4"; "semester vi"; "civil"] /\
  map normalizeSemKey
      ["Pre-Medical"; "pre medical"; "PreMedical"; "Pre- medical";
       "Pre - Medical"]
  = ["pre medical"; "pre medical"; "pre medical"; "pre medical";
     "pre medical"] /\
  (forall (sheetMap : JSMap.t semester) scrapedSem k,
     JSMap.has (name scrapedSem) sheetMap = false ->
     find (fun k' => String.eqb (normalizeSemKey k')
                                (normalizeSemKey (name scrapedSem)))
          (JSMap.keys sheetMap) = Some k ->
     truthy k = true ->
     matchedKey sheetMap scrapedSem = Some k) /\
  forall v a b cs cs',
    truthy b = true ->
    normalizeSemKey a = normalizeSemKey b ->
    main v [mkSemester a cs] [mkSemester b cs']
    = let diffs := compareSemesters v (mkSemester a cs) (mkSemester b cs') in
      [Report.mkSemester a b (List.length diffs) diffs].
Proof.
  split; [intros name _; apply TidyFacts.normalizeSemKey_spec|].
  split; [intros name _; apply ReportFacts.normalizeSemKey_upper|].
  split; [exact VariantFacts.semester_names|].
  split; [exact VariantFacts.premedical_names|].
  split; [split; vm_compute; reflexivity|].
  split; [vm_compute; reflexivity|].
  split; [vm_compute; reflexivity|].
  split; [vm_compute; reflexivity|].
  split; [exact ReportFacts.matchedKey_normalized|].
  intros. now apply ReportFacts.main_single.
Qed.

Ltac separators :=
  repeat (apply Forall_cons;
          [first [ now (left; cbn; auto 10)
                 | now (right; eexists; split; [|reflexivity];
                        reflexivity) ]|]);
  apply Forall_nil.

Lemma term_name_normalization_witness :
  plainName ("Semester II " ++ en_dash ++ " Pre-Medical (Spring)") /\
  normalizeSemKey ("Semester II " ++ en_dash ++ " Pre-Medical (Spring)")
  = "semester 2 pre medical spring" /\
  normalizeSemKey "SEMESTER: (iV)" = "semester 4" /\
  normalizeSemKey ("Pre " ++ em_dash ++ " MEDICAL") = "pre medical" /\
  main Courses [mkSemester "Semester-2" [Samples.programming]]
               [mkSemester "Semester II" [Samples.calculus]]
  = let diffs := compareSemesters Courses
                   (mkSemester "Semester-2" [Samples.programming])
                   (mkSemester "Semester II" [Samples.calculus]) in
    [Report.mkSemester "Semester-2" "Semester II" (List.length diffs) diffs].
Proof.
  destruct term_name_normalization
    as [H1 [_ [H3 [H4 [_ [_ [_ [_ [_ H10]]]]]]]]].
  split; [reflexivity|]. split; [|split; [|split]].
  - rewrite H1 by reflexivity. vm_compute. reflexivity.
  - apply (H3 "SEMESTER" [":"; " "; "("] "iV" "4"%char [")"]).
    + reflexivity.
    + discriminate.
    + separators.
    + separators.
    + reflexivity.
  - apply (H4 "Pre" [" "; em_dash; " "] "MEDICAL").
    + reflexivity.
    + reflexivity.
    + separators.
  - apply H10.
    + reflexivity.
    + vm_compute. reflexivity.
Defined.

End NameFacts.
